(** * Work-distribution core: eviction cache, bounded queue, worker pool

    A shallow embedding of
      - [createLruCache] of [packages/app/src/utils/cache.ts],
      - the class [AsyncQueue] and the function [work] of the queue module,
      - the entry-limited [createLruCache] of
        [packages/opencode/src/project/bootstrap.ts],
    followed by the properties established about them.

    Conventions of the embedding.
      - JavaScript numbers that hold counts, sizes and millisecond time
        stamps are integers ([Z]); a limit that may be [Infinity] has
        type [num].  The code computes in double precision, which is
        exact on the integers up to [MAX_SAFE_INTEGER]: the theorems on
        running byte totals over whole runs carry this bound as a
        hypothesis.
      - A JavaScript [Map] is an association list in insertion order
        ([JsMap]): iteration order is observable in the code (eviction
        order, tie breaking of the LRU scan).
      - Every call of [Date.now()] is an explicit argument of the
        operation that performs it, one argument per call site.
      - Callbacks whose only effect is to be called ([onEvict], [onError],
        [onProgress], promise resolvers) are represented by the log of
        their calls, kept in the state; they do not throw.
      - A loop that may not terminate takes fuel and returns [None] when
        the fuel runs out.
      - The event loop is a list of events: each event runs one callback
        together with the continuations it unblocks; one promise settles
        per event. *)

From Stdlib Require Import String ZArith Bool Lia Arith List.
From Stdlib Require DecimalString.
Import ListNotations.

Set Implicit Arguments.

(* ================================================================== *)
(** * Definitions *)
(* ================================================================== *)

(** ** Numbers with [Infinity] *)

Inductive num : Type :=
| Fin (z : Z)
| Infinity.

(** [a >= b], [a > b] and [a < b] for an integer [a] and a limit [b]. *)
Definition geb_num (a : Z) (b : num) : bool :=
  match b with
  | Fin z => (z <=? a)%Z
  | Infinity => false
  end.

Definition gtb_num (a : Z) (b : num) : bool :=
  match b with
  | Fin z => (z <? a)%Z
  | Infinity => false
  end.

Definition ltb_num (a : Z) (b : num) : bool :=
  match b with
  | Fin z => (a <? z)%Z
  | Infinity => true
  end.

(** [Number.MAX_SAFE_INTEGER]: the integers up to it, in absolute value,
    are doubles, and a sum or difference of two of them that stays in
    this range is computed exactly. *)
Definition MAX_SAFE_INTEGER : Z := 2 ^ 53 - 1.

(** Truthiness of a string: only the empty string is falsy. *)
Definition truthy_string (s : string) : bool :=
  negb (String.eqb s EmptyString).

(** ** JavaScript [Map] with string keys, in insertion order *)

Module JsMap.
Section Map.
Context {V : Type}.

Definition t : Type := list (string * V).

Fixpoint get (k : string) (m : t) : option V :=
  match m with
  | [] => None
  | (k', v) :: m' => if String.eqb k k' then Some v else get k m'
  end.

(** [Map.prototype.set]: an existing key keeps its position, a new key
    goes to the end. *)
Fixpoint set (k : string) (v : V) (m : t) : t :=
  match m with
  | [] => [(k, v)]
  | (k', v') :: m' =>
      if String.eqb k k' then (k', v) :: m' else (k', v') :: set k v m'
  end.

Definition delete (k : string) (m : t) : t :=
  filter (fun p => negb (String.eqb k (fst p))) m.

Definition size (m : t) : nat := length m.

Definition keys (m : t) : list string := map fst m.

End Map.
Arguments t : clear implicits.
End JsMap.

(** ** The LRU cache of [cache.ts] *)

Module Lru.
Section Cache.
Context {T : Type}.

(** [CacheOpts] after destructuring with its defaults
    ([Infinity], [Infinity], [Infinity], [() => 0]).  [onEvict] is
    represented by the log [evicted] of the state. *)
Record CacheOpts : Type := {
  maxEntries : num;
  ttlMs : num;
  maxBytes : num;
  sizeOf : T -> Z
}.

Definition defaultOpts : CacheOpts :=
  {| maxEntries := Infinity; ttlMs := Infinity; maxBytes := Infinity;
     sizeOf := fun _ => 0%Z |}.

Record CacheEntry : Type := {
  value : T;
  lastAccess : Z;
  createdAt : Z
}.

(** The closure state of [createLruCache]: the map, [currentBytes], and
    the calls [onEvict(key, value)] made so far, oldest first. *)
Record state : Type := {
  cache : JsMap.t CacheEntry;
  currentBytes : Z;
  evicted : list (string * T)
}.

Definition empty : state :=
  {| cache := []; currentBytes := 0%Z; evicted := [] |}.

Variable opts : CacheOpts.

(** [now - entry.createdAt > ttlMs] *)
Definition expired (now : Z) (e : CacheEntry) : bool :=
  gtb_num (now - createdAt e) (ttlMs opts).

Definition delete_ (key : string) (st : state) : bool * state :=
  match JsMap.get key (cache st) with
  | None => (false, st)
  | Some entry =>
      (true,
       {| cache := JsMap.delete key (cache st);
          currentBytes := (currentBytes st - sizeOf opts (value entry))%Z;
          evicted := evicted st ++ [(key, value entry)] |})
  end.

(** The loop visits the entries in map order; deleting the visited
    entry does not disturb the rest of the iteration. *)
Definition evictExpired (now : Z) (st : state) : state :=
  fold_left
    (fun s p => if expired now (snd p) then snd (delete_ (fst p) s) else s)
    (cache st) st.

(** The scan of [evictOne]: [(oldestKey, oldestAccess)], starting from
    [(null, Infinity)]. *)
Definition oldest (m : JsMap.t CacheEntry) : option string * num :=
  fold_left
    (fun acc p =>
       if ltb_num (lastAccess (snd p)) (snd acc)
       then (Some (fst p), Fin (lastAccess (snd p)))
       else acc)
    m (None, Infinity).

(** [if (oldestKey) delete_(oldestKey)]: the test is on the truthiness
    of the key, so neither [null] nor the empty string is deleted. *)
Definition evictOne (st : state) : state :=
  match fst (oldest (cache st)) with
  | Some k => if truthy_string k then snd (delete_ k st) else st
  | None => st
  end.

(** The loop condition of [evictToMakeRoomFor]. *)
Definition overBudget (entrySize : Z) (st : state) : bool :=
  geb_num (Z.of_nat (JsMap.size (cache st))) (maxEntries opts)
  || gtb_num (currentBytes st + entrySize) (maxBytes opts).

(** The [while] loop; [None] when [fuel] iterations were not enough. *)
Fixpoint evictLoop (fuel : nat) (entrySize : Z) (st : state) : option state :=
  if overBudget entrySize st then
    if (JsMap.size (cache st) =? 0)%nat then Some st
    else
      match fuel with
      | O => None
      | S fuel' => evictLoop fuel' entrySize (evictOne st)
      end
  else Some st.

Definition evictToMakeRoomFor (fuel : nat) (v : T) (now : Z) (st : state)
  : option state :=
  evictLoop fuel (sizeOf opts v) (evictExpired now st).

(** *** The returned object *)

Definition get (key : string) (now : Z) (st : state) : option T * state :=
  match JsMap.get key (cache st) with
  | None => (None, st)
  | Some entry =>
      if expired now entry then (None, snd (delete_ key st))
      else
        (Some (value entry),
         {| cache :=
              JsMap.set key
                {| value := value entry; lastAccess := now;
                   createdAt := createdAt entry |}
                (cache st);
            currentBytes := currentBytes st;
            evicted := evicted st |})
  end.

(** [nowSweep] is read by [evictExpired], [nowInsert] by [set] itself. *)
Definition set (fuel : nat) (key : string) (v : T) (nowSweep nowInsert : Z)
  (st : state) : option state :=
  let st1 :=
    match JsMap.get key (cache st) with
    | Some existing =>
        {| cache := cache st;
           currentBytes := (currentBytes st - sizeOf opts (value existing))%Z;
           evicted := evicted st |}
    | None => st
    end in
  match evictToMakeRoomFor fuel v nowSweep st1 with
  | None => None
  | Some st2 =>
      Some {| cache :=
                JsMap.set key
                  {| value := v; lastAccess := nowInsert;
                     createdAt := nowInsert |}
                  (cache st2);
              currentBytes := (currentBytes st2 + sizeOf opts v)%Z;
              evicted := evicted st2 |}
  end.

Definition has (key : string) (now : Z) (st : state) : bool * state :=
  match JsMap.get key (cache st) with
  | None => (false, st)
  | Some entry =>
      if expired now entry then (false, snd (delete_ key st))
      else (true, st)
  end.

Definition peek (key : string) (st : state) : option T :=
  option_map value (JsMap.get key (cache st)).

Definition delete (key : string) (st : state) : bool * state :=
  delete_ key st.

Definition clear (st : state) : state :=
  {| cache := [];
     currentBytes := 0%Z;
     evicted := evicted st ++ map (fun p => (fst p, value (snd p))) (cache st) |}.

Definition size (st : state) : nat := JsMap.size (cache st).

Definition byteSize (st : state) : Z := currentBytes st.

Definition stats (st : state) : nat * Z * list string :=
  (JsMap.size (cache st), currentBytes st, JsMap.keys (cache st)).

(** *** Sequences of calls *)

Inductive op : Type :=
| OpSet (key : string) (v : T) (nowSweep nowInsert : Z)
| OpGet (key : string) (now : Z)
| OpHas (key : string) (now : Z)
| OpPeek (key : string)
| OpDelete (key : string)
| OpClear.

Definition isSet (o : op) : bool :=
  match o with OpSet _ _ _ _ => true | _ => false end.

Definition opKey (o : op) : option string :=
  match o with
  | OpSet k _ _ _ | OpGet k _ | OpHas k _ | OpPeek k | OpDelete k => Some k
  | OpClear => None
  end.

Definition truthyKey (o : op) : bool :=
  match opKey o with
  | Some k => truthy_string k
  | None => true
  end.

Definition step (fuel : nat) (o : op) (st : state) : option state :=
  match o with
  | OpSet k v ts ti => set fuel k v ts ti st
  | OpGet k now => Some (snd (get k now st))
  | OpHas k now => Some (snd (has k now st))
  | OpPeek _ => Some st
  | OpDelete k => Some (snd (delete k st))
  | OpClear => Some (clear st)
  end.

Fixpoint run (fuel : nat) (ops : list op) (st : state) : option state :=
  match ops with
  | [] => Some st
  | o :: ops' =>
      match step fuel o st with
      | None => None
      | Some st' => run fuel ops' st'
      end
  end.

(** The sum of [sizeOf(value)] over the live entries. *)
Definition weight (m : JsMap.t CacheEntry) : Z :=
  fold_right (fun p acc => (sizeOf opts (value (snd p)) + acc)%Z) 0%Z m.

Definition liveBytes (st : state) : Z := weight (cache st).

(** How far the running total is from the live sum. *)
Definition drift (st : state) : Z := (currentBytes st - liveBytes st)%Z.

(** The keys of a [Map] are distinct. *)
Definition distinctKeys (st : state) : Prop := NoDup (JsMap.keys (cache st)).

(** [st'] comes from [st] by deleting entries through [delete_]: the
    drift is kept and every key is either gone or bound as before. *)
Definition evicts (st st' : state) : Prop :=
  distinctKeys st ->
  distinctKeys st'
  /\ drift st' = drift st
  /\ forall k, JsMap.get k (cache st') = None
               \/ JsMap.get k (cache st') = JsMap.get k (cache st).

(** No [set] of the run is called on a key that is present. *)
Fixpoint overwriteFree (fuel : nat) (ops : list op) (st : state) : bool :=
  match ops with
  | [] => true
  | o :: ops' =>
      match o with
      | OpSet k _ _ _ =>
          match JsMap.get k (cache st) with
          | None => true
          | Some _ => false
          end
      | _ => true
      end
      && match step fuel o st with
         | Some st' => overwriteFree fuel ops' st'
         | None => true
         end
  end.

(** The sum of [sizeOf(value)] over the [set] calls of a sequence. *)
Fixpoint storedBytes (ops : list op) : Z :=
  match ops with
  | [] => 0%Z
  | OpSet _ v _ _ :: ops' => (sizeOf opts v + storedBytes ops')%Z
  | _ :: ops' => storedBytes ops'
  end.

End Cache.
Arguments CacheOpts : clear implicits.
Arguments CacheEntry : clear implicits.
Arguments state : clear implicits.
Arguments op : clear implicits.

(** A cache of integers that weigh their own value, at most one entry. *)
Definition oneSlot : CacheOpts Z :=
  {| maxEntries := Fin 1; ttlMs := Infinity; maxBytes := Infinity;
     sizeOf := fun v => v |}.

End Lru.

(** ** The asynchronous queue *)

Module AsyncQueue.

Inductive DropStrategy : Type := Oldest | Newest | Block.

Record QueueMetrics : Type := {
  enqueued : Z;
  dequeued : Z;
  dropped : Z;
  cacheHits : Z;
  cacheMisses : Z;
  currentSize : Z
}.

Definition zeroMetrics : QueueMetrics :=
  {| enqueued := 0; dequeued := 0; dropped := 0;
     cacheHits := 0; cacheMisses := 0; currentSize := 0 |}.

Definition DEFAULT_CACHE_TTL : Z := 5000.

Section Class.
Context {T : Type}.

(** Truthiness of an item ([if (item)] in [next]) and
    [JSON.stringify], the default key function. *)
Variable truthy : T -> bool.
Variable stringify : T -> string.

Record CacheEntry : Type := {
  value : T;
  expires : Z
}.

(** The constructor's [options]; [None] is an absent field. *)
Record Options : Type := {
  opt_maxSize : option num;
  opt_dropStrategy : option DropStrategy;
  opt_enableCache : option bool;
  opt_cacheKeyFn : option (T -> string);
  opt_cacheTTL : option Z
}.

Definition noOptions : Options :=
  {| opt_maxSize := None; opt_dropStrategy := None; opt_enableCache := None;
     opt_cacheKeyFn := None; opt_cacheTTL := None |}.

(** The object.  The chain of nodes from [head] to [tail] is the list
    [nodes], head first.  A resolver is identified by the number of the
    promise it settles; [promises] counts the promises created by
    [next], [resolved] logs the calls [resolve(value)], and [timers]
    holds the items of the armed [setTimeout(checkAndPush, 10)]. *)
Record t : Type := {
  nodes : list T;
  size : Z;
  resolvers : list nat;
  maxSize : num;
  dropStrategy : DropStrategy;
  cache : option (JsMap.t CacheEntry);
  cacheKeyFn : option (T -> string);
  cacheTTL : option Z;
  metrics : QueueMetrics;
  promises : nat;
  resolved : list (nat * T);
  timers : list T
}.

(** [options?.enableCache] is truthy. *)
Definition cacheRequested (options : option Options) : bool :=
  match options with
  | Some {| opt_enableCache := Some true |} => true
  | _ => false
  end.

(** [options.cacheKeyFn ?? ((item) => JSON.stringify(item))] *)
Definition chosenKeyFn (options : option Options) : T -> string :=
  match options with
  | Some {| opt_cacheKeyFn := Some f |} => f
  | _ => stringify
  end.

Definition new (options : option Options) : t :=
  let enable := cacheRequested options in
  {| nodes := [];
     size := 0;
     resolvers := [];
     maxSize :=
       match options with
       | Some {| opt_maxSize := Some m |} => m
       | _ => Infinity
       end;
     dropStrategy :=
       match options with
       | Some {| opt_dropStrategy := Some d |} => d
       | _ => Oldest
       end;
     cache := if enable then Some [] else None;
     cacheKeyFn := if enable then Some (chosenKeyFn options) else None;
     cacheTTL :=
       if enable then
         match options with
         | Some {| opt_cacheTTL := Some ttl |} => Some ttl
         | _ => Some DEFAULT_CACHE_TTL
         end
       else None;
     metrics := zeroMetrics;
     promises := 0;
     resolved := [];
     timers := [] |}.

(** *** Field updates *)

Definition withBuffer (l : list T) (n : Z) (q : t) : t :=
  {| nodes := l; size := n; resolvers := resolvers q; maxSize := maxSize q;
     dropStrategy := dropStrategy q; cache := cache q;
     cacheKeyFn := cacheKeyFn q; cacheTTL := cacheTTL q;
     metrics := metrics q; promises := promises q; resolved := resolved q;
     timers := timers q |}.

Definition withMetrics (m : QueueMetrics) (q : t) : t :=
  {| nodes := nodes q; size := size q; resolvers := resolvers q;
     maxSize := maxSize q; dropStrategy := dropStrategy q; cache := cache q;
     cacheKeyFn := cacheKeyFn q; cacheTTL := cacheTTL q;
     metrics := m; promises := promises q; resolved := resolved q;
     timers := timers q |}.

Definition withCache (c : option (JsMap.t CacheEntry)) (q : t) : t :=
  {| nodes := nodes q; size := size q; resolvers := resolvers q;
     maxSize := maxSize q; dropStrategy := dropStrategy q; cache := c;
     cacheKeyFn := cacheKeyFn q; cacheTTL := cacheTTL q;
     metrics := metrics q; promises := promises q; resolved := resolved q;
     timers := timers q |}.

Definition withWaiters (rs : list nat) (n : nat) (log : list (nat * T))
  (q : t) : t :=
  {| nodes := nodes q; size := size q; resolvers := rs;
     maxSize := maxSize q; dropStrategy := dropStrategy q; cache := cache q;
     cacheKeyFn := cacheKeyFn q; cacheTTL := cacheTTL q;
     metrics := metrics q; promises := n; resolved := log;
     timers := timers q |}.

Definition withTimers (ts : list T) (q : t) : t :=
  {| nodes := nodes q; size := size q; resolvers := resolvers q;
     maxSize := maxSize q; dropStrategy := dropStrategy q; cache := cache q;
     cacheKeyFn := cacheKeyFn q; cacheTTL := cacheTTL q;
     metrics := metrics q; promises := promises q; resolved := resolved q;
     timers := ts |}.

Definition countEnqueued (n : Z) (m : QueueMetrics) : QueueMetrics :=
  {| enqueued := enqueued m + 1; dequeued := dequeued m; dropped := dropped m;
     cacheHits := cacheHits m; cacheMisses := cacheMisses m;
     currentSize := n |}.

Definition countDequeued (n : Z) (m : QueueMetrics) : QueueMetrics :=
  {| enqueued := enqueued m; dequeued := dequeued m + 1; dropped := dropped m;
     cacheHits := cacheHits m; cacheMisses := cacheMisses m;
     currentSize := n |}.

Definition countDropped (m : QueueMetrics) : QueueMetrics :=
  {| enqueued := enqueued m; dequeued := dequeued m; dropped := dropped m + 1;
     cacheHits := cacheHits m; cacheMisses := cacheMisses m;
     currentSize := currentSize m |}.

Definition countHit (m : QueueMetrics) : QueueMetrics :=
  {| enqueued := enqueued m; dequeued := dequeued m; dropped := dropped m;
     cacheHits := cacheHits m + 1; cacheMisses := cacheMisses m;
     currentSize := currentSize m |}.

Definition countMiss (m : QueueMetrics) : QueueMetrics :=
  {| enqueued := enqueued m; dequeued := dequeued m; dropped := dropped m;
     cacheHits := cacheHits m; cacheMisses := cacheMisses m + 1;
     currentSize := currentSize m |}.

Definition resetSize (m : QueueMetrics) : QueueMetrics :=
  {| enqueued := enqueued m; dequeued := dequeued m; dropped := dropped m;
     cacheHits := cacheHits m; cacheMisses := cacheMisses m;
     currentSize := 0 |}.

(** *** Private methods *)

Definition enqueueNode (item : T) (q : t) : t :=
  withMetrics (countEnqueued (size q + 1) (metrics q))
    (withBuffer (nodes q ++ [item]) (size q + 1) q).

Definition dequeueNode (q : t) : option T * t :=
  match nodes q with
  | [] => (None, q)
  | v :: rest =>
      (Some v,
       withMetrics (countDequeued (size q - 1) (metrics q))
         (withBuffer rest (size q - 1) q))
  end.

(** [const r = this.resolvers.shift(); if (r) r(item)] *)
Definition handOff (item : T) (q : t) : t :=
  match resolvers q with
  | [] => q
  | r :: rs => withWaiters rs (promises q) (resolved q ++ [(r, item)]) q
  end.

Definition cleanupCache (now : Z) (q : t) : t :=
  match cache q with
  | None => q
  | Some c =>
      withCache
        (Some (fold_left
                 (fun m p =>
                    if (expires (snd p) <=? now)%Z
                    then JsMap.delete (fst p) m else m)
                 c c))
        q
  end.

Inductive pushResult : Type :=
| Returned (b : bool)
| Promised (settled : option bool).

(** One run of the closure [checkAndPush]; [true] when it resolved the
    promise of [pushWhenAvailable], [false] when it armed the timer
    again. *)
Definition checkAndPush (item : T) (q : t) : bool * t :=
  if negb (geb_num (size q) (maxSize q)) then
    (true, handOff item (enqueueNode item q))
  else (false, withTimers (timers q ++ [item]) q).

Definition pushWhenAvailable (item : T) (q : t) : pushResult * t :=
  let (ok, q') := checkAndPush item q in
  (Promised (if ok then Some true else None), q').

(** The outcome of the first block of [push]. *)
Inductive lookup : Type :=
| Disabled
| Miss
| Hit (cached : T).

Definition dedupLookup (item : T) (now : Z) (q : t) : lookup :=
  match cache q, cacheKeyFn q with
  | Some c, Some keyFn =>
      match JsMap.get (keyFn item) c with
      | Some cached =>
          if (now <? expires cached)%Z then Hit (value cached) else Miss
      | None => Miss
      end
  | _, _ => Disabled
  end.

(** The third block of [push]: store in the cache, then sweep. *)
Definition dedupStore (item : T) (nowStore nowSweep : Z) (q : t) : t :=
  match cache q, cacheKeyFn q with
  | Some c, Some keyFn =>
      let ttl := match cacheTTL q with Some x => x | None => DEFAULT_CACHE_TTL end in
      cleanupCache nowSweep
        (withCache
           (Some (JsMap.set (keyFn item)
                    {| value := item; expires := nowStore + ttl |} c))
           q)
  | _, _ => q
  end.

(** The tail of [push], from the cache store to [return true]. *)
Definition append (item : T) (nowStore nowSweep : Z) (q : t) : pushResult * t :=
  (Returned true, handOff item (enqueueNode item (dedupStore item nowStore nowSweep q))).

(** *** Public methods *)

(** [nowHit], [nowStore], [nowSweep]: the clock as read by the hit
    test, by the cache store, and by [cleanupCache]. *)
Definition push (item : T) (nowHit nowStore nowSweep : Z) (q : t)
  : pushResult * t :=
  match dedupLookup item nowHit q with
  | Hit cached =>
      let q1 := withMetrics (countHit (metrics q)) q in
      match resolvers q1 with
      | _ :: _ => (Returned true, handOff cached q1)
      | [] => (Returned true, enqueueNode cached q1)
      end
  | found =>
      let q1 :=
        match found with
        | Disabled => q
        | _ => withMetrics (countMiss (metrics q)) q
        end in
      if geb_num (size q1) (maxSize q1) then
        match dropStrategy q1 with
        | Newest => (Returned false, withMetrics (countDropped (metrics q1)) q1)
        | Oldest =>
            let q2 := snd (dequeueNode q1) in
            append item nowStore nowSweep
              (withMetrics (countDropped (metrics q2)) q2)
        | Block => pushWhenAvailable item q1
        end
      else append item nowStore nowSweep q1
  end.

Inductive nextResult : Type :=
| Value (item : T)
| Pending (promise : nat).

Definition next (q : t) : nextResult * t :=
  let (item, q1) := dequeueNode q in
  match item with
  | Some v =>
      if truthy v then (Value v, q1)
      else (Pending (promises q1),
            withWaiters (resolvers q1 ++ [promises q1]) (S (promises q1))
              (resolved q1) q1)
  | None =>
      (Pending (promises q1),
       withWaiters (resolvers q1 ++ [promises q1]) (S (promises q1))
         (resolved q1) q1)
  end.

Definition getMetrics (q : t) : QueueMetrics := metrics q.

Definition clear (q : t) : t :=
  withMetrics (resetSize (metrics q)) (withBuffer [] 0 q).

Definition length (q : t) : Z := size q.

Definition pending (q : t) : nat := List.length (resolvers q).

Definition clearCache (q : t) : t :=
  withCache (option_map (fun _ => []) (cache q)) q.

(** The counter [size] agrees with the chain of nodes. *)
Definition sized (q : t) : Prop := size q = Z.of_nat (List.length (nodes q)).

(** Deduplication is on: both tests of [push] on [cache] and
    [cacheKeyFn] succeed. *)
Definition dedupOn (q : t) : bool :=
  match cache q, cacheKeyFn q with
  | Some _, Some _ => true
  | _, _ => false
  end.

(** *** Sequences of calls *)

Inductive op : Type :=
| OpPush (item : T) (nowHit nowStore nowSweep : Z)
| OpNext
| OpClear
| OpClearCache
| OpTimer.

Definition step (o : op) (q : t) : t :=
  match o with
  | OpPush item t1 t2 t3 => snd (push item t1 t2 t3 q)
  | OpNext => snd (next q)
  | OpClear => clear q
  | OpClearCache => clearCache q
  | OpTimer =>
      match timers q with
      | [] => q
      | item :: ts => snd (checkAndPush item (withTimers ts q))
      end
  end.

Definition run (ops : list op) (q : t) : t := fold_left (fun s o => step o s) ops q.

(** *** The asynchronous iterator *)

(** [n] turns of the generator [while (true) yield await this.next()]:
    the values it yields, up to the first [next()] that stays pending,
    where the generator is suspended. *)
Fixpoint iterate (n : nat) (q : t) : list T * t :=
  match n with
  | O => ([], q)
  | S n' =>
      match next q with
      | (Value v, q1) => let (vs, q2) := iterate n' q1 in (v :: vs, q2)
      | (Pending _, q1) => ([], q1)
      end
  end.

(** The items of the [push] calls of a sequence, and the sequences that
    call nothing else, or never call [clear]. *)
Definition pushed (o : op) : list T :=
  match o with
  | OpPush item _ _ _ => [item]
  | _ => []
  end.

Definition isPush (o : op) : bool :=
  match o with OpPush _ _ _ _ => true | _ => false end.

Definition isClear (o : op) : bool :=
  match o with OpClear => true | _ => false end.

End Class.
Arguments CacheEntry : clear implicits.
Arguments Options : clear implicits.
Arguments t : clear implicits.
Arguments op : clear implicits.
Arguments lookup : clear implicits.
Arguments nextResult : clear implicits.

(** Queues of integers: [0] is the only falsy number of the model;
    [JSON.stringify] of an integer is its decimal notation. *)
Definition truthyZ (z : Z) : bool := negb (z =? 0)%Z.

Definition stringifyZ (z : Z) : string :=
  DecimalString.NilZero.string_of_int (Z.to_int z).

Definition newZ : option (Options Z) -> t Z := new stringifyZ.



(** Deduplication on a constant key, with an optional capacity. *)
Definition constKey (cap : option num) : Options Z :=
  {| opt_maxSize := cap; opt_dropStrategy := None;
     opt_enableCache := Some true;
     opt_cacheKeyFn := Some (fun _ => "k"%string); opt_cacheTTL := None |}.

End AsyncQueue.

(** ** The worker pool [work] *)

Module Pool.

Record WorkMetrics : Type := {
  completed : Z;
  failed : Z;
  total : Z;
  currentConcurrency : Z
}.

(** [number | { min: number; max: number }] *)
Inductive Concurrency : Type :=
| Fixed (n : Z)
| Range (min max : Z).

Definition minOf (c : Concurrency) : Z :=
  match c with Fixed n => n | Range lo _ => lo end.

Definition maxOf (c : Concurrency) : Z :=
  match c with Fixed n => n | Range _ hi => hi end.

(** [Math.ceil(n / b)] for a count [n] and a batch size [b >= 1]. *)
Definition ceilDiv (n : nat) (b : positive) : Z :=
  (Z.of_nat n + Z.pos b - 1) / Z.pos b.

Section Work.
Context {T E : Type}.

(** [fn(item)]: [None] when its promise fulfils, [Some e] when it
    rejects with (or throws) [e].  [isUndefined] is the test
    [item === undefined]; [stringify] is the default key function of
    the result queue, whose cache is never enabled. *)
Variable fn : T -> option E.
Variable isUndefined : T -> bool.

(** The fields of [WorkOptions] that [work] reads; batch sizes are
    positive integers.  [onError] and [onProgress] are the logs
    [errors] and [progress] of the state. *)
Record WorkOptions : Type := {
  opt_enableBatching : option bool;
  opt_batchSize : option positive
}.

Record outcome : Type := {
  success : bool;
  error : option E
}.

Variable stringify : outcome -> string.

(** A promise returned by [worker()]: suspended in
    [await processBatch(batch)], with the items of the batch whose
    [fn] promise has not settled yet, or fulfilled. *)
Inductive worker : Type :=
| Awaiting (unsettled : list T)
| Finished.

(** The variables of one call of [work].  [pending] is kept in pop
    order: its head is the last element of the array.  [awaited] is
    the number of promises that [Promise.all(workers)] iterated over
    when it was called; [returned] is the value [work] resolved with. *)
Record state : Type := {
  pending : list T;
  nCompleted : Z;
  nFailed : Z;
  activeWorkers : Z;
  workers : list worker;
  awaited : nat;
  resultQueue : AsyncQueue.t outcome;
  errors : list (E * T);
  progress : list (Z * Z);
  returned : option WorkMetrics
}.

Variable concurrency : Concurrency.
Variable items : list T.
Variable options : option WorkOptions.

Definition nTotal : Z := Z.of_nat (List.length items).

Definition batchSize : positive :=
  match options with
  | Some {| opt_batchSize := Some b |} => b
  | _ => 1%positive
  end.

Definition enableBatching : bool :=
  match options with
  | Some {| opt_enableBatching := Some e |} => e
  | _ => (1 <? Z.pos batchSize)%Z
  end.

(** The body of [worker] from the loop test to the next [await] or
    [return], on the counter [active] and the stack [stack]. *)
Fixpoint workerLoop (active : Z) (stack : list T) : worker * Z * list T :=
  match stack with
  | [] => (Finished, (active - 1)%Z, [])
  | item :: rest =>
      if ((ceilDiv (List.length stack) batchSize <? active)%Z
          && (minOf concurrency <? active)%Z)%bool
      then (Finished, (active - 1)%Z, stack)
      else if enableBatching then
        (Awaiting (firstn (Pos.to_nat batchSize) stack), active,
         skipn (Pos.to_nat batchSize) stack)
      else if isUndefined item then workerLoop active rest
      else (Awaiting [item], active, rest)
  end.

Definition withWorkers (ws : list worker) (active : Z) (stack : list T)
  (st : state) : state :=
  {| pending := stack; nCompleted := nCompleted st; nFailed := nFailed st;
     activeWorkers := active; workers := ws; awaited := awaited st;
     resultQueue := resultQueue st; errors := errors st;
     progress := progress st; returned := returned st |}.

(** [workers.push(worker())]: the new worker runs up to its first
    [await]. *)
Definition spawn (st : state) : state :=
  let '(w, active, stack) := workerLoop (activeWorkers st + 1) (pending st) in
  withWorkers (workers st ++ [w]) active stack st.

Fixpoint spawnMany (n : nat) (st : state) : state :=
  match n with
  | O => st
  | S n' => spawnMany n' (spawn st)
  end.

(** The continuation of [await fn(item)] inside [processBatch]. *)
Definition settleItem (item : T) (st : state) : state :=
  let st1 :=
    match fn item with
    | None =>
        {| pending := pending st; nCompleted := nCompleted st + 1;
           nFailed := nFailed st; activeWorkers := activeWorkers st;
           workers := workers st; awaited := awaited st;
           resultQueue :=
             snd (AsyncQueue.push {| success := true; error := None |} 0 0 0
                    (resultQueue st));
           errors := errors st; progress := progress st;
           returned := returned st |}
    | Some e =>
        {| pending := pending st; nCompleted := nCompleted st;
           nFailed := nFailed st + 1; activeWorkers := activeWorkers st;
           workers := workers st; awaited := awaited st;
           resultQueue :=
             snd (AsyncQueue.push {| success := false; error := Some e |} 0 0 0
                    (resultQueue st));
           errors := errors st ++ [(e, item)]; progress := progress st;
           returned := returned st |}
    end in
  {| pending := pending st1; nCompleted := nCompleted st1;
     nFailed := nFailed st1; activeWorkers := activeWorkers st1;
     workers := workers st1; awaited := awaited st1;
     resultQueue := resultQueue st1; errors := errors st1;
     progress := progress st1 ++ [(nCompleted st1 + nFailed st1, nTotal)%Z];
     returned := returned st1 |}.

Fixpoint replace {A : Type} (i : nat) (a : A) (l : list A) : list A :=
  match l, i with
  | [], _ => []
  | _ :: l', O => a :: l'
  | x :: l', S i' => x :: replace i' a l'
  end.

Fixpoint remove {A : Type} (i : nat) (l : list A) : list A :=
  match l, i with
  | [], _ => []
  | _ :: l', O => l'
  | x :: l', S i' => x :: remove i' l'
  end.

Definition allFinished (ws : list worker) : bool :=
  forallb (fun w => match w with Finished => true | Awaiting _ => false end) ws.

(** The continuation of [await Promise.all(workers)]: it runs once,
    when the promises that [Promise.all] iterated over are fulfilled.
    It is taken to run before the next settlement: an event of a
    schedule is a turn of the event loop in which one [fn] promise
    settles. *)
Definition tryReturn (st : state) : state :=
  match returned st with
  | Some _ => st
  | None =>
      if allFinished (firstn (awaited st) (workers st)) then
        {| pending := pending st; nCompleted := nCompleted st;
           nFailed := nFailed st; activeWorkers := activeWorkers st;
           workers := workers st; awaited := awaited st;
           resultQueue := resultQueue st; errors := errors st;
           progress := progress st;
           returned :=
             Some {| completed := nCompleted st; failed := nFailed st;
                     total := nTotal;
                     currentConcurrency := activeWorkers st |} |}
      else st
  end.

(** What the event loop can run next: the interval callback, or the
    settlement of the [i]-th unsettled [fn] promise of worker [w]
    together with the continuations it unblocks. *)
Inductive event : Type :=
| Tick
| Settle (w i : nat).

Definition scaler (st : state) : state :=
  match returned st with
  | Some _ => st
  | None =>
      let needed :=
        Z.min (maxOf concurrency - activeWorkers st)
              (ceilDiv (List.length (pending st)) batchSize - activeWorkers st) in
      if ((0 <? needed)%Z && (activeWorkers st <? maxOf concurrency)%Z)%bool
      then spawnMany (Z.to_nat needed) st
      else st
  end.

Definition settle (w i : nat) (st : state) : state :=
  match nth_error (workers st) w with
  | Some (Awaiting batch) =>
      match nth_error batch i with
      | Some item =>
          let st1 := settleItem item st in
          match remove i batch with
          | [] =>
              let '(status, active, stack) :=
                workerLoop (activeWorkers st1) (pending st1) in
              withWorkers (replace w status (workers st1)) active stack st1
          | batch' =>
              withWorkers (replace w (Awaiting batch') (workers st1))
                (activeWorkers st1) (pending st1) st1
          end
      | None => st
      end
  | _ => st
  end.

Definition step (e : event) (st : state) : state :=
  tryReturn
    match e with
    | Tick => scaler st
    | Settle w i => settle w i st
    end.

(** The synchronous prefix of [work], up to [await Promise.all]. *)
Definition start : state :=
  let st0 :=
    {| pending := rev items; nCompleted := 0; nFailed := 0;
       activeWorkers := 0; workers := []; awaited := 0;
       resultQueue := AsyncQueue.new stringify None;
       errors := []; progress := []; returned := None |} in
  let initialWorkers := Z.min (minOf concurrency) (ceilDiv (List.length items) batchSize) in
  let st1 := spawnMany (Z.to_nat initialWorkers) st0 in
  tryReturn
    {| pending := pending st1; nCompleted := nCompleted st1;
       nFailed := nFailed st1; activeWorkers := activeWorkers st1;
       workers := workers st1; awaited := List.length (workers st1);
       resultQueue := resultQueue st1; errors := errors st1;
       progress := progress st1; returned := returned st1 |}.

Definition work (schedule : list event) : state :=
  fold_left (fun st e => step e st) schedule start.

(** No promise is left unsettled and [work] has resolved. *)
Definition quiescent (st : state) : bool :=
  allFinished (workers st)
  && match returned st with Some _ => true | None => false end.

(** *** Bookkeeping of a run *)

Definition unsettled (w : worker) : list T :=
  match w with
  | Awaiting batch => batch
  | Finished => []
  end.

Definition isAwaiting (w : worker) : bool :=
  match w with
  | Awaiting _ => true
  | Finished => false
  end.

(** The items whose [fn] call is in progress, and the number of workers
    that have not returned. *)
Definition inFlight (ws : list worker) : list T := flat_map unsettled ws.

Definition running (ws : list worker) : Z :=
  Z.of_nat (List.length (filter isAwaiting ws)).

Definition fulfils (x : T) : bool :=
  match fn x with
  | None => true
  | Some _ => false
  end.

Definition okCount (l : list T) : Z :=
  Z.of_nat (List.length (filter fulfils l)).

Definition badCount (l : list T) : Z :=
  Z.of_nat (List.length (filter (fun x => negb (fulfils x)) l)).

(** The number of items a worker takes in one turn of its loop. *)
Definition take : nat :=
  if enableBatching then Pos.to_nat batchSize else 1%nat.

(** What holds in every state of a run: the counter of active workers
    is the number of unreturned workers and does not exceed the floor,
    every item is settled, in flight or pending, and [onError] was called
    once per failure. *)
Record accounted (st : state) : Prop := {
  acc_running : activeWorkers st = running (workers st);
  acc_floor : (activeWorkers st <= minOf concurrency)%Z;
  acc_ok :
    (nCompleted st + okCount (inFlight (workers st)) + okCount (pending st)
     = okCount items)%Z;
  acc_bad :
    (nFailed st + badCount (inFlight (workers st)) + badCount (pending st)
     = badCount items)%Z;
  acc_errors : Z.of_nat (List.length (errors st)) = nFailed st;
  acc_defined : forall x, In x (pending st) -> isUndefined x = false;
  acc_backlog : (List.length (pending st) <= List.length items)%nat
}.

(** What holds once [Promise.all] has been called, when the interval
    never finds a reason to spawn: the backlog is covered, all workers
    are awaited, and [work] has returned only if all of them have. *)
Record settledDown (st : state) : Prop := {
  sd_accounted : accounted st;
  sd_busy : pending st = [] \/ (1 <= activeWorkers st)%Z;
  sd_cover :
    activeWorkers st = minOf concurrency
    \/ (ceilDiv (List.length (pending st)) batchSize <= activeWorkers st)%Z;
  sd_awaited : awaited st = List.length (workers st);
  sd_returned :
    forall m, returned st = Some m ->
      allFinished (workers st) = true
      /\ m = {| completed := nCompleted st; failed := nFailed st;
                total := nTotal; currentConcurrency := activeWorkers st |}
}.

(** What holds in every state of every run, whatever the concurrency:
    the counter of active workers is the number of unreturned workers;
    every item is settled, in flight, pending, or was popped and skipped
    as [undefined] by a worker that does not batch ([skipped] lists the
    latter); every batch in flight is non-empty, within the batch size,
    and made of items of the input. *)
Record balanced (skipped : list T) (st : state) : Prop := {
  bal_running : activeWorkers st = running (workers st);
  bal_ok :
    (nCompleted st + okCount (inFlight (workers st)) + okCount (pending st)
     + okCount skipped = okCount items)%Z;
  bal_bad :
    (nFailed st + badCount (inFlight (workers st)) + badCount (pending st)
     + badCount skipped = badCount items)%Z;
  bal_pending : forall x, In x (pending st) -> In x items;
  bal_skipped :
    forall x, In x skipped ->
      In x items /\ isUndefined x = true /\ enableBatching = false;
  bal_batches :
    forall batch, In (Awaiting batch) (workers st) ->
      (1 <= List.length batch <= take)%nat
      /\ forall x, In x batch ->
           In x items /\ (enableBatching = false -> isUndefined x = false)
}.

(** The [k]-th call of [onProgress] reports [(k, total)]. *)
Definition progressLog (n : Z) : list (Z * Z) :=
  map (fun k => (Z.of_nat k, nTotal)) (seq 1 (Z.to_nat n)).

(** What the callbacks and the result queue have seen: one [onError]
    call per failure, with the error [fn] gave for the item; one
    [onProgress] call per settled item; one node of the result queue per
    settled item, which nothing ever takes out. *)
Record logged (st : state) : Prop := {
  log_completed : (0 <= nCompleted st)%Z;
  log_failed : (0 <= nFailed st)%Z;
  log_errors : Z.of_nat (List.length (errors st)) = nFailed st;
  log_errors_fn : forall e x, In (e, x) (errors st) -> fn x = Some e;
  log_progress : progress st = progressLog (nCompleted st + nFailed st);
  log_queue_unbounded :
    AsyncQueue.cache (resultQueue st) = None
    /\ AsyncQueue.maxSize (resultQueue st) = Infinity
    /\ AsyncQueue.resolvers (resultQueue st) = [];
  log_queue_length :
    AsyncQueue.length (resultQueue st) = (nCompleted st + nFailed st)%Z
    /\ Z.of_nat (List.length (AsyncQueue.nodes (resultQueue st)))
       = (nCompleted st + nFailed st)%Z;
  log_queue_successes :
    Z.of_nat (List.length (filter success (AsyncQueue.nodes (resultQueue st))))
    = nCompleted st
}.

(** The most workers that can be active at once. *)
Definition ceiling : Z :=
  Z.max 0 (Z.max (minOf concurrency) (maxOf concurrency)).

(** What holds in every state of every run: the books are balanced, the
    logs are complete, the workers are within the ceiling, and the value
    [work] resolved with, if any, was read off the counters of an earlier
    state. *)
Record sound (st : state) : Prop := {
  sound_balanced : exists skipped, balanced skipped st;
  sound_logged : logged st;
  sound_ceiling : (activeWorkers st <= ceiling)%Z;
  sound_returned :
    forall m, returned st = Some m ->
      (0 <= completed m <= nCompleted st)%Z
      /\ (0 <= failed m <= nFailed st)%Z
      /\ total m = nTotal
      /\ (0 <= currentConcurrency m <= ceiling)%Z
}.

(** A worker is active or nothing is pending. *)
Definition busy (st : state) : Prop :=
  pending st = [] \/ (1 <= activeWorkers st)%Z.

End Work.
Arguments WorkOptions : clear implicits.
Arguments outcome : clear implicits.
Arguments state : clear implicits.

(** Ten numbered items of which [0], [5] and [9] fail. *)
Definition threeFail (i : nat) : option string :=
  if ((i =? 0) || (i =? 5) || (i =? 9))%nat then Some "boom"%string else None.

Definition neverFail (i : nat) : option string := None.

Definition tenItems : list nat := seq 0 10.

Definition neverUndefined (i : nat) : bool := false.

Definition outcomeKey (o : outcome string) : string := "outcome"%string.

(** [fn] takes 150 ms per item and the interval fires every 100 ms:
    the schedule lists the callbacks in the order of their due times. *)
Definition slowSchedule : list event :=
  [ Tick;                                  (* 100 *)
    Settle 0 0;                            (* 150 *)
    Tick;                                  (* 200 *)
    Settle 1 0; Settle 2 0; Settle 3 0;    (* 250 *)
    Settle 0 0; Tick;                      (* 300 *)
    Settle 1 0; Settle 2 0; Tick;          (* 400 *)
    Settle 0 0 ].                          (* 450 *)

Definition slowRest : list event :=
  [ Settle 2 0;                            (* 550 *)
    Settle 2 0 ].                          (* 700 *)

(** Three items and a pool of one to two workers; the interval fires
    once before the first item settles. *)
Definition threeItems : list nat := seq 0 3.

Definition tickFirst : list event := [ Tick; Settle 0 0 ].

Definition isRejected (r : option string) : bool :=
  match r with Some _ => true | None => false end.

End Pool.

(** ** The entry-limited LRU cache of [project/bootstrap.ts] *)

(** [createLruCache<K, V>]: keys of any type, compared as a [Map]
    compares them ([sameKey]); [isNull] is the test [key === null], which
    [evictOne] applies to the key it has picked.  [onEvict] is the log
    [evicted]; [now] is the reading of [Date.now()]. *)
Module LruCache.
Section Cache.
Context {K V : Type}.
Variable sameKey : K -> K -> bool.
Variable isNull : K -> bool.
Variable maxEntries : num.

Record LruCacheEntry : Type := {
  value : V;
  lastAccess : Z
}.

(** A [Map<K, LruCacheEntry<V>>] in insertion order. *)
Definition entries : Type := list (K * LruCacheEntry).

Fixpoint mapGet (key : K) (m : entries) : option LruCacheEntry :=
  match m with
  | [] => None
  | (k, e) :: m' => if sameKey key k then Some e else mapGet key m'
  end.

(** [Map.set] keeps the position of a key that is present. *)
Fixpoint mapSet (key : K) (e : LruCacheEntry) (m : entries) : entries :=
  match m with
  | [] => [(key, e)]
  | (k, e') :: m' =>
      if sameKey key k then (key, e) :: m' else (k, e') :: mapSet key e m'
  end.

Fixpoint mapDelete (key : K) (m : entries) : entries :=
  match m with
  | [] => []
  | (k, e) :: m' => if sameKey key k then m' else (k, e) :: mapDelete key m'
  end.

Definition mapHas (key : K) (m : entries) : bool :=
  match mapGet key m with Some _ => true | None => false end.

Record state : Type := {
  cache : entries;
  evicted : list (K * V)
}.

Definition empty : state := {| cache := []; evicted := [] |}.

(** The scan of [evictOne], from [(oldestKey, oldestAccess)]. *)
Fixpoint scan (m : entries) (oldestKey : option K) (oldestAccess : num)
  : option K :=
  match m with
  | [] => oldestKey
  | (k, e) :: m' =>
      if ltb_num (lastAccess e) oldestAccess
      then scan m' (Some k) (Fin (lastAccess e))
      else scan m' oldestKey oldestAccess
  end.

Definition delete_ (key : K) (st : state) : bool * state :=
  match mapGet key (cache st) with
  | None => (false, st)
  | Some entry =>
      (true, {| cache := mapDelete key (cache st);
                evicted := evicted st ++ [(key, value entry)] |})
  end.

(** [if (oldestKey !== null) delete_(oldestKey)] *)
Definition evictOne (st : state) : state :=
  match scan (cache st) None Infinity with
  | Some k => if isNull k then st else snd (delete_ k st)
  | None => st
  end.

Definition get (key : K) (now : Z) (st : state) : option V * state :=
  match mapGet key (cache st) with
  | None => (None, st)
  | Some entry =>
      (Some (value entry),
       {| cache := mapSet key {| value := value entry; lastAccess := now |}
                     (cache st);
          evicted := evicted st |})
  end.

Definition size (st : state) : nat := List.length (cache st).

Definition has (key : K) (st : state) : bool := mapHas key (cache st).

Definition set (key : K) (v : V) (now : Z) (st : state) : state :=
  let st1 :=
    if (geb_num (Z.of_nat (size st)) maxEntries && negb (has key st))%bool
    then evictOne st else st in
  {| cache := mapSet key {| value := v; lastAccess := now |} (cache st1);
     evicted := evicted st1 |}.

Definition delete (key : K) (st : state) : bool * state := delete_ key st.

Definition clear (st : state) : state :=
  {| cache := [];
     evicted := evicted st ++ map (fun p => (fst p, value (snd p))) (cache st) |}.

(** The calls a client can make. *)
Inductive op : Type :=
| OpSet (key : K) (v : V) (now : Z)
| OpGet (key : K) (now : Z)
| OpDelete (key : K)
| OpClear.

Definition step (o : op) (st : state) : state :=
  match o with
  | OpSet key v now => set key v now st
  | OpGet key now => snd (get key now st)
  | OpDelete key => snd (delete key st)
  | OpClear => clear st
  end.

Definition run (ops : list op) (st : state) : state :=
  fold_left (fun s o => step o s) ops st.

(** No [set] of the sequence uses the key [null]. *)
Definition nullFree (ops : list op) : bool :=
  forallb (fun o => match o with
                    | OpSet key _ _ => negb (isNull key)
                    | _ => true
                    end) ops.

End Cache.
Arguments LruCacheEntry : clear implicits.
Arguments entries : clear implicits.
Arguments state : clear implicits.
Arguments op : clear implicits.

(** Keys that are strings or [null]. *)
Definition sameKeyS (a b : option string) : bool :=
  match a, b with
  | Some x, Some y => String.eqb x y
  | None, None => true
  | _, _ => false
  end.

Definition isNullS (a : option string) : bool :=
  match a with
  | None => true
  | Some _ => false
  end.

End LruCache.

(* ================================================================== *)
(** * Properties *)
(* ================================================================== *)

(** ** Facts about [JsMap] *)

Module JsMapFacts.
Section Facts.
Context {V : Type}.
Implicit Types (m : JsMap.t V) (k : string) (v : V).

Lemma get_delete_same k m : JsMap.get k (JsMap.delete k m) = None.
Proof.
  induction m as [|[k' v'] m IH]; simpl; auto.
  destruct (String.eqb k k') eqn:E; simpl; auto.
  now rewrite E.
Qed.

Lemma get_delete_none k k' m :
  JsMap.get k m = None -> JsMap.get k (JsMap.delete k' m) = None.
Proof.
  induction m as [|[k0 v0] m IH]; simpl; auto.
  destruct (String.eqb k k0) eqn:E; [discriminate|].
  intros H. destruct (String.eqb k' k0); simpl; auto.
  now rewrite E; auto.
Qed.

Lemma get_set_none k k' v m :
  JsMap.get k m = None -> JsMap.get k' m <> None ->
  JsMap.get k (JsMap.set k' v m) = None.
Proof.
  induction m as [|[k0 v0] m IH]; simpl; [congruence|].
  destruct (String.eqb k k0) eqn:E; [discriminate|].
  intros H H'. destruct (String.eqb k' k0) eqn:E'; simpl; rewrite E; auto.
Qed.

Lemma in_keys_get k m : In k (JsMap.keys m) -> JsMap.get k m <> None.
Proof.
  induction m as [|[k0 v0] m IH]; simpl; [tauto|].
  destruct (String.eqb_spec k k0) as [->|]; [congruence|].
  intros [->|H]; [congruence|auto].
Qed.

Lemma get_none_keys k m : JsMap.get k m = None -> ~ In k (JsMap.keys m).
Proof. intros H Hin. now apply in_keys_get in Hin. Qed.

Lemma size_delete_le k m : (JsMap.size (JsMap.delete k m) <= JsMap.size m)%nat.
Proof. apply filter_length_le. Qed.

Lemma size_delete_lt k m :
  JsMap.get k m <> None -> (JsMap.size (JsMap.delete k m) < JsMap.size m)%nat.
Proof.
  unfold JsMap.size, JsMap.delete.
  induction m as [|[k0 v0] m IH]; simpl; [congruence|].
  destruct (String.eqb k k0) eqn:E; simpl; intros H.
  - pose proof (filter_length_le (fun p => negb (String.eqb k (fst p))) m). lia.
  - apply IH in H. lia.
Qed.

Lemma size_set k v m :
  JsMap.size (JsMap.set k v m)
  = match JsMap.get k m with
    | Some _ => JsMap.size m
    | None => S (JsMap.size m)
    end.
Proof.
  unfold JsMap.size.
  induction m as [|[k0 v0] m IH]; simpl; auto.
  destruct (String.eqb k k0); simpl; auto.
  rewrite IH. now destruct (JsMap.get k m).
Qed.

Lemma keys_delete k m :
  JsMap.keys (JsMap.delete k m)
  = filter (fun k' => negb (String.eqb k k')) (JsMap.keys m).
Proof.
  unfold JsMap.keys, JsMap.delete.
  induction m as [|[k0 v0] m IH]; simpl; auto.
  destruct (String.eqb k k0); simpl; now rewrite IH.
Qed.

Lemma keys_set k v m :
  JsMap.keys (JsMap.set k v m)
  = match JsMap.get k m with
    | Some _ => JsMap.keys m
    | None => JsMap.keys m ++ [k]
    end.
Proof.
  unfold JsMap.keys.
  induction m as [|[k0 v0] m IH]; simpl; auto.
  destruct (String.eqb k k0); simpl; auto.
  rewrite IH. now destruct (JsMap.get k m).
Qed.

Lemma in_keys_delete k k' m :
  In k (JsMap.keys (JsMap.delete k' m)) -> In k (JsMap.keys m).
Proof. rewrite keys_delete, filter_In. tauto. Qed.

Lemma get_delete_other k k' m :
  k <> k' -> JsMap.get k (JsMap.delete k' m) = JsMap.get k m.
Proof.
  intros Hne. induction m as [|[k0 v0] m IH]; simpl; auto.
  destruct (String.eqb_spec k' k0) as [->|]; simpl.
  - destruct (String.eqb_spec k k0); [contradiction|auto].
  - now rewrite IH.
Qed.

Lemma get_delete_cases k k' m :
  JsMap.get k (JsMap.delete k' m) = None
  \/ JsMap.get k (JsMap.delete k' m) = JsMap.get k m.
Proof.
  destruct (String.eqb_spec k k') as [->|Hne].
  - left. apply get_delete_same.
  - right. now apply get_delete_other.
Qed.

Lemma distinct_delete k m :
  NoDup (JsMap.keys m) -> NoDup (JsMap.keys (JsMap.delete k m)).
Proof. rewrite keys_delete. apply NoDup_filter. Qed.

Lemma distinct_set k v m :
  NoDup (JsMap.keys m) -> NoDup (JsMap.keys (JsMap.set k v m)).
Proof.
  intros H. rewrite keys_set. destruct (JsMap.get k m) eqn:E; auto.
  apply NoDup_app; auto.
  - repeat constructor. simpl. tauto.
  - intros x Hx [<-|[]]. now apply get_none_keys in E.
Qed.

Lemma delete_absent k m : ~ In k (JsMap.keys m) -> JsMap.delete k m = m.
Proof.
  unfold JsMap.delete. induction m as [|[k0 v0] m IH]; simpl; auto.
  intros H. destruct (String.eqb_spec k k0) as [->|]; simpl.
  - tauto.
  - f_equal. apply IH. tauto.
Qed.

End Facts.
End JsMapFacts.

(** ** Lookup after update in a [Map] *)

Module JsMapLaws.
Section Laws.
Context {V : Type}.
Implicit Types (m : JsMap.t V) (k : string) (v : V).

Lemma get_set_same k v m : JsMap.get k (JsMap.set k v m) = Some v.
Proof.
  induction m as [|[k0 v0] m IH]; simpl.
  - now rewrite String.eqb_refl.
  - destruct (String.eqb k k0) eqn:Hk; simpl; now rewrite Hk.
Qed.

Lemma get_set_other k k' v m :
  k <> k' -> JsMap.get k (JsMap.set k' v m) = JsMap.get k m.
Proof.
  intros Hne. induction m as [|[k0 v0] m IH]; simpl.
  - destruct (String.eqb_spec k k'); [contradiction|reflexivity].
  - destruct (String.eqb_spec k' k0) as [->|]; simpl.
    + destruct (String.eqb_spec k k0); [contradiction|reflexivity].
    + now rewrite IH.
Qed.

Lemma get_some_in k m v : JsMap.get k m = Some v -> In (k, v) m.
Proof.
  induction m as [|[k0 v0] m IH]; simpl; [discriminate|].
  destruct (String.eqb_spec k k0) as [->|]; intros H.
  - injection H as ->. now left.
  - right; auto.
Qed.


Lemma in_set_other k v m (p : string * V) :
  In p (JsMap.set k v m) -> fst p <> k -> In p m.
Proof.
  induction m as [|[k0 v0] m IH]; simpl.
  - intros [<-|[]] H. now elim H.
  - destruct (String.eqb_spec k k0) as [->|]; simpl.
    + intros [<-|H] Hne; [now elim Hne|now right].
    + intros [<-|H] Hne; [now left|right; auto].
Qed.

End Laws.
End JsMapLaws.

(** ** Facts about the LRU cache *)

Module LruFacts.
Import Lru JsMapFacts.
Local Open Scope Z_scope.

Section Facts.
Context {T : Type}.
Variable opts : CacheOpts T.
Implicit Types (st : state T) (k key : string).

(** *** Shape of the helpers *)

Lemma delete__cache key st :
  cache (snd (delete_ opts key st))
  = match JsMap.get key (cache st) with
    | Some _ => JsMap.delete key (cache st)
    | None => cache st
    end.
Proof. unfold delete_. now destruct (JsMap.get key (cache st)). Qed.

Lemma delete__size_le key st :
  (size (snd (delete_ opts key st)) <= size st)%nat.
Proof.
  unfold size. rewrite delete__cache.
  destruct (JsMap.get key (cache st)); [apply size_delete_le|lia].
Qed.

Lemma delete__get_none k key st :
  JsMap.get k (cache st) = None ->
  JsMap.get k (cache (snd (delete_ opts key st))) = None.
Proof.
  intros H. rewrite delete__cache.
  destruct (JsMap.get key (cache st)); auto using get_delete_none.
Qed.

Lemma delete__keys k key st :
  In k (JsMap.keys (cache (snd (delete_ opts key st)))) ->
  In k (JsMap.keys (cache st)).
Proof.
  rewrite delete__cache.
  destruct (JsMap.get key (cache st)); eauto using in_keys_delete.
Qed.

(** A sweep only deletes. *)
Lemma sweep_shrinks now (l : JsMap.t (CacheEntry T)) st :
  let st' :=
    fold_left
      (fun s p => if expired opts now (snd p)
                  then snd (delete_ opts (fst p) s) else s) l st in
  (size st' <= size st)%nat
  /\ (forall k, In k (JsMap.keys (cache st')) -> In k (JsMap.keys (cache st))).
Proof.
  revert st. induction l as [|p l IH]; intros st; simpl; [split; auto|].
  destruct (expired opts now (snd p)); [|apply IH].
  destruct (IH (snd (delete_ opts (fst p) st))) as [Hs Hk].
  split.
  - pose proof (delete__size_le (fst p) st). simpl in *. lia.
  - intros k Hin. eapply delete__keys, Hk, Hin.
Qed.

Lemma evictExpired_size now st :
  (size (evictExpired opts now st) <= size st)%nat.
Proof. apply (sweep_shrinks now (cache st) st). Qed.

Lemma evictExpired_keys now st k :
  In k (JsMap.keys (cache (evictExpired opts now st))) ->
  In k (JsMap.keys (cache st)).
Proof. apply (sweep_shrinks now (cache st) st). Qed.

(** The LRU scan names a key of the map as soon as the map has one. *)
Lemma oldest_scan (m : JsMap.t (CacheEntry T)) acc :
  match fst acc with Some k0 => True | None => snd acc = Infinity end ->
  let r :=
    fold_left
      (fun acc p =>
         if ltb_num (lastAccess (snd p)) (snd acc)
         then (Some (fst p), Fin (lastAccess (snd p))) else acc) m acc in
  match fst r with
  | Some k => In k (JsMap.keys m) \/ fst acc = Some k
  | None => m = [] /\ fst acc = None
  end.
Proof.
  revert acc. induction m as [|p m IH]; intros acc Hacc; simpl.
  - destruct (fst acc); auto.
  - set (acc' := if ltb_num (lastAccess (snd p)) (snd acc)
                 then (Some (fst p), Fin (lastAccess (snd p))) else acc).
    assert (Hacc' : match fst acc' with
                    | Some _ => True | None => snd acc' = Infinity end).
    { subst acc'. destruct (ltb_num _ _); simpl; auto. }
    assert (Hsome : fst acc' <> None).
    { subst acc'. destruct (fst acc) eqn:E.
      - destruct (ltb_num _ _); simpl; congruence.
      - rewrite Hacc. simpl. discriminate. }
    specialize (IH acc' Hacc'). simpl in IH.
    destruct (fst (fold_left _ m acc')) as [k|].
    + destruct IH as [IH|IH]; [left; now right|].
      subst acc'. destruct (ltb_num _ _); simpl in IH.
      * injection IH as <-. left. now left.
      * now right.
    + destruct IH as [_ IH]. contradiction.
Qed.

Lemma oldest_in (m : JsMap.t (CacheEntry T)) :
  match fst (oldest m) with
  | Some k => In k (JsMap.keys m)
  | None => m = []
  end.
Proof.
  pose proof (oldest_scan m (None, Infinity) eq_refl) as H. simpl in H.
  unfold oldest. destruct (fst (fold_left _ m (None, Infinity))).
  - destruct H as [H|H]; [auto|discriminate].
  - tauto.
Qed.

Lemma evictOne_size_le st : (size (evictOne opts st) <= size st)%nat.
Proof.
  unfold evictOne. destruct (fst (oldest (cache st))); [|lia].
  destruct (truthy_string s); [apply delete__size_le|lia].
Qed.

Lemma evictOne_keys st k :
  In k (JsMap.keys (cache (evictOne opts st))) -> In k (JsMap.keys (cache st)).
Proof.
  unfold evictOne. destruct (fst (oldest (cache st))); auto.
  destruct (truthy_string s); auto. apply delete__keys.
Qed.

(** With truthy keys only, [evictOne] removes an entry of a non-empty
    cache. *)
Lemma evictOne_size_lt st :
  (forall k, In k (JsMap.keys (cache st)) -> truthy_string k = true) ->
  size st <> 0%nat ->
  (size (evictOne opts st) < size st)%nat.
Proof.
  intros Hkeys Hne. unfold evictOne.
  pose proof (oldest_in (cache st)) as Hin.
  destruct (fst (oldest (cache st))) as [k|].
  - rewrite (Hkeys k Hin). unfold size. rewrite delete__cache.
    pose proof (in_keys_get _ _ Hin) as Hget.
    destruct (JsMap.get k (cache st)); [|congruence].
    apply size_delete_lt. now apply in_keys_get.
  - unfold size, JsMap.size in Hne. rewrite Hin in Hne. now simpl in Hne.
Qed.

(** *** The eviction loop *)

(** When the loop returns, the cache is empty or within its limits. *)
Lemma evictLoop_exit fuel entrySize st st' :
  evictLoop opts fuel entrySize st = Some st' ->
  size st' = 0%nat \/ overBudget opts entrySize st' = false.
Proof.
  revert st. induction fuel as [|fuel IH]; intros st; simpl;
    destruct (overBudget opts entrySize st) eqn:Hob;
    try (intros [= <-]; now right);
    destruct (Nat.eqb_spec (JsMap.size (cache st)) 0);
    try (intros [= <-]; now left); try discriminate.
  apply IH.
Qed.

Lemma evictLoop_keys fuel entrySize st st' k :
  evictLoop opts fuel entrySize st = Some st' ->
  In k (JsMap.keys (cache st')) -> In k (JsMap.keys (cache st)).
Proof.
  revert st. induction fuel as [|fuel IH]; intros st; simpl;
    destruct (overBudget opts entrySize st);
    try (intros [= <-]; auto);
    destruct (JsMap.size (cache st) =? 0)%nat;
    try (intros [= <-]; auto); try discriminate.
  intros H Hin. eapply evictOne_keys, IH; eauto.
Qed.

(** With truthy keys only, the loop returns within [size st]
    iterations. *)
Lemma evictLoop_returns fuel entrySize st :
  (forall k, In k (JsMap.keys (cache st)) -> truthy_string k = true) ->
  (size st <= fuel)%nat ->
  exists st', evictLoop opts fuel entrySize st = Some st'.
Proof.
  revert st. induction fuel as [|fuel IH]; intros st Hkeys Hfuel; simpl.
  - destruct (overBudget opts entrySize st); [|eauto].
    replace (JsMap.size (cache st)) with 0%nat by (unfold size in Hfuel; lia).
    simpl. eauto.
  - destruct (overBudget opts entrySize st); [|eauto].
    destruct (Nat.eqb_spec (JsMap.size (cache st)) 0); [eauto|].
    apply IH.
    + intros k Hin. apply Hkeys. now apply evictOne_keys.
    + pose proof (evictOne_size_lt st Hkeys). unfold size in *. lia.
Qed.

(** A state on which [evictOne] has no effect keeps the loop spinning:
    no amount of fuel makes it return. *)
Lemma evictLoop_spins fuel entrySize st :
  overBudget opts entrySize st = true ->
  size st <> 0%nat ->
  evictOne opts st = st ->
  evictLoop opts fuel entrySize st = None.
Proof.
  intros Hob Hne Hfix. induction fuel as [|fuel IH]; simpl; rewrite Hob;
    destruct (Nat.eqb_spec (JsMap.size (cache st)) 0); try contradiction; auto.
  now rewrite Hfix.
Qed.

(** *** [set] and the entry limit *)

Lemma set_size_bound (N : Z) fuel key v ts ti st st' :
  0 < N -> maxEntries opts = Fin N ->
  set opts fuel key v ts ti st = Some st' ->
  Z.of_nat (size st') <= N.
Proof.
  intros HN Hmax. unfold set, evictToMakeRoomFor.
  set (st1 := match JsMap.get key (cache st) with
              | Some existing => _ | None => st end).
  destruct (evictLoop opts fuel (sizeOf opts v) (evictExpired opts ts st1))
    as [st2|] eqn:Hloop; [|discriminate].
  intros [= <-]. unfold size; simpl. rewrite size_set.
  apply evictLoop_exit in Hloop. unfold size in Hloop.
  destruct Hloop as [H0|Hob].
  - destruct (JsMap.get key (cache st2)); lia.
  - unfold overBudget in Hob. apply orb_false_iff in Hob as [Hob _].
    rewrite Hmax in Hob. simpl in Hob. apply Z.leb_gt in Hob.
    destruct (JsMap.get key (cache st2)); lia.
Qed.

Lemma set_returns (N : Z) key v ts ti st :
  0 < N -> maxEntries opts = Fin N ->
  truthy_string key = true ->
  (forall k, In k (JsMap.keys (cache st)) -> truthy_string k = true) ->
  Z.of_nat (size st) <= N ->
  exists st',
    set opts (Z.to_nat N) key v ts ti st = Some st'
    /\ (forall k, In k (JsMap.keys (cache st')) -> truthy_string k = true).
Proof.
  intros HN Hmax Hkey Hkeys Hsize. unfold set, evictToMakeRoomFor.
  set (st1 := match JsMap.get key (cache st) with
              | Some existing => _ | None => st end).
  assert (Hc : cache st1 = cache st).
  { subst st1. now destruct (JsMap.get key (cache st)). }
  destruct (@evictLoop_returns (Z.to_nat N) (sizeOf opts v)
              (evictExpired opts ts st1)) as [st2 Hloop].
  - intros k Hin. apply Hkeys. rewrite <- Hc. eapply evictExpired_keys, Hin.
  - pose proof (evictExpired_size ts st1) as Hle. unfold size in *.
    rewrite Hc in Hle. lia.
  - rewrite Hloop. eexists; split; [reflexivity|]. simpl.
    intros k. rewrite keys_set.
    assert (Hold : In k (JsMap.keys (cache st2)) -> truthy_string k = true).
    { intros Hin. apply Hkeys. rewrite <- Hc.
      eapply evictExpired_keys, evictLoop_keys; eauto. }
    destruct (JsMap.get key (cache st2)); auto.
    rewrite in_app_iff. simpl. intros [Hin|[<-|[]]]; auto.
Qed.

Lemma run_snoc fuel (ops : list (op T)) o st st' :
  run opts fuel (ops ++ [o]) st = Some st' ->
  exists mid, run opts fuel ops st = Some mid /\ step opts fuel o mid = Some st'.
Proof.
  revert st. induction ops as [|o' ops IH]; intros st; simpl.
  - destruct (step opts fuel o st) eqn:E; [|discriminate].
    intros [= <-]. eauto.
  - destruct (step opts fuel o' st); [apply IH|discriminate].
Qed.

(** C8. On a cache configured with [maxEntries = N], [N] a positive
    integer, the cache holds at most [N] entries after every [set] call
    of every sequence of [set] calls that returns; and every such call
    does return (the eviction loop needs at most [N] iterations) when
    no key is the empty string. *)
Theorem maxEntries_respected (N : Z) (calls : list (op T)) :
  0 < N -> maxEntries opts = Fin N ->
  forallb isSet calls = true ->
  (forall fuel st,
      run opts fuel calls empty = Some st -> Z.of_nat (size st) <= N)
  /\ (forallb truthyKey calls = true ->
      exists st, run opts (Z.to_nat N) calls empty = Some st).
Proof.
  intros HN Hmax Hsets. split.
  - intros fuel st. destruct calls as [|c cs].
    + simpl. intros [= <-]. simpl. lia.
    + destruct (@exists_last _ (c :: cs)) as (ops & o & Heq); [discriminate|].
      rewrite Heq in *. intros Hrun.
      apply run_snoc in Hrun as (mid & _ & Hstep).
      rewrite forallb_app in Hsets. apply andb_true_iff in Hsets as [_ Ho].
      simpl in Ho. destruct o; try discriminate.
      eapply set_size_bound; eauto.
  - intros Hkeys.
    assert (Hgen : forall st0,
               (forall k, In k (JsMap.keys (cache st0)) -> truthy_string k = true) ->
               Z.of_nat (size st0) <= N ->
               exists st, run opts (Z.to_nat N) calls st0 = Some st).
    { induction calls as [|o ops IH]; intros st0 Hk Hs; simpl; [eauto|].
      simpl in Hsets, Hkeys.
      apply andb_true_iff in Hsets as [Ho Hsets].
      apply andb_true_iff in Hkeys as [Hko Hkeys].
      destruct o; try discriminate. simpl in Hko |- *.
      destruct (@set_returns N key v nowSweep nowInsert st0 HN Hmax Hko Hk Hs)
        as (st1 & Hset & Hk1).
      rewrite Hset. apply IH; auto.
      eapply set_size_bound; eauto. }
    apply Hgen; simpl; [tauto|lia].
Qed.

(** *** The running byte total *)

Lemma weight_delete k (m : JsMap.t (CacheEntry T)) e :
  NoDup (JsMap.keys m) -> JsMap.get k m = Some e ->
  weight opts (JsMap.delete k m) = weight opts m - sizeOf opts (value e).
Proof.
  induction m as [|[k0 e0] m IH]; simpl; [discriminate|].
  intros Hnd. inversion Hnd as [|? ? Hnotin Hnd']; subst.
  destruct (String.eqb_spec k k0) as [->|Hne]; simpl.
  - intros [= ->]. fold (JsMap.delete k0 m). rewrite delete_absent by assumption. lia.
  - intros Hget. fold (JsMap.delete k m). rewrite (IH Hnd' Hget). lia.
Qed.

Lemma weight_set k (e' : CacheEntry T) m :
  weight opts (JsMap.set k e' m)
  = weight opts m
    - match JsMap.get k m with
      | Some e => sizeOf opts (value e)
      | None => 0
      end
    + sizeOf opts (value e').
Proof.
  induction m as [|[k0 e0] m IH]; simpl; [lia|].
  destruct (String.eqb k k0); simpl; [lia|]. rewrite IH. lia.
Qed.

Lemma evicts_refl st : evicts opts st st.
Proof. intros H. repeat split; auto. Qed.

Lemma evicts_trans st1 st2 st3 :
  evicts opts st1 st2 -> evicts opts st2 st3 -> evicts opts st1 st3.
Proof.
  intros H12 H23 Hd. destruct (H12 Hd) as (Hd2 & Hdr2 & Hk2).
  destruct (H23 Hd2) as (Hd3 & Hdr3 & Hk3).
  split; [exact Hd3|]. split; [congruence|].
  intros k. destruct (Hk3 k) as [H|H]; [now left|].
  destruct (Hk2 k) as [H'|H']; [left|right]; congruence.
Qed.

Lemma delete__evicts key st : evicts opts st (snd (delete_ opts key st)).
Proof.
  intros Hd. unfold delete_.
  destruct (JsMap.get key (cache st)) as [e|] eqn:E; [|now apply evicts_refl].
  unfold distinctKeys, drift, liveBytes in *. simpl.
  split; [now apply distinct_delete|]. split.
  - rewrite (@weight_delete key (cache st) e Hd E). lia.
  - intros k. apply get_delete_cases.
Qed.

Lemma sweep_evicts now (l : JsMap.t (CacheEntry T)) st :
  evicts opts st
    (fold_left
       (fun s p => if expired opts now (snd p)
                   then snd (delete_ opts (fst p) s) else s) l st).
Proof.
  revert st. induction l as [|p l IH]; intros st; simpl; [apply evicts_refl|].
  destruct (expired opts now (snd p)); [|apply IH].
  eapply evicts_trans; [apply delete__evicts|apply IH].
Qed.

Lemma evictOne_evicts st : evicts opts st (evictOne opts st).
Proof.
  unfold evictOne. destruct (fst (oldest (cache st))); [|apply evicts_refl].
  destruct (truthy_string s); [apply delete__evicts|apply evicts_refl].
Qed.

Lemma evictLoop_evicts fuel entrySize st st' :
  evictLoop opts fuel entrySize st = Some st' -> evicts opts st st'.
Proof.
  revert st. induction fuel as [|fuel IH]; intros st; simpl;
    destruct (overBudget opts entrySize st);
    try (intros [= <-]; apply evicts_refl);
    destruct (JsMap.size (cache st) =? 0)%nat;
    try (intros [= <-]; apply evicts_refl); try discriminate.
  intros H. eapply evicts_trans; [apply evictOne_evicts|now apply IH].
Qed.

(** [set] on a key that is absent keeps the drift; on a key that is
    present it keeps the drift when the old entry survives the eviction
    pass, and lowers it by the size of the old entry when that entry is
    evicted. *)
Lemma set_drift fuel key v ts ti st st' :
  distinctKeys st ->
  set opts fuel key v ts ti st = Some st' ->
  distinctKeys st'
  /\ match JsMap.get key (cache st) with
     | None => drift opts st' = drift opts st
     | Some old =>
         drift opts st' = drift opts st
         \/ drift opts st' = drift opts st - sizeOf opts (value old)
     end.
Proof.
  intros Hd. unfold set, evictToMakeRoomFor.
  set (st1 := match JsMap.get key (cache st) with
              | Some existing => _ | None => st end).
  destruct (evictLoop opts fuel (sizeOf opts v) (evictExpired opts ts st1))
    as [st2|] eqn:Hloop; [|discriminate].
  intros [= <-].
  assert (Hc : cache st1 = cache st).
  { subst st1. now destruct (JsMap.get key (cache st)). }
  assert (Hev : evicts opts st1 st2).
  { eapply evicts_trans; [apply (@sweep_evicts ts (cache st1) st1)|].
    eapply evictLoop_evicts, Hloop. }
  destruct Hev as (Hd2 & Hdr & Hk).
  { unfold distinctKeys. now rewrite Hc. }
  split.
  - unfold distinctKeys in *. simpl. now apply distinct_set.
  - specialize (Hk key). rewrite Hc in Hk.
    unfold drift, liveBytes in *. simpl. rewrite weight_set. simpl.
    rewrite Hc in Hdr.
    destruct (JsMap.get key (cache st)) as [old|] eqn:E; subst st1; simpl in *.
    + destruct Hk as [-> | ->]; [right|left]; lia.
    + destruct Hk as [-> | ->]; lia.
Qed.

(** Every call other than an overwriting [set] keeps the running total
    equal to the live sum. *)
Lemma step_in_sync fuel (o : op T) st st' :
  distinctKeys st -> drift opts st = 0 ->
  match o with
  | OpSet k _ _ _ => JsMap.get k (cache st) = None
  | _ => True
  end ->
  step opts fuel o st = Some st' ->
  distinctKeys st' /\ drift opts st' = 0.
Proof.
  intros Hd Hz Hfresh. destruct o; simpl.
  - intros Hset. destruct (@set_drift _ _ _ _ _ _ _ Hd Hset) as [Hd' Hdr].
    rewrite Hfresh in Hdr. split; [exact Hd'|lia].
  - intros [= <-]. unfold get.
    destruct (JsMap.get key (cache st)) as [e|] eqn:E; [|auto].
    destruct (expired opts now e); simpl.
    + destruct (@delete__evicts key st Hd) as (? & ? & _). split; [auto|lia].
    + unfold distinctKeys, drift, liveBytes in *. simpl. split.
      * now apply distinct_set.
      * rewrite weight_set, E. simpl. lia.
  - intros [= <-]. unfold has.
    destruct (JsMap.get key (cache st)) as [e|] eqn:E; [|auto].
    destruct (expired opts now e); simpl; [|auto].
    destruct (@delete__evicts key st Hd) as (? & ? & _). split; [auto|lia].
  - intros [= <-]. auto.
  - intros [= <-]. destruct (@delete__evicts key st Hd) as (? & ? & _).
    split; [auto|]. unfold delete. lia.
  - intros [= <-]. split; [constructor|reflexivity].
Qed.

(** On every run in which no [set] hits a present key, [byteSize] is the
    exact sum of [sizeOf] over the live entries. *)
Lemma in_sync_without_overwrite fuel (ops : list (op T)) st :
  overwriteFree opts fuel ops (empty (T:=T)) = true ->
  run opts fuel ops empty = Some st ->
  byteSize st = liveBytes opts st.
Proof.
  assert (Hgen : forall st0,
             distinctKeys st0 -> drift opts st0 = 0 ->
             overwriteFree opts fuel ops st0 = true ->
             run opts fuel ops st0 = Some st ->
             drift opts st = 0).
  { induction ops as [|o ops IH]; intros st0 Hd Hz; simpl.
    - intros _ [= <-]. exact Hz.
    - intros Hfree. apply andb_true_iff in Hfree as [Ho Hfree].
      destruct (step opts fuel o st0) as [st1|] eqn:Hstep; [|discriminate].
      assert (Hside : match o with
                      | OpSet k _ _ _ => JsMap.get k (cache st0) = None
                      | _ => True
                      end).
      { destruct o; auto. now destruct (JsMap.get key (cache st0)). }
      destruct (@step_in_sync fuel o st0 st1 Hd Hz Hside Hstep) as [Hd1 Hz1].
      now apply IH. }
  intros Hfree Hrun.
  specialize (Hgen empty (NoDup_nil _) eq_refl Hfree Hrun).
  unfold drift, byteSize in *. lia.
Qed.

(** *** Expiry on [get] *)

Lemma step_keeps_absent fuel (o : op T) key st :
  isSet o = false ->
  JsMap.get key (cache st) = None ->
  exists st', step opts fuel o st = Some st'
              /\ JsMap.get key (cache st') = None.
Proof.
  intros Ho Habs. destruct o; try discriminate; simpl;
    eexists; (split; [reflexivity|]); auto.
  - unfold get. destruct (JsMap.get key0 (cache st)) eqn:E; auto.
    destruct (expired opts now c); simpl.
    + now apply delete__get_none.
    + apply get_set_none; congruence.
  - unfold has. destruct (JsMap.get key0 (cache st)); auto.
    destruct (expired opts now c); simpl; auto.
    now apply delete__get_none.
  - now apply delete__get_none.
Qed.

Lemma run_keeps_absent fuel (ops : list (op T)) key st :
  forallb (fun o => negb (isSet o)) ops = true ->
  JsMap.get key (cache st) = None ->
  exists st', run opts fuel ops st = Some st'
              /\ JsMap.get key (cache st') = None.
Proof.
  revert st. induction ops as [|o ops IH]; intros st Hops Habs; simpl; [eauto|].
  simpl in Hops. apply andb_true_iff in Hops as [Ho Hops].
  apply negb_true_iff in Ho.
  destruct (step_keeps_absent fuel o key st Ho Habs) as (st1 & -> & Habs1).
  now apply IH.
Qed.

(** C9. When the age [now - createdAt] of the entry stored under [key]
    exceeds the configured [ttl], [get(key)] reports the key absent,
    calls [onEvict(key, value)] and deletes the entry; [peek(key)] then
    reports absent too, and keeps doing so after any further calls
    other than [set]. *)
Theorem get_expired_evicts (ttl now : Z) key (entry : CacheEntry T) st :
  ttlMs opts = Fin ttl ->
  JsMap.get key (cache st) = Some entry ->
  now - createdAt entry > ttl ->
  let st' := snd (get opts key now st) in
  fst (get opts key now st) = None
  /\ evicted st' = evicted st ++ [(key, value entry)]
  /\ cache st' = JsMap.delete key (cache st)
  /\ peek key st' = None
  /\ forall fuel ops,
       forallb (fun o => negb (isSet o)) ops = true ->
       exists st'', run opts fuel ops st' = Some st'' /\ peek key st'' = None.
Proof.
  intros Httl Hget Hage. unfold get. rewrite Hget.
  assert (Hexp : expired opts now entry = true).
  { unfold expired. rewrite Httl. simpl. apply Z.ltb_lt. lia. }
  rewrite Hexp. cbn [fst snd]. unfold delete_. rewrite Hget. cbn [fst snd cache evicted].
  assert (Habs : JsMap.get key (JsMap.delete key (cache st)) = None)
    by apply get_delete_same.
  repeat split; auto.
  - unfold peek. simpl. now rewrite Habs.
  - intros fuel ops Hops.
    match goal with
    | |- exists st'', run _ _ _ ?s = _ /\ _ =>
        destruct (@run_keeps_absent fuel ops key s Hops Habs)
          as (st'' & Hrun & Habs'')
    end.
    exists st''. split; [exact Hrun|]. unfold peek. now rewrite Habs''.
Qed.

End Facts.

(** C2. The running byte total does not stay equal to the sum of
    [sizeOf] over the live entries: with [maxEntries = 1] and
    [sizeOf(v) = v], [set("a", 5)] followed by [set("a", 3)] subtracts the
    size of the old entry twice (once for the overwrite, once when the
    old entry is evicted to make room), so that [byteSize] is [-2] while
    the only live entry weighs [3]. *)
Theorem overwrite_breaks_byte_total :
  exists st : state Z,
    run oneSlot 1 [OpSet "a" 5 0 0; OpSet "a" 3 1 1]%string empty = Some st
    /\ JsMap.keys (cache st) = ["a"%string]
    /\ peek "a" st = Some 3
    /\ liveBytes oneSlot st = 3
    /\ byteSize st = -2.
Proof. eexists. repeat split. Qed.

(** The entry stored under the empty string is never chosen for
    eviction: once it fills a one-entry cache, the next [set] of another
    key does not return. *)
Lemma empty_key_never_returns fuel :
  run oneSlot fuel [OpSet "" 5 0 0; OpSet "b" 3 1 1]%string empty = None.
Proof.
  destruct fuel as [|fuel]; [reflexivity|].
  cbn [run step]. change (set oneSlot (S fuel) "" 5 0 0 empty)
    with (Some {| cache := [(""%string,
                             {| value := 5; lastAccess := 0; createdAt := 0 |})];
                  currentBytes := 5; evicted := [] |}).
  unfold set, evictToMakeRoomFor. cbn [JsMap.get String.eqb Ascii.eqb].
  rewrite evictLoop_spins; reflexivity || discriminate.
Qed.

Lemma maxEntries_respected_witness :
  (forall fuel st,
      run oneSlot fuel [OpSet "a" 5 0 0; OpSet "b" 3 1 1]%string empty = Some st ->
      Z.of_nat (size st) <= 1)
  /\ exists st,
      run oneSlot (Z.to_nat 1) [OpSet "a" 5 0 0; OpSet "b" 3 1 1]%string empty
      = Some st.
Proof.
  destruct (@maxEntries_respected Z oneSlot 1
              [OpSet "a" 5 0 0; OpSet "b" 3 1 1]%string)
    as [Hbound Hret]; [lia|reflexivity|reflexivity|].
  split; [exact Hbound|]. apply Hret. reflexivity.
Defined.

Lemma get_expired_evicts_witness :
  let opts := {| maxEntries := Infinity; ttlMs := Fin 10; maxBytes := Infinity;
                 sizeOf := fun v : Z => v |} in
  let st := {| cache := [("a"%string,
                          {| value := 5; lastAccess := 0; createdAt := 0 |})];
               currentBytes := 5; evicted := [] |} in
  fst (get opts "a" 11 st) = None
  /\ evicted (snd (get opts "a" 11 st)) = [("a"%string, 5)]
  /\ peek "a" (snd (get opts "a" 11 st)) = None.
Proof.
  intros opts st.
  destruct (@get_expired_evicts Z opts 10 11 "a"%string
              {| value := 5; lastAccess := 0; createdAt := 0 |} st)
    as (H1 & H2 & _ & H4 & _); [reflexivity|reflexivity|simpl; lia|].
  split; [exact H1|split; [exact H2|exact H4]].
Defined.

End LruFacts.

(** ** Facts about the queue *)

Module AsyncQueueFacts.
Import AsyncQueue.
Local Open Scope Z_scope.

Section Facts.
Context {T : Type}.
Variable truthy : T -> bool.
Variable stringify : T -> string.
Implicit Types (q : t T) (item : T).

(** *** What the private methods leave alone *)

Lemma dedupStore_frame item t2 t3 q :
  let q' := dedupStore item t2 t3 q in
  nodes q' = nodes q /\ size q' = size q /\ resolvers q' = resolvers q
  /\ resolved q' = resolved q /\ metrics q' = metrics q
  /\ maxSize q' = maxSize q /\ promises q' = promises q.
Proof.
  unfold dedupStore, cleanupCache.
  destruct (cache q), (cacheKeyFn q); simpl; repeat split.
Qed.

(** The tail of [push] appends the item and, when a consumer waits,
    also resolves the oldest waiter with it. *)
Lemma append_buffers_and_delivers item t2 t3 q r rs :
  resolvers q = r :: rs ->
  let q' := snd (append item t2 t3 q) in
  nodes q' = nodes q ++ [item]
  /\ size q' = size q + 1
  /\ resolvers q' = rs
  /\ resolved q' = resolved q ++ [(r, item)].
Proof.
  intros Hr. destruct (dedupStore_frame item t2 t3 q)
    as (Hn & Hs & Hrs & Hlog & _).
  unfold append, handOff, enqueueNode. cbn [snd]. simpl.
  rewrite Hrs, Hr. simpl. rewrite Hn, Hs, Hlog. repeat split.
Qed.

(** On a queue without deduplication and below its capacity, a push
    that finds a consumer waiting resolves the oldest waiter with the
    item and appends the item to the buffer as well. *)
Lemma push_delivers_and_buffers item t1 t2 t3 q r rs :
  cache q = None ->
  geb_num (size q) (maxSize q) = false ->
  resolvers q = r :: rs ->
  let q' := snd (push item t1 t2 t3 q) in
  fst (push item t1 t2 t3 q) = Returned true
  /\ nodes q' = nodes q ++ [item]
  /\ length q' = length q + 1
  /\ resolvers q' = rs
  /\ resolved q' = resolved q ++ [(r, item)].
Proof.
  intros Hc Hroom Hr. unfold push, dedupLookup. rewrite Hc, Hroom.
  destruct (@append_buffers_and_delivers item t2 t3 q r rs Hr) as (H1 & H2 & H3 & H4).
  unfold length. repeat split; assumption.
Qed.

(** *** The buffer and its counter *)

Lemma enqueueNode_sized item q : sized q -> sized (enqueueNode item q).
Proof.
  unfold sized, enqueueNode. simpl. intros ->.
  rewrite length_app. simpl. lia.
Qed.

Lemma dequeueNode_sized q : sized q -> sized (snd (dequeueNode q)).
Proof.
  unfold sized, dequeueNode. destruct (nodes q) eqn:E; simpl; [now rewrite E|].
  intros ->. lia.
Qed.

Lemma handOff_sized item q : sized q -> sized (handOff item q).
Proof. unfold sized, handOff. now destruct (resolvers q). Qed.

Lemma dedupStore_sized item t2 t3 q : sized q -> sized (dedupStore item t2 t3 q).
Proof.
  unfold sized. destruct (dedupStore_frame item t2 t3 q) as (-> & -> & _). auto.
Qed.

Lemma checkAndPush_sized item q : sized q -> sized (snd (checkAndPush item q)).
Proof.
  unfold checkAndPush. destruct (negb _); simpl; auto.
  intros H. now apply handOff_sized, enqueueNode_sized.
Qed.

Lemma push_sized item t1 t2 t3 q : sized q -> sized (snd (push item t1 t2 t3 q)).
Proof.
  intros H. unfold push.
  assert (Happ : forall q0, sized q0 -> sized (snd (append item t2 t3 q0))).
  { intros q0 H0. unfold append. simpl.
    now apply handOff_sized, enqueueNode_sized, dedupStore_sized. }
  assert (Hrest : forall q1, sized q1 ->
            sized (snd (if geb_num (size q1) (maxSize q1)
                        then match dropStrategy q1 with
                             | Oldest =>
                                 append item t2 t3
                                   (withMetrics
                                      (countDropped (metrics (snd (dequeueNode q1))))
                                      (snd (dequeueNode q1)))
                             | Newest =>
                                 (Returned false,
                                  withMetrics (countDropped (metrics q1)) q1)
                             | Block => pushWhenAvailable item q1
                             end
                        else append item t2 t3 q1))).
  { intros q1 H1. destruct (geb_num _ _); [|auto].
    destruct (dropStrategy q1).
    - apply Happ. apply (dequeueNode_sized H1).
    - exact H1.
    - unfold pushWhenAvailable.
      pose proof (checkAndPush_sized item H1) as Hc.
      now destruct (checkAndPush item q1). }
  destruct (dedupLookup item t1 q).
  - now apply Hrest.
  - now apply Hrest.
  - simpl. destruct (resolvers q) eqn:E; simpl.
    + now apply (enqueueNode_sized cached) in H.
    + apply handOff_sized. exact H.
Qed.

Lemma next_sized q : sized q -> sized (snd (next truthy q)).
Proof.
  intros H. unfold next. pose proof (dequeueNode_sized H) as Hd.
  destruct (dequeueNode q) as [[v|] q1]; simpl in *; auto.
  now destruct (truthy v).
Qed.

Lemma step_sized (o : op T) q : sized q -> sized (step truthy o q).
Proof.
  intros H. destruct o; simpl.
  - now apply push_sized.
  - now apply next_sized.
  - reflexivity.
  - exact H.
  - destruct (timers q) eqn:E; [exact H|].
    now apply (checkAndPush_sized t0 (q:=withTimers l q)).
Qed.

(** [length] is the number of buffered nodes in every reachable state. *)
Lemma run_sized (ops : list (op T)) options :
  sized (run truthy ops (new stringify options)).
Proof.
  unfold run. assert (H0 : sized (new stringify options)) by reflexivity.
  revert H0. generalize (new stringify options).
  induction ops as [|o ops IH]; intros q Hq; simpl; auto using step_sized.
Qed.

(** *** Deduplication is switched by [enableCache] *)

(** Case analysis on the innermost tests of the goal. *)
Ltac split_cases :=
  repeat match goal with
    | |- context [match ?x with _ => _ end] =>
        lazymatch x with
        | context [match _ with _ => _ end] => fail
        | _ => destruct x eqn:?; cbn in *
        end
    end.

(** A call of [push] counts exactly one hit or one miss when
    deduplication is on, and leaves the counters and the absent cache
    alone when it is off. *)
Lemma push_dedup item t1 t2 t3 q :
  let q' := snd (push item t1 t2 t3 q) in
  dedupOn q' = dedupOn q
  /\ (cache q = None -> cache q' = None)
  /\ if dedupOn q
     then dedupLookup item t1 q <> Disabled
          /\ cacheHits (metrics q') + cacheMisses (metrics q')
             = cacheHits (metrics q) + cacheMisses (metrics q) + 1
     else dedupLookup item t1 q = Disabled
          /\ cacheHits (metrics q') = cacheHits (metrics q)
          /\ cacheMisses (metrics q') = cacheMisses (metrics q).
Proof.
  unfold push, append, pushWhenAvailable, checkAndPush, dedupStore,
    cleanupCache, handOff, enqueueNode, dequeueNode, dedupLookup, dedupOn.
  simpl.
  destruct (cache q) as [c|] eqn:Hc; destruct (cacheKeyFn q) as [f|] eqn:Hf;
    cbn; split_cases;
    rewrite ?Hc, ?Hf; cbn; repeat split; try congruence; try lia.
Qed.

Lemma step_dedup (o : op T) q :
  let q' := step truthy o q in
  dedupOn q' = dedupOn q
  /\ (cache q = None -> cache q' = None)
  /\ (dedupOn q = false ->
      cacheHits (metrics q') = cacheHits (metrics q)
      /\ cacheMisses (metrics q') = cacheMisses (metrics q)).
Proof.
  destruct o; simpl.
  - destruct (push_dedup item nowHit nowStore nowSweep q) as (H1 & H2 & H3).
    split; [exact H1|split; [exact H2|]].
    intros Hoff. rewrite Hoff in H3. tauto.
  - unfold next, dequeueNode, dedupOn. split_cases; repeat split; auto.
  - unfold clear, dedupOn; simpl. repeat split; auto.
  - unfold clearCache, dedupOn; simpl.
    destruct (cache q); simpl; repeat split; auto; discriminate.
  - unfold checkAndPush, handOff, enqueueNode, dedupOn.
    split_cases; repeat split; auto.
Qed.






(** *** A cache hit skips the capacity check *)

Lemma push_hit item tHit tStore tSweep q keyFn c entry :
  cache q = Some c -> cacheKeyFn q = Some keyFn ->
  JsMap.get (keyFn item) c = Some entry -> tHit < expires entry ->
  push item tHit tStore tSweep q
  = (Returned true,
     match resolvers q with
     | _ :: _ => handOff (value entry) (withMetrics (countHit (metrics q)) q)
     | [] => enqueueNode (value entry) (withMetrics (countHit (metrics q)) q)
     end).
Proof.
  intros Hc Hf Hget Hlt. unfold push, dedupLookup.
  rewrite Hc, Hf, Hget. apply Z.ltb_lt in Hlt. rewrite Hlt. cbn.
  now destruct (resolvers q).
Qed.

(** With a waiting consumer the cached value goes to the oldest waiter
    and the buffer is untouched. *)
Lemma duplicate_push_hands_cached item tHit tStore tSweep q keyFn c entry r rs :
  cache q = Some c -> cacheKeyFn q = Some keyFn ->
  JsMap.get (keyFn item) c = Some entry -> tHit < expires entry ->
  resolvers q = r :: rs ->
  let q' := snd (push item tHit tStore tSweep q) in
  fst (push item tHit tStore tSweep q) = Returned true
  /\ nodes q' = nodes q
  /\ resolvers q' = rs
  /\ resolved q' = resolved q ++ [(r, value entry)].
Proof.
  intros Hc Hf Hget Hlt Hr. rewrite (push_hit item tStore tSweep q Hc Hf Hget Hlt).
  rewrite Hr. unfold handOff. cbn. rewrite Hr. cbn. repeat split.
Qed.

(** C4. A push whose key hits a non-expired dedup entry, with no
    consumer waiting, returns [true] and appends the cached value
    without evicting or dropping anything; on a queue that already
    holds [maxSize] items the buffered length then exceeds [maxSize]. *)
Theorem duplicate_push_bypasses_capacity
  item tHit tStore tSweep q keyFn c entry (m : Z) :
  cache q = Some c -> cacheKeyFn q = Some keyFn ->
  JsMap.get (keyFn item) c = Some entry -> tHit < expires entry ->
  resolvers q = [] ->
  maxSize q = Fin m -> m <= length q ->
  let q' := snd (push item tHit tStore tSweep q) in
  fst (push item tHit tStore tSweep q) = Returned true
  /\ nodes q' = nodes q ++ [value entry]
  /\ length q' = length q + 1
  /\ m < length q'
  /\ dropped (metrics q') = dropped (metrics q)
  /\ dequeued (metrics q') = dequeued (metrics q)
  /\ cacheHits (metrics q') = cacheHits (metrics q) + 1.
Proof.
  intros Hc Hf Hget Hlt Hr Hmax Hfull.
  rewrite (push_hit item tStore tSweep q Hc Hf Hget Hlt), Hr.
  unfold length in *. cbn. repeat split. lia.
Qed.

(** *** Coalescing on a constant key *)

(** Two pushes on a constant key, the second before the first entry
    expires, buffer the first value twice and count one hit; each of
    the next two [next()] calls takes one copy off the buffer, and
    returns it when the value is truthy. *)
Lemma constant_key_coalesces
  (k : string) strat ttlOpt (V1 V2 : T) (t0 t1 t1' t2 t3 t3' : Z) :
  let options :=
    Some {| opt_maxSize := None; opt_dropStrategy := strat;
            opt_enableCache := Some true;
            opt_cacheKeyFn := Some (fun _ => k); opt_cacheTTL := ttlOpt |} in
  let ttl := match ttlOpt with Some x => x | None => DEFAULT_CACHE_TTL end in
  t1' < t1 + ttl -> t2 < t1 + ttl ->
  let q1 := snd (push V1 t0 t1 t1' (new stringify options)) in
  let q2 := snd (push V2 t2 t3 t3' q1) in
  let q3 := snd (next truthy q2) in
  let q4 := snd (next truthy q3) in
  nodes q2 = [V1; V1]
  /\ cacheHits (metrics q2) = 1
  /\ fst (next truthy q2) = (if truthy V1 then Value V1 else Pending 0)
  /\ fst (next truthy q3) = (if truthy V1 then Value V1 else Pending 1)
  /\ nodes q4 = []
  /\ cacheHits (getMetrics q4) = 1.
Proof.
  intros options ttl Hsweep Hhit q1.
  assert (Hq1 : nodes q1 = [V1] /\ resolvers q1 = [] /\ promises q1 = 0%nat
                /\ metrics q1
                   = {| enqueued := 1; dequeued := 0; dropped := 0;
                        cacheHits := 0; cacheMisses := 1; currentSize := 1 |}
                /\ cache q1 = Some [(k, {| value := V1; expires := t1 + ttl |})]
                /\ cacheKeyFn q1 = Some (fun _ => k)).
  { subst q1 options. unfold push, dedupLookup. cbn.
    unfold append, dedupStore, cleanupCache. cbn.
    assert (E : (t1 + ttl <=? t1') = false) by (apply Z.leb_gt; lia).
    subst ttl. destruct ttlOpt; cbn in *; rewrite E; repeat split. }
  destruct Hq1 as (Hn & Hr & Hp & Hm & Hc & Hf). clearbody q1.
  intros q2.
  assert (Hq2 : q2 = enqueueNode V1 (withMetrics (countHit (metrics q1)) q1)).
  { subst q2.
    rewrite (@push_hit V2 t2 t3 t3' q1 (fun _ => k) _
               {| value := V1; expires := t1 + ttl |} Hc Hf).
    - now rewrite Hr.
    - cbn. now rewrite String.eqb_refl.
    - cbn. lia. }
  intros q3 q4. subst q3 q4. rewrite Hq2. clear Hq2 q2.
  unfold next, dequeueNode, enqueueNode, getMetrics. cbn.
  rewrite Hn, Hm. cbn.
  destruct (truthy V1) eqn:Ht; cbn; rewrite ?Ht; cbn; rewrite ?Hp; repeat split.
Qed.

(** *** Dropping the oldest item *)

(** C6. On a queue with [maxSize = 2], [dropStrategy = "oldest"] and no
    deduplication, pushing [A], [B], [C] returns [true] three times and
    leaves exactly [B] then [C] in the buffer, with [dropped = 1]. *)
Theorem oldest_drop_keeps_last_two
  (A B C : T) keyFn ttl (a1 a2 a3 b1 b2 b3 c1 c2 c3 : Z) :
  let options :=
    Some {| opt_maxSize := Some (Fin 2); opt_dropStrategy := Some Oldest;
            opt_enableCache := None;
            opt_cacheKeyFn := keyFn; opt_cacheTTL := ttl |} in
  let pA := push A a1 a2 a3 (new stringify options) in
  let pB := push B b1 b2 b3 (snd pA) in
  let pC := push C c1 c2 c3 (snd pB) in
  fst pA = Returned true /\ fst pB = Returned true /\ fst pC = Returned true
  /\ nodes (snd pC) = [B; C]
  /\ length (snd pC) = 2
  /\ dropped (getMetrics (snd pC)) = 1.
Proof. cbv. repeat split. Qed.

End Facts.

(** C1. The item of a push that finds a consumer waiting is resolved
    into that consumer's promise and is also left in the buffer: on a new
    queue, [next()] suspends as promise 0; [push(7)] then returns [true],
    calls the resolver of promise 0 with [7], and leaves [7] buffered
    with [length = 1], so that a second [next()] returns [7] again. *)
Theorem push_buffers_delivered_item :
  let q0 := newZ None in
  let q1 := snd (next truthyZ q0) in
  let q2 := snd (push 7 0 0 0 q1) in
  fst (next truthyZ q0) = Pending 0
  /\ pending q1 = 1%nat /\ length q1 = 0
  /\ fst (push 7 0 0 0 q1) = Returned true
  /\ resolved q2 = [(0%nat, 7)]
  /\ nodes q2 = [7]
  /\ length q2 = 1
  /\ fst (next truthyZ q2) = Value 7.
Proof. cbv. repeat split. Qed.


Lemma duplicate_push_bypasses_capacity_witness :
  let q := snd (push 1 0 0 0 (newZ (Some (constKey (Some (Fin 1)))))) in
  length q = 1
  /\ fst (push 2 1 1 1 q) = Returned true
  /\ nodes (snd (push 2 1 1 1 q)) = [1; 1]
  /\ 1 < length (snd (push 2 1 1 1 q)).
Proof.
  intros q.
  destruct (@duplicate_push_bypasses_capacity Z 2 1 1 1 q (fun _ => "k"%string)
              [("k"%string, {| value := 1; expires := 5000 |})]
              {| value := 1; expires := 5000 |} 1)
    as (H1 & H2 & _ & H4 & _);
    [reflexivity|reflexivity|reflexivity|reflexivity|reflexivity|reflexivity
    |cbv; discriminate|].
  split; [reflexivity|]. split; [exact H1|]. split; [exact H2|exact H4].
Defined.

(** C5. With a falsy first value the coalesced items are lost: on a
    queue of numbers deduplicating on a constant key, [push(0)] and then
    [push(5)] (a cache hit) buffer [0] twice; each of the two [next()]
    calls takes a [0] off the buffer, fails the test [if (item)] and
    suspends instead of returning it. *)
Theorem falsy_value_not_returned :
  let q1 := snd (push 0 0 0 0 (newZ (Some (constKey None)))) in
  let q2 := snd (push 5 1 1 1 q1) in
  let q3 := snd (next truthyZ q2) in
  let q4 := snd (next truthyZ q3) in
  nodes q2 = [0; 0]
  /\ cacheHits (getMetrics q2) = 1
  /\ fst (next truthyZ q2) = Pending 0
  /\ fst (next truthyZ q3) = Pending 1
  /\ nodes q4 = [] /\ pending q4 = 2%nat /\ resolved q4 = [].
Proof. cbv. repeat split. Qed.

End AsyncQueueFacts.

(** ** Facts about the worker pool *)

Module PoolFacts.
Import Pool.
Local Open Scope Z_scope.

(** *** Pools that never scale up *)

Lemma ceilDiv_zero b : ceilDiv 0 b = 0.
Proof. unfold ceilDiv. apply Z.div_small. lia. Qed.

Lemma ceilDiv_mono n n' b : (n <= n')%nat -> ceilDiv n b <= ceilDiv n' b.
Proof. intros H. unfold ceilDiv. apply Z.div_le_mono; lia. Qed.

Lemma ceilDiv_nonneg n b : 0 <= ceilDiv n b.
Proof. rewrite <- (ceilDiv_zero b). apply ceilDiv_mono. lia. Qed.

Lemma ceilDiv_pos n b : (1 <= n)%nat -> 1 <= ceilDiv n b.
Proof.
  intros H. unfold ceilDiv.
  apply Z.div_le_lower_bound; lia.
Qed.

Lemma replace_split {A} (l : list A) i y :
  nth_error l i = Some y ->
  exists l1 l2, l = l1 ++ y :: l2 /\ forall x, replace i x l = l1 ++ x :: l2.
Proof.
  revert i. induction l as [|a l IH]; intros [|i]; simpl; try discriminate.
  - intros [= ->]. now exists [], l.
  - intros H. destruct (IH i H) as (l1 & l2 & -> & Hx).
    exists (a :: l1), l2. split; [reflexivity|].
    intros x. simpl. now rewrite Hx.
Qed.

Lemma remove_split {A} (l : list A) i y :
  nth_error l i = Some y ->
  exists l1 l2, l = l1 ++ [y] ++ l2 /\ remove i l = l1 ++ l2.
Proof.
  revert i. induction l as [|a l IH]; intros [|i]; simpl; try discriminate.
  - intros [= ->]. now exists [], l.
  - intros H. destruct (IH i H) as (l1 & l2 & -> & ->).
    now exists (a :: l1), l2.
Qed.

Section Flat.
Context {T E : Type}.
Variable fn : T -> option E.
Variable isUndefined : T -> bool.
Variable stringify : outcome E -> string.
Variable concurrency : Concurrency.
Variable items : list T.
Variable options : option WorkOptions.

Local Abbreviation wstate := (state T E).
Local Abbreviation okCount := (okCount fn).
Local Abbreviation badCount := (badCount fn).
Local Abbreviation workerLoop := (workerLoop isUndefined concurrency options).
Local Abbreviation accounted := (accounted fn isUndefined concurrency items).
Local Abbreviation settledDown := (settledDown fn isUndefined concurrency items options).

Implicit Types (st : wstate) (ws : list (@worker T)) (l stack : list T).

Lemma okCount_app l1 l2 : okCount (l1 ++ l2) = okCount l1 + okCount l2.
Proof. unfold Pool.okCount. rewrite filter_app, length_app. lia. Qed.

Lemma badCount_app l1 l2 : badCount (l1 ++ l2) = badCount l1 + badCount l2.
Proof. unfold Pool.badCount. rewrite filter_app, length_app. lia. Qed.

Lemma running_app ws1 ws2 : running (ws1 ++ ws2) = running ws1 + running ws2.
Proof. unfold running. rewrite filter_app, length_app. lia. Qed.

Lemma inFlight_app ws1 ws2 : inFlight (ws1 ++ ws2) = inFlight ws1 ++ inFlight ws2.
Proof. apply flat_map_app. Qed.

Lemma running_nonneg ws : 0 <= running ws.
Proof. unfold running. lia. Qed.

Lemma allFinished_idle ws :
  allFinished ws = true -> running ws = 0 /\ inFlight ws = [].
Proof.
  induction ws as [|[b|] ws IH]; simpl; auto; discriminate.
Qed.

Lemma allFinished_nth ws w :
  allFinished ws = true ->
  match nth_error ws w with
  | Some (Awaiting _) => False
  | _ => True
  end.
Proof.
  revert w. induction ws as [|[b|] ws IH]; intros [|w]; simpl; auto;
    try discriminate.
  apply IH.
Qed.

(** One turn of the worker loop when the floor is not exceeded and no
    pending item is [undefined]: the worker returns on an empty list and
    takes a non-empty batch otherwise. *)
Lemma workerLoop_turn active stack :
  active <= minOf concurrency ->
  (forall x, In x stack -> isUndefined x = false) ->
  (stack = [] /\ workerLoop active stack = (Finished, active - 1, []))
  \/ exists batch rest,
       stack = batch ++ rest /\ batch <> []
       /\ workerLoop active stack = (Awaiting batch, active, rest).
Proof.
  intros Hfloor Hdef. destruct stack as [|x rest]; [now left|right].
  exists (firstn (take options) (x :: rest)), (skipn (take options) (x :: rest)).
  split; [now rewrite firstn_skipn|]. split.
  - unfold take. destruct (enableBatching options); [|simpl; discriminate].
    destruct (Pos.to_nat (batchSize options)) eqn:Hb; [lia|simpl; discriminate].
  - cbn [Pool.workerLoop].
    replace (minOf concurrency <? active) with false by (symmetry; apply Z.ltb_ge; lia).
    rewrite andb_false_r. unfold take.
    destruct (enableBatching options); [reflexivity|].
    rewrite (Hdef x) by now left. reflexivity.
Qed.

Lemma running_cons (w : @worker T) ws :
  running (w :: ws) = (if isAwaiting w then 1 else 0) + running ws.
Proof.
  unfold running. cbn [filter].
  destruct (isAwaiting w); cbn [List.length]; lia.
Qed.

Lemma okCount_nil : okCount [] = 0.
Proof. reflexivity. Qed.

Lemma badCount_nil : badCount [] = 0.
Proof. reflexivity. Qed.

Lemma okCount_cons x l : okCount (x :: l) = okCount [x] + okCount l.
Proof. apply (okCount_app [x] l). Qed.

Lemma badCount_cons x l : badCount (x :: l) = badCount [x] + badCount l.
Proof. apply (badCount_app [x] l). Qed.

(** Normal form of the sums over workers and items. *)
Ltac tally :=
  repeat first
    [ rewrite running_app | rewrite running_cons | rewrite inFlight_app
    | rewrite okCount_app | rewrite badCount_app
    | rewrite okCount_nil | rewrite badCount_nil
    | rewrite length_app
    | match goal with
      | |- context [Pool.okCount _ (?x :: ?l)] =>
          lazymatch l with [] => fail | _ => rewrite (okCount_cons x l) end
      | |- context [Pool.badCount _ (?x :: ?l)] =>
          lazymatch l with [] => fail | _ => rewrite (badCount_cons x l) end
      end
    | progress (cbn [inFlight flat_map unsettled isAwaiting List.length app]) ].

Lemma running_nil : running (@nil (@worker T)) = 0.
Proof. reflexivity. Qed.

Lemma settleItem_fields item st :
  let st1 := settleItem fn items item st in
  pending st1 = pending st
  /\ activeWorkers st1 = activeWorkers st
  /\ workers st1 = workers st
  /\ awaited st1 = awaited st
  /\ returned st1 = returned st
  /\ nCompleted st1 = nCompleted st + okCount [item]
  /\ nFailed st1 = nFailed st + badCount [item]
  /\ Z.of_nat (List.length (errors st1))
     = Z.of_nat (List.length (errors st)) + badCount [item].
Proof.
  unfold settleItem, Pool.okCount, Pool.badCount, fulfils. simpl.
  destruct (fn item); simpl; rewrite ?length_app; simpl; repeat split; lia.
Qed.

Hypothesis Hmin : 1 <= minOf concurrency.
Hypothesis Hflat : maxOf concurrency <= minOf concurrency.
Hypothesis Hdef : forall x, In x items -> isUndefined x = false.

(** Spawning a worker below the floor keeps the books. *)
Lemma spawn_accounted st :
  accounted st ->
  activeWorkers st + 1 <= minOf concurrency ->
  let st' := spawn isUndefined concurrency options st in
  accounted st'
  /\ (pending st' = [] \/ 1 <= activeWorkers st')
  /\ (activeWorkers st' = activeWorkers st + 1 \/ pending st' = [])
  /\ activeWorkers st' <= activeWorkers st + 1
  /\ (pending st = [] -> pending st' = [])
  /\ returned st' = returned st
  /\ awaited st' = awaited st.
Proof.
  intros [Hrun Hfloor Hok Hbad Herr Hund Hlen] Hroom. unfold spawn.
  pose proof (running_nonneg (workers st)) as Hnn.
  destruct (@workerLoop_turn (activeWorkers st + 1) (pending st) Hroom Hund)
    as [[Hnil ->]|(batch & rest & Hstack & Hne & ->)].
  - rewrite Hnil in *. revert Hok Hbad Hlen. tally. intros Hok Hbad Hlen.
    repeat split; cbn -[inFlight running Pool.okCount Pool.badCount];
      tally; rewrite ?running_nil; auto; try lia.
  - rewrite Hstack in *. revert Hok Hbad Hlen. tally. intros Hok Hbad Hlen.
    repeat split; cbn -[inFlight running Pool.okCount Pool.badCount];
      tally; rewrite ?running_nil; auto; try lia.
    + intros x Hx. apply Hund. apply in_or_app. now right.
    + intros Habs. apply app_eq_nil in Habs. tauto.
Qed.

Lemma spawnMany_accounted n st :
  accounted st ->
  activeWorkers st + Z.of_nat n <= minOf concurrency ->
  let st' := spawnMany isUndefined concurrency options n st in
  accounted st'
  /\ ((1 <= n)%nat -> pending st' = [] \/ 1 <= activeWorkers st')
  /\ (activeWorkers st' = activeWorkers st + Z.of_nat n \/ pending st' = [])
  /\ (pending st = [] -> pending st' = [])
  /\ returned st' = returned st
  /\ awaited st' = awaited st.
Proof.
  revert st. induction n as [|n IH]; intros st Hacc Hroom; simpl.
  - split; [exact Hacc|]. split; [lia|]. split; [left; lia|]. repeat split; auto.
  - destruct (@spawn_accounted st Hacc)
      as (Hacc1 & Hbusy1 & Hgrow1 & Hle1 & Hnil1 & Hr1 & Ha1); [lia|].
    set (st1 := spawn isUndefined concurrency options st) in *.
    destruct (IH st1 Hacc1) as (Hacc' & Hbusy' & Hgrow' & Hnil' & Hr' & Ha');
      [lia|].
    split; [exact Hacc'|]. split; [|split; [|repeat split; auto; congruence]].
    + intros _. destruct n as [|n]; [exact Hbusy1|apply Hbusy'; lia].
    + destruct Hgrow' as [Hg|Hg]; [|now right].
      destruct Hgrow1 as [Hg1|Hg1]; [left; lia|right; auto].
Qed.

Lemma okCount_rev l : okCount (rev l) = okCount l.
Proof. unfold Pool.okCount. now rewrite filter_rev, length_rev. Qed.

Lemma badCount_rev l : badCount (rev l) = badCount l.
Proof. unfold Pool.badCount. now rewrite filter_rev, length_rev. Qed.

(** The interval callback finds nothing to do. *)
Lemma scaler_idle st :
  settledDown st -> scaler isUndefined concurrency options st = st.
Proof.
  intros [[Hrun Hfloor _ _ _ _ _] _ Hcover _ _]. unfold scaler.
  destruct (returned st); [reflexivity|].
  replace (0 <? _) with false; [reflexivity|].
  symmetry. apply Z.ltb_ge. lia.
Qed.

Lemma settle_idle w i st :
  allFinished (workers st) = true ->
  settle fn isUndefined concurrency items options w i st = st.
Proof.
  intros Hall. unfold settle. pose proof (@allFinished_nth (workers st) w Hall) as H.
  destruct (nth_error (workers st) w) as [[batch|]|]; tauto.
Qed.

Lemma tryReturn_settledDown st :
  settledDown st -> settledDown (tryReturn items st).
Proof.
  intros Hsd. unfold tryReturn. destruct (returned st) eqn:Hret; [exact Hsd|].
  destruct (allFinished (firstn (awaited st) (workers st))) eqn:Hall; [|exact Hsd].
  destruct Hsd as [[Hrun Hfloor Hok Hbad Herr Hund Hlen] Hbusy Hcover Haw _].
  rewrite Haw, firstn_all in Hall.
  constructor; cbn -[inFlight running Pool.okCount Pool.badCount]; auto.
  - constructor; cbn -[inFlight running Pool.okCount Pool.badCount]; auto.
  - intros m' [= <-]. split; [exact Hall|reflexivity].
Qed.

(** Settling an item keeps the books, and keeps the backlog covered. *)
Lemma settle_settledDown w i st :
  settledDown st -> returned st = None ->
  let st' := settle fn isUndefined concurrency items options w i st in
  settledDown st' /\ returned st' = None.
Proof.
  intros Hsd Hret. unfold settle.
  destruct (nth_error (workers st) w) as [[batch|]|] eqn:Hw; auto.
  destruct (nth_error batch i) as [item|] eqn:Hi; auto.
  destruct (settleItem_fields item st)
    as (Hp1 & Ha1 & Hw1 & Haw1 & Hr1 & Hc1 & Hf1 & He1).
  set (st1 := settleItem fn items item st) in *. clearbody st1.
  destruct Hsd as [[Hrun Hfloor Hok Hbad Herr Hund Hlen] Hbusy Hcover Haw _].
  destruct (replace_split (workers st) w Hw) as (l1 & l2 & Hws & Hrep).
  rewrite <- Hw1 in Hrep.
  destruct (remove_split batch i Hi) as (b1 & b2 & Hbatch & Hrem).
  pose proof (running_nonneg l1) as Hn1. pose proof (running_nonneg l2) as Hn2.
  rewrite Hws, Hbatch in *. clear Hws Hbatch. rewrite Hrem.
  revert Hok Hbad Hrun Haw. tally. intros Hok Hbad Hrun Haw.
  assert (Hnone : forall ws' a p,
             returned (withWorkers ws' a p st1) = None) by (intros; cbn; congruence).
  destruct (b1 ++ b2) as [|y rest'] eqn:Hb12.
  - apply app_eq_nil in Hb12 as [-> ->].
    revert Hok Hbad. tally. intros Hok Hbad.
    rewrite Ha1, Hp1.
    destruct (@workerLoop_turn (activeWorkers st) (pending st) Hfloor Hund)
      as [[Hnil ->]|(nb & rest & Hstack & Hne & ->)].
    + rewrite Hnil in *. revert Hok Hbad. tally. intros Hok Hbad.
      split; [|apply Hnone].
      constructor; [constructor|..];
        try (intros m Hm; rewrite Hnone in Hm; discriminate);
        cbn -[inFlight running Pool.okCount Pool.badCount];
        rewrite ?Hrep; tally; auto; try lia.
      right. rewrite ceilDiv_zero. lia.
    + rewrite Hstack in *. revert Hok Hbad Hlen. tally. intros Hok Hbad Hlen.
      split; [|apply Hnone].
      constructor; [constructor|..];
        try (intros m Hm; rewrite Hnone in Hm; discriminate);
        cbn -[inFlight running Pool.okCount Pool.badCount];
        rewrite ?Hrep; tally; auto; try lia.
      * intros x Hx. apply Hund. apply in_or_app. now right.
      * destruct Hcover as [Hcov|Hcov]; [now left|right].
        pose proof (@ceilDiv_mono (List.length rest) (List.length (nb ++ rest))
                      (batchSize options)) as Hm.
        rewrite length_app in Hm, Hcov. lia.
  - split; [|apply Hnone]. rewrite <- Hb12.
    constructor; [constructor|..];
      try (intros m Hm; rewrite Hnone in Hm; discriminate);
      cbn -[inFlight running Pool.okCount Pool.badCount];
      rewrite ?Hrep; tally; rewrite ?Ha1, ?Hp1; auto; try lia.
Qed.

Lemma start_settledDown :
  settledDown (start isUndefined stringify concurrency items options).
Proof.
  unfold start.
  set (st0 := {| pending := rev items; nCompleted := 0; nFailed := 0;
                 activeWorkers := 0; workers := []; awaited := 0;
                 resultQueue := AsyncQueue.new stringify None;
                 errors := []; progress := []; returned := None |}).
  set (initial := Z.min (minOf concurrency)
                    (ceilDiv (List.length items) (batchSize options))).
  assert (Hacc0 : accounted st0).
  { constructor; cbn -[inFlight running Pool.okCount Pool.badCount]; tally;
      rewrite ?okCount_rev, ?badCount_rev, ?length_rev; auto; try lia.
    intros x Hx. apply Hdef. now apply in_rev. }
  pose proof (ceilDiv_nonneg (List.length items) (batchSize options)) as Hcd.
  destruct (@spawnMany_accounted (Z.to_nat initial) st0 Hacc0)
    as (Hacc & Hbusy & Hgrow & Hnil & Hret & Haw); [cbn; lia|].
  set (st1 := spawnMany isUndefined concurrency options (Z.to_nat initial) st0) in *.
  apply tryReturn_settledDown.
  pose proof Hacc as [Hrun Hfloor Hok Hbad Herr Hund Hlen].
  pose proof (running_nonneg (workers st1)) as Hnn.
  pose proof (@ceilDiv_mono (List.length (pending st1)) (List.length items)
                (batchSize options) Hlen) as Hmono.
  constructor; cbn -[inFlight running Pool.okCount Pool.badCount]; auto.
  - constructor; cbn -[inFlight running Pool.okCount Pool.badCount]; auto.
  - destruct (Nat.le_gt_cases 1 (Z.to_nat initial)) as [Hk|Hk]; [auto|].
    left. apply Hnil. cbn.
    destruct (Nat.eq_dec (List.length items) 0) as [Hz|Hnz].
    + apply length_zero_iff_nil in Hz. now rewrite Hz.
    + exfalso.
      pose proof (@ceilDiv_pos (List.length items) (batchSize options)) as Hp.
      unfold initial in Hk. lia.
  - destruct Hgrow as [Hg|Hg].
    + cbn in Hg. lia.
    + right. rewrite Hg, ceilDiv_zero. lia.
  - intros m Hm. rewrite Hret in Hm. discriminate.
Qed.

Lemma step_settledDown e st :
  settledDown st ->
  settledDown (step fn isUndefined concurrency items options e st).
Proof.
  intros Hsd. unfold step. apply tryReturn_settledDown. destruct e as [|w i].
  - now rewrite scaler_idle.
  - destruct (returned st) as [m|] eqn:Hret.
    + destruct (sd_returned Hsd Hret) as [Hall _].
      now rewrite settle_idle.
    + now apply settle_settledDown.
Qed.

Lemma work_settledDown schedule :
  settledDown (work fn isUndefined stringify concurrency items options schedule).
Proof.
  unfold work. generalize start_settledDown.
  generalize (start isUndefined stringify concurrency items options).
  induction schedule as [|e schedule IH]; intros st Hsd; simpl; auto.
  apply IH. now apply step_settledDown.
Qed.

(** When the ceiling does not exceed the floor (in particular for a
    fixed concurrency) and the floor is at least one, every run that
    comes to rest has resolved with [completed] and [failed] equal to the
    numbers of items for which [fn] fulfils and rejects,
    [currentConcurrency = 0], and one [onError] call per failure. *)
Lemma flat_pool_accounts schedule :
  let st := work fn isUndefined stringify concurrency items options schedule in
  quiescent st = true ->
  returned st
  = Some {| completed := okCount items; failed := badCount items;
            total := nTotal items; currentConcurrency := 0 |}
  /\ Z.of_nat (List.length (errors st)) = badCount items
  /\ pending st = [].
Proof.
  intros st Hq. pose proof (work_settledDown schedule) as Hsd. fold st in Hsd.
  unfold quiescent in Hq. apply andb_true_iff in Hq as [Hall Hret].
  destruct (returned st) as [m|] eqn:Hm; [|discriminate].
  destruct (sd_returned Hsd Hm) as [_ ->].
  destruct Hsd as [[Hrun Hfloor Hok Hbad Herr Hund Hlen] Hbusy _ _ _].
  destruct (allFinished_idle _ Hall) as [Hidle Hnone].
  rewrite Hnone in *. rewrite Hidle in Hrun.
  destruct Hbusy as [Hp|Hp]; [|lia].
  rewrite Hp in *. revert Hok Hbad. tally. intros Hok Hbad.
  repeat split; auto; try lia.
  do 2 f_equal; lia.
Qed.

End Flat.

(** A fixed pool of two workers over the ten items comes to rest with
    the full count. *)
Example fixed_pool_run :
  let st := work threeFail neverUndefined outcomeKey (Fixed 2) tenItems None
              (concat (repeat [Settle 0 0; Settle 1 0] 5)) in
  quiescent st = true
  /\ returned st
     = Some {| completed := 7; failed := 3; total := 10; currentConcurrency := 0 |}.
Proof. vm_compute. split; reflexivity. Qed.

(** *** Pools that scale up *)

(** C7. A run over ten items of which exactly three fail need not report
    [completed = 7] and [failed = 3]: with [concurrency = {min: 1, max: 4}]
    and an [fn] slower than the scaling interval, the workers spawned by
    the interval are not among the promises that [Promise.all] waits for,
    and [work] resolves as soon as the single initial worker retires, with
    [completed = 6], [failed = 2] and two [onError] calls, while a spawned
    worker is still running and one item is still pending.  The remaining
    items are processed after [work] has returned. *)
Theorem scaled_pool_returns_early :
  let run := work threeFail neverUndefined outcomeKey (Range 1 4) tenItems None in
  let st := run slowSchedule in
  let st' := run (slowSchedule ++ slowRest) in
  List.length tenItems = 10%nat
  /\ List.length (filter (fun i => isRejected (threeFail i)) tenItems) = 3%nat
  /\ returned st
     = Some {| completed := 6; failed := 2; total := 10; currentConcurrency := 1 |}
  /\ errors st = [("boom"%string, 9%nat); ("boom"%string, 5%nat)]
  /\ workers st = [Finished; Finished; Awaiting [1%nat]; Finished]
  /\ pending st = [0%nat]
  /\ quiescent st' = true
  /\ (nCompleted st', nFailed st', activeWorkers st') = (7, 3, 0)
  /\ returned st' = returned st.
Proof. vm_compute. repeat split. Qed.

(** C10. [currentConcurrency] is not always 0: with
    [concurrency = {min: 1, max: 2}] and three items, the interval spawns
    a second worker while the first item is in flight; when that item
    settles the initial worker retires (two workers for one pending item)
    and [work] resolves with [currentConcurrency = 1], the spawned worker
    being still active. *)
Theorem returned_concurrency_not_zero :
  let st := work neverFail neverUndefined outcomeKey (Range 1 2) threeItems None tickFirst in
  returned st
  = Some {| completed := 1; failed := 0; total := 3; currentConcurrency := 1 |}
  /\ workers st = [Finished; Awaiting [1%nat]]
  /\ activeWorkers st = 1
  /\ pending st = [0%nat].
Proof. vm_compute. repeat split. Qed.

End PoolFacts.

(* ================================================================== *)
(** * Further properties of the cache, the queue and the pool *)
(* ================================================================== *)

(** ** Laws of the LRU cache *)

Module LruLaws.
Import Lru JsMapFacts JsMapLaws LruFacts.
Local Open Scope Z_scope.

Section Laws.
Context {T : Type}.
Variable opts : CacheOpts T.
Implicit Types (st : state T) (k key : string) (m : JsMap.t (CacheEntry T)).

(** X3. A [set] that returns has stored the value: [peek] returns it,
    the cache holds at least one entry (also when [maxEntries] is 0), and
    a [get] at any time within the TTL of the insertion returns it. *)
Theorem set_then_get fuel key v ts ti st st' :
  set opts fuel key v ts ti st = Some st' ->
  peek key st' = Some v
  /\ (1 <= size st')%nat
  /\ forall now, gtb_num (now - ti) (ttlMs opts) = false ->
       fst (get opts key now st') = Some v.
Proof.
  unfold set. destruct (evictToMakeRoomFor opts fuel v ts _) as [st2|];
    [|discriminate].
  intros [= <-]. unfold peek, size, get. cbn [cache].
  rewrite get_set_same, size_set. cbn. split; [reflexivity|]. split.
  - destruct (JsMap.get key (cache st2)) eqn:E; [|lia].
    destruct (cache st2); [discriminate|simpl; lia].
  - intros now Hnow. unfold expired. cbn. now rewrite Hnow.
Qed.

(** X4. [get] on a live entry returns its value and refreshes
    [lastAccess] to the time of the call, leaving [createdAt], the other
    entries, the order of the keys, the byte total and the eviction log
    alone; [has] on the same entry answers [true] and changes nothing,
    not even the recency. *)
Theorem get_refreshes_has_does_not key now (e : CacheEntry T) st :
  JsMap.get key (cache st) = Some e ->
  expired opts now e = false ->
  let st' := snd (get opts key now st) in
  fst (get opts key now st) = Some (value e)
  /\ JsMap.get key (cache st')
     = Some {| value := value e; lastAccess := now; createdAt := createdAt e |}
  /\ (forall k, k <> key -> JsMap.get k (cache st') = JsMap.get k (cache st))
  /\ JsMap.keys (cache st') = JsMap.keys (cache st)
  /\ byteSize st' = byteSize st
  /\ evicted st' = evicted st
  /\ has opts key now st = (true, st).
Proof.
  intros Hget Hlive. unfold get, has, byteSize. rewrite Hget, Hlive.
  cbn [fst snd cache evicted currentBytes].
  rewrite get_set_same, keys_set, Hget.
  repeat split. intros k Hk. now apply get_set_other.
Qed.



(** *** Which entry is evicted *)





(** *** The byte budget and the sweep *)

(** X7. When [set] returns, the running byte total is within [maxBytes],
    or the cache holds nothing but the entry just stored. *)
Theorem set_respects_byte_budget (B : Z) fuel key v ts ti st st' :
  maxBytes opts = Fin B ->
  set opts fuel key v ts ti st = Some st' ->
  byteSize st' <= B \/ size st' = 1%nat.
Proof.
  intros HB. unfold set, evictToMakeRoomFor.
  destruct (evictLoop opts fuel (sizeOf opts v) _) as [st2|] eqn:Hloop;
    [|discriminate].
  intros [= <-]. unfold byteSize, size. cbn [cache currentBytes].
  apply evictLoop_exit in Hloop as [H0|Hob].
  - right. unfold size, JsMap.size in H0.
    destruct (cache st2); [reflexivity|discriminate].
  - left. unfold overBudget in Hob. apply orb_false_iff in Hob as [_ Hob].
    rewrite HB in Hob. cbn in Hob. apply Z.ltb_ge in Hob. lia.
Qed.

Lemma delete__in key st p :
  In p (cache (snd (delete_ opts key st))) -> In p (cache st) /\ key <> fst p.
Proof.
  rewrite delete__cache. destruct (JsMap.get key (cache st)) eqn:Hget.
  - unfold JsMap.delete. rewrite filter_In. intros [Hin Hne]. split; auto.
    apply negb_true_iff in Hne. now apply String.eqb_neq.
  - intros Hin. split; auto. intros ->.
    apply get_none_keys in Hget. apply Hget. now apply in_map.
Qed.

Lemma sweep_survivors now (l : JsMap.t (CacheEntry T)) st p :
  In p (cache (fold_left
                 (fun s q => if expired opts now (snd q)
                             then snd (delete_ opts (fst q) s) else s) l st)) ->
  In p (cache st)
  /\ forall q, In q l -> expired opts now (snd q) = true -> fst q <> fst p.
Proof.
  revert st. induction l as [|q l IH]; intros st; cbn [fold_left].
  - intros H. split; [exact H|intros q []].
  - intros H. apply IH in H as [Hin Hrest].
    destruct (expired opts now (snd q)) eqn:Hq.
    + apply delete__in in Hin as [Hin Hne]. split; [exact Hin|].
      intros q' [<-|Hq'] Hexp; auto.
    + split; [exact Hin|]. intros q' [<-|Hq'] Hexp; [congruence|auto].
Qed.

Lemma evictLoop_in fuel entrySize st st' p :
  evictLoop opts fuel entrySize st = Some st' ->
  In p (cache st') -> In p (cache st).
Proof.
  revert st. induction fuel as [|fuel IH]; intros st; simpl;
    destruct (overBudget opts entrySize st);
    try (intros [= <-]; auto);
    destruct (JsMap.size (cache st) =? 0)%nat;
    try (intros [= <-]; auto); try discriminate.
  intros H Hin. specialize (IH _ H Hin). unfold evictOne in IH.
  destruct (fst (oldest (cache st))); auto.
  destruct (truthy_string s); auto. now apply delete__in in IH.
Qed.

(** X8. When [set] returns, every entry other than the one just stored
    was in the cache before the call and is not expired at the time of
    the sweep: [set] removes all entries older than the TTL, whatever
    their keys. *)
Theorem set_sweeps_expired fuel key v ts ti st st' :
  set opts fuel key v ts ti st = Some st' ->
  forall k e, In (k, e) (cache st') -> k <> key ->
    In (k, e) (cache st) /\ expired opts ts e = false.
Proof.
  unfold set, evictToMakeRoomFor.
  set (st1 := match JsMap.get key (cache st) with
              | Some existing => _ | None => st end).
  assert (Hc : cache st1 = cache st).
  { subst st1. now destruct (JsMap.get key (cache st)). }
  destruct (evictLoop opts fuel (sizeOf opts v) (evictExpired opts ts st1))
    as [st2|] eqn:Hloop; [|discriminate].
  intros [= <-] k e Hin Hne. cbn [cache] in Hin.
  apply in_set_other in Hin; [|exact Hne].
  apply (@evictLoop_in _ _ _ _ (k, e) Hloop) in Hin.
  unfold evictExpired in Hin.
  apply sweep_survivors in Hin as [Hin Hexp]. rewrite Hc in *.
  split; [exact Hin|].
  destruct (expired opts ts e) eqn:He; [|reflexivity].
  now elim (Hexp (k, e) Hin He).
Qed.

(** *** Calls that do not return *)

Lemma sweep_without_ttl now st :
  ttlMs opts = Infinity -> evictExpired opts now st = st.
Proof.
  intros Httl. unfold evictExpired. generalize (cache st) at 1.
  assert (Hlive : forall e, expired opts now e = false).
  { intros e. unfold expired. now rewrite Httl. }
  intros l. induction l as [|q l IH]; cbn [fold_left]; [reflexivity|].
  now rewrite Hlive.
Qed.

(** X9. The entry stored under the empty string cannot be evicted: when
    it is the least recently used entry of a cache at its entry limit
    (no TTL), no later [set] returns, whatever its key and value:
    [evictOne] picks the key [""], finds it falsy and deletes nothing, and
    the loop of [evictToMakeRoomFor] runs for ever. *)
Theorem empty_key_blocks_set (N : Z) fuel key v ts ti st :
  ttlMs opts = Infinity ->
  maxEntries opts = Fin N ->
  N <= Z.of_nat (size st) ->
  size st <> 0%nat ->
  fst (oldest (cache st)) = Some EmptyString ->
  set opts fuel key v ts ti st = None.
Proof.
  intros Httl Hmax Hfull Hne Hold. unfold set, evictToMakeRoomFor.
  set (st1 := match JsMap.get key (cache st) with
              | Some existing => _ | None => st end).
  assert (Hc : cache st1 = cache st).
  { subst st1. now destruct (JsMap.get key (cache st)). }
  rewrite sweep_without_ttl by exact Httl.
  rewrite evictLoop_spins; [reflexivity| | |].
  - unfold overBudget. rewrite Hc, Hmax. cbn [geb_num].
    unfold size in Hfull. apply orb_true_iff. left. now apply Z.leb_le.
  - unfold size in *. now rewrite Hc.
  - unfold evictOne. rewrite Hc, Hold. reflexivity.
Qed.

Lemma overwriteFree_prefix fuel n (ops : list (op T)) st :
  overwriteFree opts fuel ops st = true ->
  overwriteFree opts fuel (firstn n ops) st = true.
Proof.
  revert n st. induction ops as [|o ops IH]; intros [|n] st; cbn; auto.
  intros H. apply andb_true_iff in H as [H1 H2]. rewrite H1. cbn.
  destruct (step opts fuel o st); auto.
Qed.

(** *** The byte total within the safe integers *)

Section Sizes.
Hypothesis sizes_nonneg : forall v, 0 <= sizeOf opts v.

Lemma weight_nonneg m : 0 <= weight opts m.
Proof.
  unfold weight. induction m as [|[k e] m IH]; cbn; [lia|].
  pose proof (sizes_nonneg (value e)). lia.
Qed.

Lemma weight_get k (e : CacheEntry T) m :
  JsMap.get k m = Some e -> sizeOf opts (value e) <= weight opts m.
Proof.
  induction m as [|[k0 e0] m IH]; [discriminate|].
  pose proof (weight_nonneg m). pose proof (sizes_nonneg (value e0)).
  unfold weight in *. cbn. destruct (String.eqb k k0).
  - intros [= ->]. lia.
  - intros Hget. specialize (IH Hget). lia.
Qed.

(** Evictions only lower the running total. *)
Lemma delete__bytes_le key st :
  currentBytes (snd (delete_ opts key st)) <= currentBytes st.
Proof.
  unfold delete_. destruct (JsMap.get key (cache st)) as [e|]; cbn; [|lia].
  pose proof (sizes_nonneg (value e)). lia.
Qed.

Lemma sweep_bytes_le now (l : JsMap.t (CacheEntry T)) st :
  currentBytes
    (fold_left
       (fun s p => if expired opts now (snd p)
                   then snd (delete_ opts (fst p) s) else s) l st)
  <= currentBytes st.
Proof.
  revert st. induction l as [|p l IH]; intros st; cbn [fold_left]; [lia|].
  destruct (expired opts now (snd p)); [|apply IH].
  pose proof (delete__bytes_le (fst p) st).
  specialize (IH (snd (delete_ opts (fst p) st))). lia.
Qed.

Lemma evictOne_bytes_le st : currentBytes (evictOne opts st) <= currentBytes st.
Proof.
  unfold evictOne. destruct (fst (oldest (cache st))) as [k|]; [|lia].
  destruct (truthy_string k); [apply delete__bytes_le|lia].
Qed.

Lemma evictLoop_bytes_le fuel entrySize st st' :
  evictLoop opts fuel entrySize st = Some st' ->
  currentBytes st' <= currentBytes st.
Proof.
  revert st. induction fuel as [|fuel IH]; intros st; simpl;
    destruct (overBudget opts entrySize st);
    try (intros [= <-]; lia);
    destruct (JsMap.size (cache st) =? 0)%nat;
    try (intros [= <-]; lia); try discriminate.
  intros H. apply IH in H. pose proof (evictOne_bytes_le st). lia.
Qed.

(** [set] raises the running total by at most the size of the value,
    after lowering it by the size of the value it overwrites. *)
Lemma set_bytes_le fuel key v ts ti st st' :
  set opts fuel key v ts ti st = Some st' ->
  currentBytes st'
  <= currentBytes st
     - match JsMap.get key (cache st) with
       | Some old => sizeOf opts (value old)
       | None => 0
       end
     + sizeOf opts v.
Proof.
  unfold set, evictToMakeRoomFor.
  set (st1 := match JsMap.get key (cache st) with
              | Some existing => _ | None => st end).
  destruct (evictLoop opts fuel (sizeOf opts v) (evictExpired opts ts st1))
    as [st2|] eqn:Hloop; [|discriminate].
  intros [= <-]. cbn [currentBytes].
  apply evictLoop_bytes_le in Hloop.
  pose proof (sweep_bytes_le ts (cache st1) st1) as Hsweep.
  fold (evictExpired opts ts st1) in Hsweep.
  assert (Hst1 : currentBytes st1
                 = currentBytes st
                   - match JsMap.get key (cache st) with
                     | Some old => sizeOf opts (value old)
                     | None => 0
                     end).
  { subst st1. destruct (JsMap.get key (cache st)); cbn; lia. }
  lia.
Qed.

Lemma storedBytes_prefix n (ops : list (op T)) :
  0 <= storedBytes opts (firstn n ops) <= storedBytes opts ops.
Proof.
  revert n. induction ops as [|o ops IH]; intros n.
  - destruct n; cbn; lia.
  - pose proof (IH 0%nat) as H0. cbn [firstn storedBytes] in H0.
    destruct n as [|n]; [|specialize (IH n)]; destruct o; cbn; try lia;
      pose proof (sizes_nonneg v); lia.
Qed.

(** On a run without overwriting [set], the total stays exact and is at
    most the sizes stored so far. *)
Lemma run_within fuel (ops : list (op T)) st0 st :
  distinctKeys st0 -> drift opts st0 = 0 ->
  overwriteFree opts fuel ops st0 = true ->
  run opts fuel ops st0 = Some st ->
  drift opts st = 0
  /\ currentBytes st <= currentBytes st0 + storedBytes opts ops.
Proof.
  revert st0. induction ops as [|o ops IH]; intros st0 Hd Hz; simpl.
  - intros _ [= <-]. split; [exact Hz|lia].
  - intros Hfree. apply andb_true_iff in Hfree as [Ho Hfree].
    destruct (step opts fuel o st0) as [st1|] eqn:Hstep; [|discriminate].
    assert (Hside : match o with
                    | OpSet k _ _ _ => JsMap.get k (cache st0) = None
                    | _ => True
                    end).
    { destruct o; auto. now destruct (JsMap.get key (cache st0)). }
    destruct (@step_in_sync T opts fuel o st0 st1 Hd Hz Hside Hstep) as [Hd1 Hz1].
    intros Hrun. destruct (IH st1 Hd1 Hz1 Hfree Hrun) as [Hz' Hle].
    split; [exact Hz'|].
    pose proof (weight_nonneg (cache st0)) as Hw0.
    unfold drift, liveBytes in Hz.
    destruct o; cbn in Hstep.
    + apply set_bytes_le in Hstep. rewrite Hside in Hstep. lia.
    + injection Hstep as <-. revert Hle. unfold get.
      destruct (JsMap.get key (cache st0)) as [e|]; cbn; [|lia].
      destruct (expired opts now e); cbn; [|lia].
      pose proof (delete__bytes_le key st0). lia.
    + injection Hstep as <-. revert Hle. unfold has.
      destruct (JsMap.get key (cache st0)) as [e|]; cbn; [|lia].
      destruct (expired opts now e); cbn; [|lia].
      pose proof (delete__bytes_le key st0). lia.
    + injection Hstep as <-. lia.
    + injection Hstep as <-. revert Hle. unfold delete.
      pose proof (delete__bytes_le key st0). lia.
    + injection Hstep as <-. revert Hle. cbn. lia.
Qed.

End Sizes.

(** X1. With non-negative integer sizes whose sum over the [set] calls
    of the run is a safe integer (so that the arithmetic of the code, in
    double precision, is exact), on a run from the empty cache in which no
    [set] hits a key that is present, the running byte total is exact
    after every call: at every point of the run [byteSize] is the sum of
    [sizeOf] over the live entries, and a safe integer. *)
Theorem byte_total_exact_without_overwrite fuel n (ops : list (op T)) st :
  (forall v, 0 <= sizeOf opts v) ->
  storedBytes opts ops <= MAX_SAFE_INTEGER ->
  overwriteFree opts fuel ops (empty (T:=T)) = true ->
  run opts fuel (firstn n ops) empty = Some st ->
  byteSize st = liveBytes opts st
  /\ 0 <= byteSize st <= MAX_SAFE_INTEGER.
Proof.
  intros Hsizes Hsafe Hfree Hrun.
  destruct (@run_within Hsizes fuel (firstn n ops) empty st) as [Hz Hle];
    [constructor|reflexivity|now apply overwriteFree_prefix|exact Hrun|].
  pose proof (storedBytes_prefix Hsizes n ops) as Hpre.
  pose proof (weight_nonneg Hsizes (cache st)) as Hw.
  unfold drift, liveBytes, byteSize in *. cbn in Hle. lia.
Qed.

(** X2. With non-negative integer sizes, from a state whose byte total
    is exact and, with the new value, a safe integer, a [set] on a present
    key leaves the total exact, or too low by exactly the size of the
    value it replaced (when the old entry is evicted during the call):
    the total never ends up too high, and it stays within the safe
    integers, where the arithmetic of the code is exact. *)
Theorem overwrite_drift_bounded fuel key v ts ti st st' (old : CacheEntry T) :
  (forall v, 0 <= sizeOf opts v) ->
  distinctKeys st ->
  byteSize st = liveBytes opts st ->
  liveBytes opts st + sizeOf opts v <= MAX_SAFE_INTEGER ->
  JsMap.get key (cache st) = Some old ->
  set opts fuel key v ts ti st = Some st' ->
  (byteSize st' = liveBytes opts st'
   \/ byteSize st' = liveBytes opts st' - sizeOf opts (value old))
  /\ - MAX_SAFE_INTEGER <= byteSize st' <= MAX_SAFE_INTEGER
  /\ 0 <= liveBytes opts st' <= MAX_SAFE_INTEGER.
Proof.
  intros Hsizes Hnd Hsync Hsafe Hget Hset.
  destruct (@set_drift T opts fuel key v ts ti st st' Hnd Hset) as [_ Hdr].
  pose proof (set_bytes_le Hsizes _ _ _ _ _ _ Hset) as Hle.
  rewrite Hget in Hdr, Hle.
  pose proof (weight_get Hsizes _ _ Hget) as Hold.
  pose proof (weight_nonneg Hsizes (cache st')) as Hw'.
  pose proof (Hsizes (value old)). pose proof (Hsizes v).
  unfold drift, liveBytes, byteSize in *. lia.
Qed.

End Laws.

Lemma set_then_get_witness :
  exists st',
    set oneSlot 1 "a" 5 0 0 empty = Some st'
    /\ peek "a" st' = Some 5
    /\ fst (get oneSlot "a" 7 st') = Some 5.
Proof.
  eexists. split; [reflexivity|].
  destruct (@set_then_get Z oneSlot 1 "a"%string 5 0 0 empty _ eq_refl)
    as (Hpeek & _ & Hget).
  split; [exact Hpeek|]. apply Hget. reflexivity.
Defined.

Lemma byte_total_exact_without_overwrite_witness :
  let opts := {| maxEntries := Fin 2; ttlMs := Infinity; maxBytes := Infinity;
                 sizeOf := fun s => Z.of_nat (String.length s) |} in
  let ops := [OpSet "a" "xx" 0 0; OpSet "b" "yyy" 1 1; OpGet "b" 2;
              OpSet "c" "z" 3 3; OpDelete "b"]%string in
  exists st,
    run opts 2 (firstn 4 ops) empty = Some st
    /\ byteSize st = liveBytes opts st
    /\ byteSize st <= MAX_SAFE_INTEGER.
Proof.
  intros opts ops.
  set (st := {| cache := [("b", {| value := "yyy"; lastAccess := 2;
                                   createdAt := 1 |});
                          ("c", {| value := "z"; lastAccess := 3;
                                   createdAt := 3 |})]%string;
                currentBytes := 4; evicted := [("a", "xx")]%string |}).
  exists st. split; [reflexivity|].
  destruct (@byte_total_exact_without_overwrite string opts 2 4 ops st)
    as (Hexact & _ & Hsafe);
    [intros v; cbn; lia|vm_compute; discriminate|reflexivity|reflexivity|].
  split; [exact Hexact|exact Hsafe].
Defined.

Lemma overwrite_drift_bounded_witness :
  let opts := {| maxEntries := Fin 1; ttlMs := Infinity; maxBytes := Infinity;
                 sizeOf := fun s => Z.of_nat (String.length s) |} in
  let old := {| value := "hello"%string; lastAccess := 0; createdAt := 0 |} in
  let st := {| cache := [("a"%string, old)]; currentBytes := 5; evicted := [] |} in
  exists st',
    set opts 1 "a"%string "xyz"%string 1 1 st = Some st'
    /\ (byteSize st' = liveBytes opts st'
        \/ byteSize st' = liveBytes opts st' - 5)
    /\ - MAX_SAFE_INTEGER <= byteSize st'.
Proof.
  intros opts old st.
  set (st' := {| cache := [("a", {| value := "xyz"; lastAccess := 1;
                                    createdAt := 1 |})]%string;
                 currentBytes := -2; evicted := [("a", "hello")]%string |}).
  exists st'. split; [reflexivity|].
  destruct (@overwrite_drift_bounded string opts 1 "a"%string "xyz"%string
              1 1 st st' old)
    as (Hdrift & (Hlow & _) & _);
    [intros v; cbn; lia|repeat constructor; cbn; tauto|reflexivity
    |vm_compute; discriminate|reflexivity|reflexivity|].
  split; [exact Hdrift|exact Hlow].
Defined.

Lemma get_refreshes_has_does_not_witness :
  let opts := {| maxEntries := Fin 2; ttlMs := Fin 10; maxBytes := Infinity;
                 sizeOf := fun v : Z => v |} in
  let e := {| value := 5; lastAccess := 3; createdAt := 0 |} in
  let st := {| cache := [("a"%string, e);
                         ("b"%string,
                          {| value := 7; lastAccess := 1; createdAt := 1 |})];
               currentBytes := 12; evicted := [] |} in
  fst (get opts "a" 6 st) = Some 5
  /\ JsMap.get "a" (cache (snd (get opts "a" 6 st)))
     = Some {| value := 5; lastAccess := 6; createdAt := 0 |}
  /\ has opts "a" 6 st = (true, st).
Proof.
  intros opts e st.
  destruct (@get_refreshes_has_does_not Z opts "a"%string 6 e st eq_refl eq_refl)
    as (H1 & H2 & _ & _ & _ & _ & H7).
  split; [exact H1|]. split; [exact H2|exact H7].
Defined.



Lemma set_respects_byte_budget_witness :
  let opts := {| maxEntries := Infinity; ttlMs := Infinity; maxBytes := Fin 10;
                 sizeOf := fun v : Z => v |} in
  let st := {| cache := [("a"%string,
                          {| value := 7; lastAccess := 0; createdAt := 0 |})];
               currentBytes := 7; evicted := [] |} in
  exists st',
    set opts 1 "b" 6 1 1 st = Some st'
    /\ (byteSize st' <= 10 \/ size st' = 1%nat).
Proof.
  intros opts st. eexists. split; [reflexivity|].
  apply (@set_respects_byte_budget Z opts 10 1 "b"%string 6 1 1 st);
    reflexivity.
Defined.

Lemma set_sweeps_expired_witness :
  let opts := {| maxEntries := Infinity; ttlMs := Fin 10; maxBytes := Infinity;
                 sizeOf := fun v : Z => v |} in
  let fresh := {| value := 7; lastAccess := 8; createdAt := 8 |} in
  let st := {| cache := [("a"%string,
                          {| value := 5; lastAccess := 9; createdAt := 0 |});
                         ("b"%string, fresh)];
               currentBytes := 12; evicted := [] |} in
  exists st',
    set opts 0 "c" 1 12 12 st = Some st'
    /\ In ("b"%string, fresh) (cache st')
    /\ expired opts 12 fresh = false.
Proof.
  intros opts fresh st. eexists. split; [reflexivity|].
  destruct (@set_sweeps_expired Z opts 0 "c"%string 1 12 12 st _ eq_refl
              "b"%string fresh) as [_ Hlive]; [now left|discriminate|].
  split; [now left|exact Hlive].
Defined.

Lemma empty_key_blocks_set_witness :
  let st := {| cache := [(EmptyString,
                          {| value := 5; lastAccess := 0; createdAt := 0 |})];
               currentBytes := 5; evicted := [] |} in
  set oneSlot 1000 "b" 3 1 1 st = None.
Proof.
  intros st.
  apply (@empty_key_blocks_set Z oneSlot 1 1000 "b"%string 3 1 1 st);
    [reflexivity|reflexivity|cbn; lia|discriminate|reflexivity].
Defined.

End LruLaws.

(** ** Laws of the queue *)

Module AsyncQueueLaws.
Import AsyncQueue JsMapFacts JsMapLaws AsyncQueueFacts.
Local Open Scope Z_scope.

Section Laws.
Context {T : Type}.
Variable truthy : T -> bool.
Variable stringify : T -> string.
Implicit Types (q : t T) (item : T).

(** Case analysis on the innermost tests of the goal. *)
Ltac cases :=
  repeat match goal with
    | |- context [match ?x with _ => _ end] =>
        lazymatch x with
        | context [match _ with _ => _ end] => fail
        | _ => destruct x eqn:?; cbn in *
        end
    end.

Ltac open_push :=
  unfold push, append, pushWhenAvailable, checkAndPush, dedupStore,
    cleanupCache, handOff, enqueueNode, dequeueNode, dedupLookup.

(** *** Counters *)

Lemma step_gauge (o : op T) q :
  currentSize (metrics q) = size q ->
  currentSize (metrics (step truthy o q)) = size (step truthy o q).
Proof.
  intros H. destruct o; cbn [step].
  - open_push. cbn. cases; cbn; auto.
  - unfold next, dequeueNode. cases; cbn; auto.
  - reflexivity.
  - exact H.
  - unfold checkAndPush, handOff, enqueueNode. cases; cbn; auto.
Qed.

(** X11. In every state reached from the constructor, the counter
    behind [length] is the number of buffered nodes, and the
    [currentSize] of the metrics equals [length]. *)
Theorem length_counts_buffer (options : option (Options T)) (ops : list (op T)) :
  let q := run truthy ops (new stringify options) in
  length q = Z.of_nat (List.length (nodes q))
  /\ currentSize (getMetrics q) = length q.
Proof.
  split; [apply run_sized|].
  unfold run, getMetrics, length.
  assert (H0 : currentSize (metrics (new stringify options))
               = size (new stringify options)) by reflexivity.
  revert H0. generalize (new stringify options).
  induction ops as [|o ops IH]; intros q Hq; cbn [fold_left]; auto.
  apply IH. now apply step_gauge.
Qed.

Lemma step_balance (o : op T) q :
  isClear o = false ->
  enqueued (metrics q) - dequeued (metrics q) = size q ->
  let q' := step truthy o q in
  enqueued (metrics q') - dequeued (metrics q') = size q'.
Proof.
  intros Ho H. destruct o; try discriminate; cbn [step].
  - open_push. cbn. cases; cbn; lia.
  - unfold next, dequeueNode. cases; cbn; lia.
  - exact H.
  - unfold checkAndPush, handOff, enqueueNode. cases; cbn; lia.
Qed.

(** X12. As long as [clear] is not called, [enqueued - dequeued] is the
    current [length]: an item evicted by the [oldest] strategy counts as
    dequeued, a push refused by [newest] counts as neither. *)
Theorem metrics_balance (options : option (Options T)) (ops : list (op T)) :
  forallb (fun o => negb (isClear o)) ops = true ->
  let q := run truthy ops (new stringify options) in
  enqueued (getMetrics q) - dequeued (getMetrics q) = length q.
Proof.
  unfold run, getMetrics, length.
  assert (H0 : enqueued (metrics (new stringify options))
               - dequeued (metrics (new stringify options))
               = size (new stringify options)) by reflexivity.
  revert H0. generalize (new stringify options).
  induction ops as [|o ops IH]; intros q Hq Hops; cbn [fold_left]; auto.
  cbn in Hops. apply andb_true_iff in Hops as [Ho Hops].
  apply IH; [|exact Hops]. apply step_balance; [|exact Hq].
  now apply negb_true_iff.
Qed.

(** *** Capacity *)

(** A push that is not a cache hit goes on from the state [q1] in which
    the miss, if the cache is on, has been counted. *)
Lemma push_without_hit item t1 t2 t3 q :
  (forall v, dedupLookup item t1 q <> Hit v) ->
  exists q1,
    (q1 = q \/ q1 = withMetrics (countMiss (metrics q)) q)
    /\ push item t1 t2 t3 q
       = if geb_num (size q) (maxSize q) then
           match dropStrategy q with
           | Newest => (Returned false, withMetrics (countDropped (metrics q1)) q1)
           | Oldest =>
               append item t2 t3
                 (withMetrics (countDropped (metrics (snd (dequeueNode q1))))
                    (snd (dequeueNode q1)))
           | Block => pushWhenAvailable item q1
           end
         else append item t2 t3 q1.
Proof.
  intros Hno. unfold push.
  destruct (dedupLookup item t1 q) as [| |v] eqn:Hl; [| |now elim (Hno v)].
  - exists q. split; [now left|reflexivity].
  - exists (withMetrics (countMiss (metrics q)) q). split; [now right|reflexivity].
Qed.

(** X14. Under the [newest] strategy a push on a full queue that is not
    a cache hit returns [false], counts one drop, and leaves the buffer,
    the waiting consumers and the dedup cache as they were: the refused
    item is not remembered for deduplication. *)
Theorem newest_refuses_when_full item t1 t2 t3 q :
  dropStrategy q = Newest ->
  geb_num (length q) (maxSize q) = true ->
  (forall v, dedupLookup item t1 q <> Hit v) ->
  let q' := snd (push item t1 t2 t3 q) in
  fst (push item t1 t2 t3 q) = Returned false
  /\ nodes q' = nodes q /\ length q' = length q
  /\ resolvers q' = resolvers q /\ resolved q' = resolved q
  /\ cache q' = cache q
  /\ dropped (getMetrics q') = dropped (getMetrics q) + 1
  /\ enqueued (getMetrics q') = enqueued (getMetrics q).
Proof.
  intros Hs Hfull Hno. unfold length in *.
  destruct (push_without_hit item t1 t2 t3 q Hno) as (q1 & Hq1 & ->).
  rewrite Hfull, Hs. destruct Hq1 as [-> | ->]; cbn; repeat split.
Qed.

(** X15. Under the [oldest] strategy a push on a full queue that is not
    a cache hit returns [true], removes the head of the buffer and appends
    the item; the drop is counted in [dropped], and the removed head is
    counted in [dequeued] as well.  On an empty buffer (a capacity of 0)
    nothing is removed but the drop is still counted. *)
Theorem oldest_evicts_head item t1 t2 t3 q :
  dropStrategy q = Oldest ->
  geb_num (length q) (maxSize q) = true ->
  (forall v, dedupLookup item t1 q <> Hit v) ->
  let q' := snd (push item t1 t2 t3 q) in
  fst (push item t1 t2 t3 q) = Returned true
  /\ nodes q' = tl (nodes q) ++ [item]
  /\ dropped (getMetrics q') = dropped (getMetrics q) + 1
  /\ enqueued (getMetrics q') = enqueued (getMetrics q) + 1
  /\ dequeued (getMetrics q')
     = dequeued (getMetrics q) + match nodes q with [] => 0 | _ :: _ => 1 end.
Proof.
  intros Hs Hfull Hno. unfold length in *.
  destruct (push_without_hit item t1 t2 t3 q Hno) as (q1 & Hq1 & ->).
  rewrite Hfull, Hs. unfold append. cbn [fst snd].
  match goal with
  | |- context [dedupStore item t2 t3 ?s] =>
      destruct (dedupStore_frame item t2 t3 s) as (Hn & Hz & Hr & _ & Hm & _);
      set (d := dedupStore item t2 t3 s) in *
  end.
  unfold handOff, enqueueNode, getMetrics.
  destruct (resolvers _); cbn; rewrite Hn, Hm;
    destruct Hq1 as [-> | ->]; unfold dequeueNode; cbn;
    destruct (nodes q) eqn:Hq; cbn; rewrite ?Hq; repeat split; lia.
Qed.

Lemma step_frame (o : op T) q :
  maxSize (step truthy o q) = maxSize q
  /\ dropStrategy (step truthy o q) = dropStrategy q.
Proof.
  destruct o; cbn [step].
  - open_push. cbn. cases; cbn; auto.
  - unfold next, dequeueNode. cases; cbn; auto.
  - auto.
  - auto.
  - unfold checkAndPush, handOff, enqueueNode. cases; cbn; auto.
Qed.

Lemma step_bounded (m : Z) (o : op T) q :
  1 <= m -> sized q -> cache q = None -> maxSize q = Fin m -> size q <= m ->
  size (step truthy o q) <= m.
Proof.
  intros Hm Hsz Hc Hmax Hle. unfold sized in Hsz. destruct o; cbn [step].
  - open_push. rewrite Hc. cbn. rewrite ?Hc, ?Hmax. cbn.
    destruct (Z.leb_spec m (size q)); cbn; cases; rewrite ?Hc, ?Hmax; cbn;
      try destruct (Z.leb_spec m (size q)); cbn; cases; cbn; lia.
  - unfold next, dequeueNode. destruct (nodes q) eqn:Hn; cbn.
    + lia.
    + destruct (truthy t0); cbn; lia.
  - cbn. lia.
  - cbn. lia.
  - destruct (timers q) as [|x ts]; [lia|].
    unfold checkAndPush, handOff, enqueueNode. cbn. rewrite Hmax. cbn.
    destruct (Z.leb_spec m (size q)); cbn; [lia|].
    destruct (resolvers q); cbn; lia.
Qed.

(** X13. Without deduplication a queue with a capacity [maxSize >= 1]
    never holds more than [maxSize] items, whatever the drop strategy
    and whatever is called on it. *)
Theorem bounded_without_dedup
  (options : option (Options T)) (m : Z) (ops : list (op T)) :
  cacheRequested options = false ->
  maxSize (new stringify options) = Fin m ->
  1 <= m ->
  length (run truthy ops (new stringify options)) <= m.
Proof.
  intros Hoff Hmax Hm. unfold length, run.
  assert (H0 : sized (new stringify options)
               /\ cache (new stringify options) = None
               /\ maxSize (new stringify options) = Fin m
               /\ size (new stringify options) <= m).
  { repeat split; auto.
    - unfold new. cbn. now rewrite Hoff.
    - cbn. lia. }
  revert H0. generalize (new stringify options).
  induction ops as [|o ops IH]; intros q (Hsz & Hc & Hmx & Hle);
    cbn [fold_left]; [exact Hle|].
  apply IH. repeat split.
  - now apply step_sized.
  - now apply (@step_dedup T truthy stringify o q).
  - destruct (step_frame o q) as [-> _]. exact Hmx.
  - now apply step_bounded.
Qed.

(** *** Order of delivery *)

Lemma unbounded_push item t1 t2 t3 q :
  cache q = None -> maxSize q = Infinity ->
  push item t1 t2 t3 q = (Returned true, handOff item (enqueueNode item q)).
Proof.
  intros Hc Hm. unfold push, dedupLookup, append, dedupStore.
  rewrite Hc. cbn. rewrite ?Hm, ?Hc. cbn. now rewrite ?Hc.
Qed.

Lemma unbounded_pushes (ops : list (op T)) q :
  forallb isPush ops = true ->
  cache q = None -> maxSize q = Infinity ->
  let q' := run truthy ops q in
  nodes q' = nodes q ++ flat_map pushed ops
  /\ resolved q' = resolved q ++ combine (resolvers q) (flat_map pushed ops)
  /\ resolvers q' = skipn (List.length (flat_map pushed ops)) (resolvers q)
  /\ cache q' = None /\ maxSize q' = Infinity.
Proof.
  unfold run. revert q.
  induction ops as [|o ops IH]; intros q Hops Hc Hm; cbn [fold_left].
  - cbn. rewrite !app_nil_r. destruct (resolvers q); repeat split; auto;
      cbn; now rewrite app_nil_r.
  - cbn in Hops. apply andb_true_iff in Hops as [Ho Hops].
    destruct o; try discriminate. cbn [step flat_map pushed].
    rewrite (unbounded_push item nowHit nowStore nowSweep q Hc Hm). cbn [snd].
    assert (Hq : cache (handOff item (enqueueNode item q)) = None
                 /\ maxSize (handOff item (enqueueNode item q)) = Infinity
                 /\ nodes (handOff item (enqueueNode item q)) = nodes q ++ [item]
                 /\ resolvers (handOff item (enqueueNode item q))
                    = tl (resolvers q)
                 /\ resolved (handOff item (enqueueNode item q))
                    = resolved q ++ combine (resolvers q) [item]).
    { unfold handOff, enqueueNode. cbn.
      destruct (resolvers q) as [|r rs] eqn:Hr; cbn;
        rewrite ?Hr, ?app_nil_r; repeat split; auto.
      now destruct rs. }
    destruct Hq as (Hc1 & Hm1 & Hn1 & Hr1 & Hl1).
    destruct (IH (handOff item (enqueueNode item q)) Hops Hc1 Hm1)
      as (Hn & Hlog & Hrs & Hc' & Hm').
    rewrite Hn, Hlog, Hrs, Hn1, Hr1, Hl1.
    destruct (resolvers q) as [|r rs]; cbn; rewrite <- ?app_assoc;
      repeat split; auto.
    + now destruct (flat_map pushed ops).
    + now destruct rs.
Qed.

Lemma iterate_buffer (l : list T) n q :
  nodes q = l -> Forall (fun x => truthy x = true) l ->
  (n <= List.length l)%nat ->
  fst (iterate truthy n q) = firstn n l
  /\ nodes (snd (iterate truthy n q)) = skipn n l
  /\ resolvers (snd (iterate truthy n q)) = resolvers q.
Proof.
  revert l q. induction n as [|n IH]; intros l q Hn Hall Hle; cbn [iterate].
  - now cbn.
  - destruct l as [|x l]; [cbn in Hle; lia|].
    inversion Hall as [|? ? Hx Hall']; subst.
    unfold next, dequeueNode. rewrite Hn, Hx.
    match goal with
    | |- context [iterate truthy n ?s] =>
        destruct (IH l s) as (H1 & H2 & H3); [reflexivity|exact Hall'
                                             |cbn in Hle; lia|];
        destruct (iterate truthy n s) as [vs q2]
    end.
    cbn in *. now rewrite H1.
Qed.

(** X16. Delivery is first in, first out: on an unbounded queue without
    deduplication and without waiting consumers, pushing truthy items and
    then iterating yields the items in the order of the pushes, and
    leaves the rest buffered in that order. *)
Theorem fifo_delivery
  (options : option (Options T)) (ops : list (op T)) (n : nat) :
  cacheRequested options = false ->
  maxSize (new stringify options) = Infinity ->
  forallb isPush ops = true ->
  Forall (fun x => truthy x = true) (flat_map pushed ops) ->
  (n <= List.length (flat_map pushed ops))%nat ->
  let q := run truthy ops (new stringify options) in
  nodes q = flat_map pushed ops
  /\ fst (iterate truthy n q) = firstn n (flat_map pushed ops)
  /\ nodes (snd (iterate truthy n q)) = skipn n (flat_map pushed ops).
Proof.
  intros Hoff Hm Hops Hall Hn q.
  destruct (unbounded_pushes ops (new stringify options) Hops)
    as (Hnodes & _); [unfold new; cbn; now rewrite Hoff|exact Hm|].
  fold q in Hnodes. cbn in Hnodes.
  destruct (@iterate_buffer _ n q Hnodes Hall Hn) as (H1 & H2 & _).
  auto.
Qed.

(** X17. Waiting consumers are served oldest first: on an unbounded
    queue without deduplication, a series of pushes resolves the waiting
    promises in the order in which [next()] created them, one per push,
    and every pushed item is appended to the buffer as well. *)
Theorem waiters_served_in_order (ops : list (op T)) q :
  forallb isPush ops = true ->
  cache q = None -> maxSize q = Infinity ->
  let q' := run truthy ops q in
  resolved q' = resolved q ++ combine (resolvers q) (flat_map pushed ops)
  /\ resolvers q' = skipn (List.length (flat_map pushed ops)) (resolvers q)
  /\ nodes q' = nodes q ++ flat_map pushed ops.
Proof.
  intros Hops Hc Hm.
  destruct (unbounded_pushes ops q Hops Hc Hm) as (H1 & H2 & H3 & _). auto.
Qed.

(** *** Deduplication *)

(** X18. A push that hits the dedup cache delivers the cached value
    exactly once: to the oldest waiting consumer when there is one (the
    buffer is then left alone), to the tail of the buffer otherwise.  It
    counts one hit and leaves the dedup cache untouched: the expiry of
    the entry is not extended. *)
Theorem hit_delivers_once item tHit tStore tSweep q keyFn c entry :
  cache q = Some c -> cacheKeyFn q = Some keyFn ->
  JsMap.get (keyFn item) c = Some entry -> tHit < expires entry ->
  let q' := snd (push item tHit tStore tSweep q) in
  fst (push item tHit tStore tSweep q) = Returned true
  /\ cache q' = Some c
  /\ cacheHits (getMetrics q') = cacheHits (getMetrics q) + 1
  /\ match resolvers q with
     | r :: rs =>
         nodes q' = nodes q /\ length q' = length q
         /\ resolved q' = resolved q ++ [(r, value entry)]
         /\ resolvers q' = rs
     | [] =>
         nodes q' = nodes q ++ [value entry] /\ length q' = length q + 1
         /\ resolved q' = resolved q
     end.
Proof.
  intros Hc Hf Hget Hlt.
  rewrite (push_hit item tStore tSweep q Hc Hf Hget Hlt).
  unfold handOff, enqueueNode, getMetrics, length.
  destruct (resolvers q) as [|r rs] eqn:Hr; cbn; rewrite ?Hr; cbn;
    repeat split; auto.
Qed.



(** *** Blocking *)

(** X20. Under the [block] strategy a push on a full queue that is not a
    cache hit returns a pending promise: nothing is dropped or buffered
    and the item waits for its timer.  When the timer fires on a queue
    with room, the item is appended; when the queue is still full, the
    timer is armed again.  The item is never written to the dedup
    cache. *)
Theorem block_parks_the_item item t1 t2 t3 q :
  dropStrategy q = Block ->
  geb_num (length q) (maxSize q) = true ->
  (forall v, dedupLookup item t1 q <> Hit v) ->
  let q' := snd (push item t1 t2 t3 q) in
  fst (push item t1 t2 t3 q) = Promised None
  /\ nodes q' = nodes q
  /\ timers q' = timers q ++ [item]
  /\ dropped (getMetrics q') = dropped (getMetrics q)
  /\ cache q' = cache q
  /\ forall q2 ts,
       timers q2 = item :: ts ->
       let q3 := step truthy (@OpTimer T) q2 in
       cache q3 = cache q2
       /\ if geb_num (length q2) (maxSize q2)
          then nodes q3 = nodes q2 /\ timers q3 = ts ++ [item]
          else nodes q3 = nodes q2 ++ [item] /\ timers q3 = ts.
Proof.
  intros Hs Hfull Hno q'. subst q'. unfold length in *.
  destruct (push_without_hit item t1 t2 t3 q Hno) as (q1 & Hq1 & ->).
  rewrite Hfull, Hs. unfold pushWhenAvailable, checkAndPush.
  assert (Hfull1 : geb_num (size q1) (maxSize q1) = true)
    by (destruct Hq1 as [-> | ->]; exact Hfull).
  rewrite Hfull1. cbn [negb fst snd].
  split; [reflexivity|].
  split; [destruct Hq1 as [-> | ->]; reflexivity|].
  split; [destruct Hq1 as [-> | ->]; reflexivity|].
  split; [destruct Hq1 as [-> | ->]; reflexivity|].
  split; [destruct Hq1 as [-> | ->]; reflexivity|].
  intros q2 ts Hts. cbn [step]. rewrite Hts.
  unfold checkAndPush, handOff, enqueueNode. cbn.
  destruct (geb_num (size q2) (maxSize q2)); cbn; [auto|].
  now destruct (resolvers q2).
Qed.

(** *** Lookup and store *)











(** The first store on a queue whose buffer and dedup cache are empty. *)
Lemma first_store item t2 t3 q keyFn ttl :
  cache q = Some [] -> cacheKeyFn q = Some keyFn -> cacheTTL q = Some ttl ->
  nodes q = [] -> resolvers q = [] -> t3 < t2 + ttl ->
  let q' := snd (append item t2 t3 q) in
  nodes q' = [item] /\ resolvers q' = []
  /\ cacheHits (metrics q') = cacheHits (metrics q)
  /\ cache q' = Some [(keyFn item, {| value := item; expires := t2 + ttl |})]
  /\ cacheKeyFn q' = Some keyFn.
Proof.
  intros Hc Hf Ht Hn Hr Hsweep.
  assert (E : (t2 + ttl <=? t3) = false) by (apply Z.leb_gt; lia).
  unfold append, dedupStore, cleanupCache. cbn [snd]. rewrite Hc, Hf, Ht.
  unfold handOff, enqueueNode. cbn. rewrite Hr, Hn. cbn. rewrite E.
  repeat split; auto.
Qed.

(** [next] on a queue whose head is truthy takes the head. *)
Lemma next_value q v rest :
  nodes q = v :: rest -> truthy v = true ->
  fst (next truthy q) = Value v
  /\ nodes (snd (next truthy q)) = rest
  /\ cacheHits (metrics (snd (next truthy q))) = cacheHits (metrics q).
Proof.
  intros Hn Hv. unfold next, dequeueNode. rewrite Hn, Hv. cbn. auto.
Qed.

(** X21. Coalescing on a constant key: on a fresh queue that
    deduplicates on a constant key and has room for one item (no
    [maxSize], or a [maxSize] of at least 1, with any drop strategy) or
    drops the oldest item (with any [maxSize]), when the first value is
    truthy, pushing [V1] and then [V2] before the entry of [V1] expires
    returns [true] twice and makes both of the next two [next()] calls
    return [V1]; the metrics report one cache hit. *)
Theorem coalescing_returns_first_value
  (k : string) cap strat ttlOpt (V1 V2 : T) (t0 t1 t1' t2 t3 t3' : Z) :
  let options :=
    Some {| opt_maxSize := cap; opt_dropStrategy := strat;
            opt_enableCache := Some true;
            opt_cacheKeyFn := Some (fun _ => k); opt_cacheTTL := ttlOpt |} in
  let ttl := match ttlOpt with Some x => x | None => DEFAULT_CACHE_TTL end in
  match cap with Some (Fin m) => 1 <= m | _ => True end
  \/ strat = None \/ strat = Some Oldest ->
  truthy V1 = true ->
  t1' < t1 + ttl -> t2 < t1 + ttl ->
  let q1 := snd (push V1 t0 t1 t1' (new stringify options)) in
  let q2 := snd (push V2 t2 t3 t3' q1) in
  let q3 := snd (next truthy q2) in
  fst (push V1 t0 t1 t1' (new stringify options)) = Returned true
  /\ fst (push V2 t2 t3 t3' q1) = Returned true
  /\ fst (next truthy q2) = Value V1
  /\ fst (next truthy q3) = Value V1
  /\ cacheHits (getMetrics (snd (next truthy q3))) = 1.
Proof.
  intros options ttl Hroom Ht Hsweep Hhit.
  set (q0 := new stringify options).
  assert (H0 : cache q0 = Some [] /\ cacheKeyFn q0 = Some (fun _ => k)
               /\ cacheTTL q0 = Some ttl /\ nodes q0 = [] /\ resolvers q0 = []
               /\ size q0 = 0 /\ cacheHits (metrics q0) = 0
               /\ maxSize q0 = match cap with Some m => m | None => Infinity end
               /\ dropStrategy q0
                  = match strat with Some d => d | None => Oldest end).
  { subst q0 options ttl. unfold new. cbn. destruct ttlOpt; repeat split. }
  destruct H0 as (Hc0 & Hf0 & Ht0 & Hn0 & Hr0 & Hz0 & Hh0 & Hm0 & Hs0).
  clearbody q0.
  assert (Hq1 : exists qx,
             push V1 t0 t1 t1' q0 = append V1 t1 t1' qx
             /\ cache qx = Some [] /\ cacheKeyFn qx = Some (fun _ => k)
             /\ cacheTTL qx = Some ttl /\ nodes qx = [] /\ resolvers qx = []
             /\ cacheHits (metrics qx) = 0).
  { unfold push, dedupLookup. rewrite Hc0, Hf0. cbn [JsMap.get].
    cbv zeta. cbn [size maxSize dropStrategy withMetrics].
    rewrite Hz0, Hm0, Hs0.
    destruct (geb_num 0 match cap with Some m => m | None => Infinity end)
      eqn:Hfull.
    - assert (Hs : match strat with Some d => d | None => Oldest end = Oldest).
      { destruct Hroom as [Hcap|[-> | ->]]; try reflexivity.
        exfalso. destruct cap as [[m|]|]; cbn in Hfull; try discriminate.
        apply Z.leb_le in Hfull. lia. }
      rewrite Hs. unfold dequeueNode. cbn [nodes withMetrics]. rewrite Hn0.
      cbn [snd]. eexists. split; [reflexivity|]. cbn. repeat split; auto.
    - eexists. split; [reflexivity|]. cbn. repeat split; auto. }
  destruct Hq1 as (qx & Hpush & Hcx & Hfx & Htx & Hnx & Hrx & Hhx).
  intros q1.
  destruct (@first_store V1 t1 t1' qx (fun _ => k) ttl Hcx Hfx Htx Hnx Hrx Hsweep)
    as (Hn & Hr & Hh & Hc & Hf).
  rewrite <- Hpush in Hn, Hr, Hh, Hc, Hf. fold q1 in Hn, Hr, Hh, Hc, Hf.
  assert (Hr1 : fst (push V1 t0 t1 t1' q0) = Returned true)
    by (rewrite Hpush; reflexivity).
  rewrite Hhx in Hh. clearbody q1. clear Hpush.
  intros q2.
  assert (Hq2 : push V2 t2 t3 t3' q1
                = (Returned true,
                   enqueueNode V1 (withMetrics (countHit (metrics q1)) q1))).
  { rewrite (@push_hit T V2 t2 t3 t3' q1 (fun _ => k) _
               {| value := V1; expires := t1 + ttl |} Hc Hf).
    - now rewrite Hr.
    - cbn. now rewrite String.eqb_refl.
    - cbn. lia. }
  subst q2. rewrite Hq2. cbn [fst snd].
  split; [exact Hr1|]. split; [reflexivity|].
  set (q2 := enqueueNode V1 (withMetrics (countHit (metrics q1)) q1)).
  assert (Hn2 : nodes q2 = [V1; V1]) by (subst q2; cbn; now rewrite Hn).
  assert (Hh2 : cacheHits (metrics q2) = 1) by (subst q2; cbn; lia).
  clearbody q2.
  destruct (@next_value q2 V1 [V1] Hn2 Ht) as (Hv2 & Hn3 & Hh3).
  destruct (@next_value (snd (next truthy q2)) V1 [] Hn3 Ht) as (Hv3 & _ & Hh4).
  split; [exact Hv2|]. split; [exact Hv3|].
  unfold getMetrics. lia.
Qed.

End Laws.

(** Instances on queues of numbers. *)

Lemma metrics_balance_witness :
  let options := Some {| opt_maxSize := Some (Fin 1);
                         opt_dropStrategy := Some Oldest;
                         opt_enableCache := None; opt_cacheKeyFn := None;
                         opt_cacheTTL := None |} in
  let ops := [OpPush 1 0 0 0; OpPush 2 1 1 1; OpNext; OpPush 3 2 2 2] in
  let q := run truthyZ ops (new stringifyZ options) in
  enqueued (getMetrics q) - dequeued (getMetrics q) = length q.
Proof.
  intros options ops q.
  apply (@metrics_balance Z truthyZ stringifyZ options ops). reflexivity.
Defined.

Lemma bounded_without_dedup_witness :
  let options := Some {| opt_maxSize := Some (Fin 2);
                         opt_dropStrategy := Some Newest;
                         opt_enableCache := None; opt_cacheKeyFn := None;
                         opt_cacheTTL := None |} in
  let ops := [OpPush 1 0 0 0; OpPush 2 1 1 1; OpPush 3 2 2 2; OpNext;
              OpPush 4 3 3 3; OpPush 5 4 4 4] in
  length (run truthyZ ops (new stringifyZ options)) <= 2.
Proof.
  intros options ops.
  apply (@bounded_without_dedup Z truthyZ stringifyZ options 2 ops);
    [reflexivity|reflexivity|lia].
Defined.

Lemma newest_refuses_when_full_witness :
  let options := Some {| opt_maxSize := Some (Fin 1);
                         opt_dropStrategy := Some Newest;
                         opt_enableCache := None; opt_cacheKeyFn := None;
                         opt_cacheTTL := None |} in
  let q := snd (push 1 0 0 0 (new stringifyZ options)) in
  fst (push 2 1 1 1 q) = Returned false
  /\ nodes (snd (push 2 1 1 1 q)) = nodes q.
Proof.
  intros options q.
  destruct (@newest_refuses_when_full Z 2 1 1 1 q) as (H1 & H2 & _);
    [reflexivity|reflexivity|intros v; cbv; discriminate|].
  split; [exact H1|exact H2].
Defined.

Lemma oldest_evicts_head_witness :
  let options := Some {| opt_maxSize := Some (Fin 2);
                         opt_dropStrategy := Some Oldest;
                         opt_enableCache := None; opt_cacheKeyFn := None;
                         opt_cacheTTL := None |} in
  let q := run truthyZ [OpPush 1 0 0 0; OpPush 2 1 1 1]
             (new stringifyZ options) in
  fst (push 3 2 2 2 q) = Returned true
  /\ nodes (snd (push 3 2 2 2 q)) = tl (nodes q) ++ [3].
Proof.
  intros options q.
  destruct (@oldest_evicts_head Z 3 2 2 2 q) as (H1 & H2 & _);
    [reflexivity|reflexivity|intros v; cbv; discriminate|].
  split; [exact H1|exact H2].
Defined.

Lemma fifo_delivery_witness :
  let ops := [OpPush 1 0 0 0; OpPush 2 1 1 1; OpPush 3 2 2 2] in
  let q := run truthyZ ops (new stringifyZ None) in
  fst (iterate truthyZ 2 q) = [1; 2]
  /\ nodes (snd (iterate truthyZ 2 q)) = [3].
Proof.
  intros ops q.
  destruct (@fifo_delivery Z truthyZ stringifyZ None ops 2) as (_ & H1 & H2);
    [reflexivity|reflexivity|reflexivity|repeat constructor|cbn; lia|].
  split; [exact H1|exact H2].
Defined.

Lemma waiters_served_in_order_witness :
  let q := run truthyZ [OpNext; OpNext] (new stringifyZ None) in
  let ops := [OpPush 5 0 0 0; OpPush 6 1 1 1] in
  resolved (run truthyZ ops q) = [(0%nat, 5); (1%nat, 6)]
  /\ resolvers (run truthyZ ops q) = [].
Proof.
  intros q ops.
  destruct (@waiters_served_in_order Z truthyZ ops q) as (H1 & H2 & _);
    [reflexivity|reflexivity|reflexivity|].
  split; [exact H1|exact H2].
Defined.

Lemma hit_delivers_once_witness :
  let q := snd (push 1 0 0 0 (new stringifyZ (Some (constKey None)))) in
  let q' := snd (push 2 1 1 1 q) in
  fst (push 2 1 1 1 q) = Returned true
  /\ cacheHits (getMetrics q') = cacheHits (getMetrics q) + 1
  /\ nodes q' = nodes q ++ [1].
Proof.
  intros q q'.
  destruct (@hit_delivers_once Z 2 1 1 1 q (fun _ => "k"%string)
              [("k"%string, {| value := 1; expires := 5000 |})]
              {| value := 1; expires := 5000 |})
    as (H1 & _ & H3 & H4 & _);
    [reflexivity|reflexivity|reflexivity|cbv; reflexivity|].
  split; [exact H1|]. split; [exact H3|exact H4].
Defined.


Lemma block_parks_the_item_witness :
  let options := Some {| opt_maxSize := Some (Fin 1);
                         opt_dropStrategy := Some Block;
                         opt_enableCache := None; opt_cacheKeyFn := None;
                         opt_cacheTTL := None |} in
  let q := snd (push 1 0 0 0 (new stringifyZ options)) in
  fst (push 2 1 1 1 q) = Promised None
  /\ nodes (snd (push 2 1 1 1 q)) = nodes q
  /\ timers (snd (push 2 1 1 1 q)) = timers q ++ [2].
Proof.
  intros options q.
  destruct (@block_parks_the_item Z truthyZ 2 1 1 1 q) as (H1 & H2 & H3 & _);
    [reflexivity|reflexivity|intros v; cbv; discriminate|].
  split; [exact H1|]. split; [exact H2|exact H3].
Defined.

Lemma coalescing_returns_first_value_witness :
  let options := Some {| opt_maxSize := Some (Fin 1);
                         opt_dropStrategy := Some Newest;
                         opt_enableCache := Some true;
                         opt_cacheKeyFn := Some (fun _ => "k"%string);
                         opt_cacheTTL := None |} in
  let q1 := snd (push 1 0 0 0 (new stringifyZ options)) in
  let q2 := snd (push 2 1 1 1 q1) in
  fst (next truthyZ q2) = Value 1
  /\ fst (next truthyZ (snd (next truthyZ q2))) = Value 1.
Proof.
  intros options q1 q2.
  destruct (@coalescing_returns_first_value Z truthyZ stringifyZ "k"%string
              (Some (Fin 1)) (Some Newest) None 1 2 0 0 0 1 1 1)
    as (_ & _ & H1 & H2 & _);
    [left; cbn; lia|reflexivity|cbv; reflexivity|cbv; reflexivity|].
  split; [exact H1|exact H2].
Defined.

End AsyncQueueLaws.

(** ** The worker pool, for every concurrency *)

Module PoolLaws.
Import Pool PoolFacts.
Local Open Scope Z_scope.

Section Runs.
Context {T E : Type}.
Variable fn : T -> option E.
Variable isUndefined : T -> bool.
Variable stringify : outcome E -> string.
Variable concurrency : Concurrency.
Variable items : list T.
Variable options : option WorkOptions.

Local Abbreviation wstate := (state T E).
Local Abbreviation okCount := (okCount fn).
Local Abbreviation badCount := (badCount fn).
Local Abbreviation workerLoop := (workerLoop isUndefined concurrency options).
Local Abbreviation spawn := (spawn isUndefined concurrency options).
Local Abbreviation spawnMany := (spawnMany isUndefined concurrency options).
Local Abbreviation settleItem := (settleItem fn items).
Local Abbreviation settle := (settle fn isUndefined concurrency items options).
Local Abbreviation scaler := (scaler isUndefined concurrency options).
Local Abbreviation step := (step fn isUndefined concurrency items options).
Local Abbreviation start := (start isUndefined stringify concurrency items options).
Local Abbreviation work := (work fn isUndefined stringify concurrency items options).
Local Abbreviation balanced := (balanced fn isUndefined items options).
Local Abbreviation logged := (logged fn items).
Local Abbreviation sound := (sound fn isUndefined concurrency items options).

Implicit Types (st : wstate) (ws : list (@worker T)) (l stack sk : list T).

(** Normal form of the sums over workers and items. *)
Ltac tally :=
  repeat first
    [ rewrite running_app | rewrite running_cons | rewrite inFlight_app
    | rewrite okCount_app | rewrite badCount_app
    | rewrite okCount_nil | rewrite badCount_nil
    | rewrite length_app
    | match goal with
      | |- context [Pool.okCount _ (?x :: ?l)] =>
          lazymatch l with [] => fail | _ => rewrite (okCount_cons fn x l) end
      | |- context [Pool.badCount _ (?x :: ?l)] =>
          lazymatch l with [] => fail | _ => rewrite (badCount_cons fn x l) end
      end
    | progress (cbn [inFlight flat_map unsettled isAwaiting List.length app]) ].

(** *** One turn of the worker loop *)

(** The loop pops and skips [undefined] items (without batching only),
    then either returns, on an empty list or because two or more workers
    are active and the backlog is covered, or takes a batch of one up to
    [batchSize] items. *)
Lemma workerLoop_cases active stack :
  exists sk,
    (forall x, In x sk ->
       In x stack /\ isUndefined x = true /\ enableBatching options = false)
    /\ ((exists rest,
           stack = sk ++ rest
           /\ workerLoop active stack = (Finished, active - 1, rest)
           /\ (rest = [] \/ 2 <= active))
        \/ (exists batch rest,
              stack = sk ++ batch ++ rest
              /\ workerLoop active stack = (Awaiting batch, active, rest)
              /\ (1 <= List.length batch <= take options)%nat
              /\ (enableBatching options = false ->
                  forall x, In x batch -> isUndefined x = false))).
Proof.
  induction stack as [|x rest IH].
  - exists []. split; [intros x []|]. left. exists []. cbn. auto.
  - cbn [Pool.workerLoop].
    destruct ((ceilDiv (List.length (x :: rest)) (batchSize options) <? active)
              && (minOf concurrency <? active))%bool eqn:Hdown.
    + exists []. split; [intros y []|]. left. exists (x :: rest).
      repeat split; auto. right.
      apply andb_true_iff in Hdown as [Hcov _]. apply Z.ltb_lt in Hcov.
      pose proof (@ceilDiv_pos (List.length (x :: rest)) (batchSize options)) as Hp.
      cbn [List.length] in *. lia.
    + unfold take in *. destruct (enableBatching options) eqn:Hb.
      * exists []. split; [intros y []|]. right.
        exists (firstn (Pos.to_nat (batchSize options)) (x :: rest)),
               (skipn (Pos.to_nat (batchSize options)) (x :: rest)).
        split; [cbn [app]; now rewrite firstn_skipn|].
        split; [reflexivity|]. split; [|discriminate].
        rewrite length_firstn. cbn [List.length]. lia.
      * destruct (isUndefined x) eqn:Hu.
        -- destruct IH as (sk & Hsk & [(r & Hst & Hw & Hr)
                                      |(batch & r & Hst & Hw & Hlen & Hdef)]).
           ++ exists (x :: sk). split.
              ** intros y [<-|Hy]; [repeat split; auto; now left|].
                 destruct (Hsk y Hy) as (? & ? & ?). repeat split; auto. now right.
              ** left. exists r. rewrite Hst at 1. repeat split; auto.
           ++ exists (x :: sk). split.
              ** intros y [<-|Hy]; [repeat split; auto; now left|].
                 destruct (Hsk y Hy) as (? & ? & ?). repeat split; auto. now right.
              ** right. exists batch, r. rewrite Hst at 1.
                 repeat split; auto; lia.
        -- exists []. split; [intros y []|]. right. exists [x], rest.
           split; [reflexivity|]. split; [reflexivity|].
           split; [cbn; lia|]. intros _ y [<-|[]]. exact Hu.
Qed.

(** *** The callbacks and the result queue *)

Lemma progressLog_next n :
  0 <= n ->
  progressLog items (n + 1) = progressLog items n ++ [(n + 1, nTotal items)].
Proof.
  intros Hn. unfold progressLog.
  replace (Z.to_nat (n + 1)) with (S (Z.to_nat n)) by lia.
  rewrite seq_S, map_app. cbn [map]. do 3 f_equal. lia.
Qed.

Lemma result_push (o : outcome E) (q : AsyncQueue.t (outcome E)) :
  AsyncQueue.cache q = None -> AsyncQueue.maxSize q = Infinity ->
  AsyncQueue.resolvers q = [] ->
  let q' := snd (AsyncQueue.push o 0 0 0 q) in
  AsyncQueue.cache q' = None /\ AsyncQueue.maxSize q' = Infinity
  /\ AsyncQueue.resolvers q' = []
  /\ AsyncQueue.nodes q' = AsyncQueue.nodes q ++ [o]
  /\ AsyncQueue.length q' = AsyncQueue.length q + 1.
Proof.
  intros Hc Hm Hr. cbv zeta.
  rewrite (AsyncQueueLaws.unbounded_push o 0 0 0 q Hc Hm).
  unfold AsyncQueue.handOff, AsyncQueue.enqueueNode. cbn. rewrite Hr. cbn. auto.
Qed.

Lemma logged_withWorkers ws a p st :
  logged st -> logged (withWorkers ws a p st).
Proof. intros [? ? ? ? ? ? ? ?]. constructor; cbn; auto. Qed.

Lemma settleItem_logged item st : logged st -> logged (settleItem item st).
Proof.
  intros [Hc Hf He Hfn Hp (Hqc & Hqm & Hqr) (Hqz & Hql) Hqs].
  unfold Pool.settleItem.
  destruct (fn item) as [e|] eqn:Hitem.
  - destruct (result_push {| success := false; error := Some e |}
                (resultQueue st) Hqc Hqm Hqr) as (Hc' & Hm' & Hr' & Hn' & Hz').
    constructor; cbn -[AsyncQueue.push AsyncQueue.length];
      rewrite ?Hn', ?Hz', ?filter_app, ?length_app;
      cbn [filter success List.length app]; auto; try lia.
    + intros e' x Hin. apply in_app_or in Hin as [Hin|[[= <- <-]|[]]]; auto.
    + rewrite Hp.
      replace (nCompleted st + (nFailed st + 1)) with (nCompleted st + nFailed st + 1)
        by lia.
      now rewrite progressLog_next by lia.
  - destruct (result_push {| success := true; error := None |}
                (resultQueue st) Hqc Hqm Hqr) as (Hc' & Hm' & Hr' & Hn' & Hz').
    constructor; cbn -[AsyncQueue.push AsyncQueue.length];
      rewrite ?Hn', ?Hz', ?filter_app, ?length_app;
      cbn [filter success List.length app]; auto; try lia.
    rewrite Hp.
    replace (nCompleted st + 1 + nFailed st) with (nCompleted st + nFailed st + 1)
      by lia.
    now rewrite progressLog_next by lia.
Qed.

Lemma tryReturn_logged st : logged st -> logged (tryReturn items st).
Proof.
  intros H. unfold tryReturn. destruct (returned st); [exact H|].
  destruct (allFinished _); [|exact H].
  destruct H as [? ? ? ? ? ? ? ?]. constructor; cbn; auto.
Qed.

Lemma spawn_shape st :
  exists w a p, spawn st = withWorkers (workers st ++ [w]) a p st.
Proof. unfold Pool.spawn. destruct (workerLoop _ _) as [[w a] p]. eauto. Qed.

Lemma spawn_logged st : logged st -> logged (spawn st).
Proof.
  intros H. destruct (spawn_shape st) as (w & a & p & ->).
  now apply logged_withWorkers.
Qed.

Lemma spawn_frame st :
  returned (spawn st) = returned st /\ awaited (spawn st) = awaited st
  /\ nCompleted (spawn st) = nCompleted st /\ nFailed (spawn st) = nFailed st.
Proof. destruct (spawn_shape st) as (w & a & p & ->). cbn. auto. Qed.

(** *** The books *)

Lemma spawn_balanced sk st :
  balanced sk st ->
  (exists sk', balanced sk' (spawn st))
  /\ busy (spawn st)
  /\ activeWorkers (spawn st) <= activeWorkers st + 1.
Proof.
  intros [Hrun Hok Hbad Hpen Hsk Hbat]. unfold Pool.spawn, busy.
  pose proof (running_nonneg (workers st)) as Hnn.
  destruct (workerLoop_cases (activeWorkers st + 1) (pending st))
    as (sk0 & Hsk0 & [(rest & Hst & -> & Hr)
                     |(batch & rest & Hst & -> & Hlen & Hdef)]).
  - rewrite Hst in Hok, Hbad, Hpen, Hsk0. revert Hok Hbad. tally. intros Hok Hbad.
    split; [exists (sk ++ sk0); constructor|split];
      cbn -[inFlight running Pool.okCount Pool.badCount In take];
      tally; rewrite ?(@running_nil T); try lia.
    + intros x Hx. apply Hpen. apply in_or_app. now right.
    + intros x Hx. apply in_app_or in Hx as [Hx|Hx]; [now apply Hsk|].
      destruct (Hsk0 x Hx) as (Hin & Hu & Hb). auto.
    + intros b Hb. apply in_app_or in Hb as [Hb|[Hb|[]]];
        [now apply Hbat|discriminate].
    + destruct Hr as [->|Hr]; [now left|right; lia].
  - rewrite Hst in Hok, Hbad, Hpen, Hsk0. revert Hok Hbad. tally. intros Hok Hbad.
    split; [exists (sk ++ sk0); constructor|split];
      cbn -[inFlight running Pool.okCount Pool.badCount In take];
      tally; rewrite ?(@running_nil T); try lia.
    + intros x Hx. apply Hpen. apply in_or_app. right. apply in_or_app. now right.
    + intros x Hx. apply in_app_or in Hx as [Hx|Hx]; [now apply Hsk|].
      destruct (Hsk0 x Hx) as (Hin & Hu & Hb). auto.
    + intros b Hb. apply in_app_or in Hb as [Hb|[[= <-]|[]]];
        [now apply Hbat|].
      split; [exact Hlen|]. intros x Hx. split; [|intros Hoff; now apply Hdef].
      apply Hpen. apply in_or_app. right. apply in_or_app. now left.
Qed.

Lemma spawnMany_logged n st : logged st -> logged (spawnMany n st).
Proof.
  revert st. induction n as [|n IH]; intros st H; cbn; auto.
  apply IH. now apply spawn_logged.
Qed.

Lemma spawnMany_frame n st :
  returned (spawnMany n st) = returned st
  /\ awaited (spawnMany n st) = awaited st
  /\ nCompleted (spawnMany n st) = nCompleted st
  /\ nFailed (spawnMany n st) = nFailed st.
Proof.
  revert st. induction n as [|n IH]; intros st; cbn; auto.
  destruct (IH (spawn st)) as (-> & -> & -> & ->). apply spawn_frame.
Qed.

Lemma spawnMany_balanced n sk st :
  balanced sk st ->
  (exists sk', balanced sk' (spawnMany n st))
  /\ ((1 <= n)%nat \/ busy st -> busy (spawnMany n st))
  /\ activeWorkers (spawnMany n st) <= activeWorkers st + Z.of_nat n.
Proof.
  revert sk st. induction n as [|n IH]; intros sk st Hbal; cbn [Pool.spawnMany].
  - split; [now exists sk|]. split; [intros [H|H]; [lia|exact H]|lia].
  - destruct (spawn_balanced Hbal) as ((sk1 & Hbal1) & Hbusy1 & Hle1).
    destruct (IH sk1 (spawn st) Hbal1) as (Hbal' & Hbusy' & Hle').
    split; [exact Hbal'|]. split; [intros _; apply Hbusy'; now right|lia].
Qed.

Lemma settle_logged w i st : logged st -> logged (settle w i st).
Proof.
  intros H. unfold Pool.settle.
  destruct (nth_error (workers st) w) as [[batch|]|]; auto.
  destruct (nth_error batch i) as [item|]; auto.
  destruct (remove i batch).
  - destruct (Pool.workerLoop _ _ _ _ _) as [[s a] p].
    apply logged_withWorkers. now apply settleItem_logged.
  - apply logged_withWorkers. now apply settleItem_logged.
Qed.

Lemma settle_frame w i st :
  returned (settle w i st) = returned st
  /\ awaited (settle w i st) = awaited st
  /\ nCompleted st <= nCompleted (settle w i st)
  /\ nFailed st <= nFailed (settle w i st).
Proof.
  unfold Pool.settle.
  destruct (nth_error (workers st) w) as [[batch|]|]; try (repeat split; lia).
  destruct (nth_error batch i) as [item|]; try (repeat split; lia).
  destruct (settleItem_fields fn items item st)
    as (_ & _ & _ & Haw1 & Hr1 & Hc1 & Hf1 & _).
  unfold Pool.okCount, Pool.badCount in Hc1, Hf1.
  set (st1 := Pool.settleItem fn items item st) in *. clearbody st1.
  destruct (remove i batch).
  - destruct (Pool.workerLoop _ _ _ _ _) as [[s a] p]. cbn. repeat split; auto; lia.
  - cbn. repeat split; auto; lia.
Qed.

Lemma settle_balanced sk w i st :
  balanced sk st ->
  (exists sk', balanced sk' (settle w i st))
  /\ (busy st -> busy (settle w i st))
  /\ activeWorkers (settle w i st) <= activeWorkers st.
Proof.
  intros Hbal. unfold Pool.settle, busy.
  destruct (nth_error (workers st) w) as [[batch|]|] eqn:Hw;
    try (split; [now exists sk|split; [auto|lia]]).
  destruct (nth_error batch i) as [item|] eqn:Hi;
    try (split; [now exists sk|split; [auto|lia]]).
  destruct (settleItem_fields fn items item st)
    as (Hp1 & Ha1 & Hw1 & _ & _ & Hc1 & Hf1 & _).
  set (st1 := Pool.settleItem fn items item st) in *. clearbody st1.
  destruct Hbal as [Hrun Hok Hbad Hpen Hsk Hbat].
  destruct (replace_split (workers st) w Hw) as (l1 & l2 & Hws & Hrep).
  rewrite <- Hw1 in Hrep.
  destruct (remove_split batch i Hi) as (b1 & b2 & Hbatch & Hrem).
  pose proof (running_nonneg l1) as Hn1. pose proof (running_nonneg l2) as Hn2.
  destruct (Hbat batch) as [Hsize Hfrom];
    [rewrite Hws; apply in_or_app; right; now left|].
  assert (Hold : forall b, In (Awaiting b) l1 \/ In (Awaiting b) l2 ->
                   (1 <= List.length b <= take options)%nat
                   /\ forall x, In x b ->
                        In x items
                        /\ (enableBatching options = false -> isUndefined x = false)).
  { intros b Hb. apply Hbat. rewrite Hws. apply in_or_app.
    destruct Hb as [Hb|Hb]; [now left|right; now right]. }
  clear Hbat. subst batch. rewrite Hws in Hrun, Hok, Hbad. clear Hws.
  rewrite Hrem. revert Hok Hbad Hrun Hsize. tally. intros Hok Hbad Hrun Hsize.
  destruct (b1 ++ b2) as [|y rest'] eqn:Hb12.
  - apply app_eq_nil in Hb12 as [-> ->].
    revert Hok Hbad. tally. intros Hok Hbad.
    rewrite Ha1, Hp1.
    destruct (workerLoop_cases (activeWorkers st) (pending st))
      as (sk0 & Hsk0 & [(rest & Hst & -> & Hr)
                       |(nb & rest & Hst & -> & Hlen & Hdef)]).
    + rewrite Hst in Hok, Hbad, Hpen, Hsk0. revert Hok Hbad. tally.
      intros Hok Hbad.
      split; [exists (sk ++ sk0); constructor|split];
        cbn -[inFlight running Pool.okCount Pool.badCount In take];
        rewrite ?Hrep; tally; try lia.
      * intros x Hx. apply Hpen. apply in_or_app. now right.
      * intros x Hx. apply in_app_or in Hx as [Hx|Hx]; [now apply Hsk|].
        destruct (Hsk0 x Hx) as (Hin & Hu & Hb). auto.
      * intros b Hb. apply Hold.
        apply in_app_or in Hb as [Hb|[Hb|Hb]]; [now left|discriminate|now right].
      * intros _. destruct Hr as [->|Hr]; [now left|right; lia].
    + rewrite Hst in Hok, Hbad, Hpen, Hsk0. revert Hok Hbad. tally.
      intros Hok Hbad.
      split; [exists (sk ++ sk0); constructor|split];
        cbn -[inFlight running Pool.okCount Pool.badCount In take];
        rewrite ?Hrep; tally; try lia.
      * intros x Hx. apply Hpen. apply in_or_app. right. apply in_or_app. now right.
      * intros x Hx. apply in_app_or in Hx as [Hx|Hx]; [now apply Hsk|].
        destruct (Hsk0 x Hx) as (Hin & Hu & Hb). auto.
      * intros b Hb. apply in_app_or in Hb as [Hb|[[= <-]|Hb]];
          [apply Hold; now left| |apply Hold; now right].
        split; [exact Hlen|]. intros x Hx. split; [|intros Hoff; now apply Hdef].
        apply Hpen. apply in_or_app. right. apply in_or_app. now left.
  - rewrite <- Hb12.
    assert (Hsub : forall x, In x (b1 ++ b2) -> In x (b1 ++ [item] ++ b2)).
    { intros x Hx. apply in_app_or in Hx as [Hx|Hx]; apply in_or_app;
        [now left|right; now right]. }
    assert (Hpos : (1 <= List.length (b1 ++ b2))%nat)
      by (rewrite Hb12; cbn; lia).
    revert Hpos. tally. intros Hpos.
    split; [exists sk; constructor|split];
      cbn -[inFlight running Pool.okCount Pool.badCount In take];
      rewrite ?Hrep; tally; rewrite ?Ha1, ?Hp1; auto; try lia.
    intros b Hb. apply in_app_or in Hb as [Hb|[[= <-]|Hb]];
      [apply Hold; now left| |apply Hold; now right].
    split; [rewrite length_app; lia|]. intros x Hx. apply Hfrom. now apply Hsub.
Qed.

(** *** Every state of every run *)

Lemma tryReturn_busy st : busy st -> busy (tryReturn items st).
Proof.
  unfold tryReturn, busy. destruct (returned st); auto.
  destruct (allFinished _); auto.
Qed.

Lemma tryReturn_sound st : sound st -> sound (tryReturn items st).
Proof.
  intros Hs. unfold tryReturn. destruct (returned st) eqn:Hret; [exact Hs|].
  destruct (allFinished _); [|exact Hs].
  destruct Hs as [(sk & Hbal) Hlog Hceil _].
  pose proof (running_nonneg (workers st)) as Hnn.
  pose proof (bal_running Hbal) as Hrun.
  pose proof (log_completed Hlog) as Hc. pose proof (log_failed Hlog) as Hf.
  constructor; cbn -[inFlight running Pool.okCount Pool.badCount In take]; auto.
  - exists sk. destruct Hbal as [? ? ? ? ? ?].
    constructor; cbn -[inFlight running Pool.okCount Pool.badCount In take]; auto.
  - destruct Hlog as [? ? ? ? ? ? ? ?]. constructor; cbn; auto.
  - intros m [= <-]. cbn. repeat split; lia.
Qed.

Lemma spawnMany_sound n st :
  sound st ->
  activeWorkers st + Z.of_nat n <= ceiling concurrency ->
  sound (spawnMany n st)
  /\ ((1 <= n)%nat \/ busy st -> busy (spawnMany n st)).
Proof.
  intros [(sk & Hbal) Hlog Hceil Hret] Hroom.
  destruct (spawnMany_balanced n Hbal) as (Hbal' & Hbusy' & Hle').
  destruct (spawnMany_frame n st) as (Hr & _ & Hc & Hf).
  split; [|exact Hbusy'].
  constructor; [exact Hbal'|now apply spawnMany_logged|lia|].
  rewrite Hr, Hc, Hf. exact Hret.
Qed.

Lemma scaler_sound st :
  sound st -> sound (scaler st) /\ (busy st -> busy (scaler st)).
Proof.
  intros Hs. unfold Pool.scaler. destruct (returned st); [auto|].
  match goal with |- context [if ?c then _ else _] => destruct c eqn:Htest end;
    [|auto].
  apply andb_true_iff in Htest as [Hneed Hbelow].
  apply Z.ltb_lt in Hneed. apply Z.ltb_lt in Hbelow.
  match type of Hneed with
  | 0 < ?k => destruct (@spawnMany_sound (Z.to_nat k) st Hs) as [Hs' Hb]
  end; [unfold ceiling; lia|].
  split; [exact Hs'|]. intros Hbusy. apply Hb. now right.
Qed.

Lemma settle_sound w i st :
  sound st -> sound (settle w i st) /\ (busy st -> busy (settle w i st)).
Proof.
  intros [(sk & Hbal) Hlog Hceil Hret].
  destruct (settle_balanced w i Hbal) as (Hbal' & Hbusy' & Hle').
  destruct (settle_frame w i st) as (Hr & _ & Hc & Hf).
  split; [|exact Hbusy'].
  constructor; [exact Hbal'|now apply settle_logged|lia|].
  rewrite Hr. intros m Hm. destruct (Hret m Hm) as (? & ? & ? & ?).
  repeat split; auto; lia.
Qed.

Lemma step_sound e st :
  sound st -> sound (step e st) /\ (busy st -> busy (step e st)).
Proof.
  intros Hs. unfold Pool.step. destruct e as [|w i].
  - destruct (scaler_sound Hs) as [Hs' Hb].
    split; [now apply tryReturn_sound|]. intros H. apply tryReturn_busy. auto.
  - destruct (settle_sound w i Hs) as [Hs' Hb].
    split; [now apply tryReturn_sound|]. intros H. apply tryReturn_busy. auto.
Qed.

Lemma start_sound :
  sound start /\ (1 <= minOf concurrency -> busy start).
Proof.
  unfold Pool.start.
  set (st0 := {| pending := rev items; nCompleted := 0; nFailed := 0;
                 activeWorkers := 0; workers := []; awaited := 0;
                 resultQueue := AsyncQueue.new stringify None;
                 errors := []; progress := []; returned := None |}).
  set (initial := Z.min (minOf concurrency)
                    (ceilDiv (List.length items) (batchSize options))).
  assert (Hs0 : sound st0).
  { constructor.
    - exists []. constructor; cbn -[inFlight running Pool.okCount Pool.badCount In take].
      + reflexivity.
      + tally. rewrite okCount_rev. lia.
      + tally. rewrite badCount_rev. lia.
      + intros x Hx. now apply in_rev.
      + intros x [].
      + intros b [].
    - constructor; cbn; auto; try lia.
    - cbn. unfold ceiling. lia.
    - intros m Hm. discriminate. }
  pose proof (ceilDiv_nonneg (List.length items) (batchSize options)) as Hcd.
  destruct (@spawnMany_sound (Z.to_nat initial) st0 Hs0) as [Hs1 Hb1];
    [cbn; unfold ceiling; lia|].
  set (st1 := spawnMany (Z.to_nat initial) st0) in *. clearbody st1.
  split.
  - apply tryReturn_sound.
    destruct Hs1 as [(sk & Hbal) Hlog Hceil Hret].
    constructor; cbn -[inFlight running Pool.okCount Pool.badCount In take]; auto.
    + exists sk. destruct Hbal as [? ? ? ? ? ?].
      constructor; cbn -[inFlight running Pool.okCount Pool.badCount In take]; auto.
    + destruct Hlog as [? ? ? ? ? ? ? ?]. constructor; cbn; auto.
  - intros Hmin. apply tryReturn_busy.
    assert (Hbusy : busy st1).
    { apply Hb1. destruct (Nat.eq_dec (List.length items) 0) as [Hz|Hnz].
      - right. left. cbn. apply length_zero_iff_nil in Hz. now rewrite Hz.
      - left.
        pose proof (@ceilDiv_pos (List.length items) (batchSize options)) as Hp.
        unfold initial. lia. }
    exact Hbusy.
Qed.

Lemma work_sound schedule :
  sound (work schedule) /\ (1 <= minOf concurrency -> busy (work schedule)).
Proof.
  unfold Pool.work. generalize start_sound. generalize start.
  induction schedule as [|e schedule IH]; intros st [Hs Hb]; cbn [fold_left];
    [auto|].
  apply IH. destruct (step_sound e Hs) as [Hs' Hb']. auto.
Qed.

Lemma count_split l : okCount l + badCount l = Z.of_nat (List.length l).
Proof.
  unfold Pool.okCount, Pool.badCount.
  induction l as [|x l IH]; cbn [filter List.length]; [reflexivity|].
  destruct (fulfils fn x); cbn [negb List.length]; lia.
Qed.

Lemma count_nonneg l : 0 <= okCount l /\ 0 <= badCount l.
Proof. unfold Pool.okCount, Pool.badCount. lia. Qed.

(** X24. In every state of every run, whatever the concurrency, the
    options and the order of the callbacks, the counter [activeWorkers] is
    the number of workers that have not returned, and it lies between 0
    and the larger of the floor and the ceiling of the concurrency; so
    does the [currentConcurrency] that [work] resolves with. *)
Theorem active_workers_bounded (schedule : list event) :
  let st := work schedule in
  activeWorkers st = running (workers st)
  /\ 0 <= activeWorkers st <= ceiling concurrency
  /\ forall m, returned st = Some m ->
       0 <= currentConcurrency m <= ceiling concurrency.
Proof.
  intros st. destruct (work_sound schedule) as [[(sk & Hbal) _ Hceil Hret] _].
  fold st in Hbal, Hceil, Hret.
  pose proof (running_nonneg (workers st)) as Hnn.
  pose proof (bal_running Hbal) as Hrun.
  split; [exact Hrun|]. split; [lia|].
  intros m Hm. now destruct (Hret m Hm) as (_ & _ & _ & ?).
Qed.

(** X25. No item is counted twice: in every state of every run the
    number of fulfilled items is at most the number of items for which
    [fn] fulfils, the number of failed items at most the number for which
    it rejects, and the settled, in-flight and pending items together
    never exceed the input; the value [work] resolves with has
    [total = items.length] and counts within the same bounds. *)
Theorem never_over_reports (schedule : list event) :
  let st := work schedule in
  0 <= nCompleted st <= okCount items
  /\ 0 <= nFailed st <= badCount items
  /\ nCompleted st + nFailed st
     + Z.of_nat (List.length (inFlight (workers st)))
     + Z.of_nat (List.length (pending st)) <= nTotal items
  /\ forall m, returned st = Some m ->
       total m = nTotal items
       /\ 0 <= completed m <= okCount items
       /\ 0 <= failed m <= badCount items
       /\ completed m + failed m <= total m.
Proof.
  intros st. destruct (work_sound schedule) as [[(sk & Hbal) Hlog _ Hret] _].
  fold st in Hbal, Hlog, Hret.
  destruct Hbal as [_ Hok Hbad _ _ _].
  pose proof (log_completed Hlog) as Hc. pose proof (log_failed Hlog) as Hf.
  pose proof (count_nonneg (inFlight (workers st))) as [? ?].
  pose proof (count_nonneg (pending st)) as [? ?].
  pose proof (count_nonneg sk) as [? ?].
  pose proof (count_split (inFlight (workers st))).
  pose proof (count_split (pending st)).
  pose proof (count_split items). unfold nTotal.
  split; [lia|]. split; [lia|]. split; [lia|].
  intros m Hm. destruct (Hret m Hm) as (? & ? & -> & ?). unfold nTotal.
  repeat split; lia.
Qed.

(** X23. With a floor of at least one worker, and when no item is
    skipped (batching is on, or no item is [undefined]), the books are
    exact in every state of every run, also when the pool scales up:
    every item is fulfilled, failed, in flight or pending.  Once no worker
    is running, nothing is pending, every item has been processed exactly
    once and [onError] was called once per failure, whether or not
    [work] had resolved earlier. *)
Theorem every_item_settles_once (schedule : list event) :
  1 <= minOf concurrency ->
  (enableBatching options = true
   \/ forall x, In x items -> isUndefined x = false) ->
  let st := work schedule in
  nCompleted st + okCount (inFlight (workers st)) + okCount (pending st)
  = okCount items
  /\ nFailed st + badCount (inFlight (workers st)) + badCount (pending st)
     = badCount items
  /\ (allFinished (workers st) = true ->
      pending st = [] /\ activeWorkers st = 0
      /\ nCompleted st = okCount items /\ nFailed st = badCount items
      /\ Z.of_nat (List.length (errors st)) = badCount items).
Proof.
  intros Hmin Hnoskip st.
  destruct (work_sound schedule) as [[(sk & Hbal) Hlog _ _] Hbusy].
  specialize (Hbusy Hmin). fold st in Hbal, Hlog, Hbusy.
  destruct Hbal as [Hrun Hok Hbad _ Hsk _].
  assert (Hnone : sk = []).
  { destruct sk as [|x sk]; [reflexivity|exfalso].
    destruct (Hsk x (or_introl eq_refl)) as (Hin & Hu & Hoff).
    destruct Hnoskip as [Hon|Hdef]; [congruence|].
    rewrite (Hdef x Hin) in Hu. discriminate. }
  subst sk. rewrite okCount_nil in Hok. rewrite badCount_nil in Hbad.
  split; [lia|]. split; [lia|].
  intros Hall. destruct (allFinished_idle _ Hall) as [Hidle Hflight].
  rewrite Hflight, ?okCount_nil, ?badCount_nil in *.
  rewrite Hidle in Hrun.
  destruct Hbusy as [Hp|Hp]; [|lia].
  rewrite Hp, ?okCount_nil, ?badCount_nil in *.
  pose proof (log_errors Hlog).
  repeat split; auto; lia.
Qed.

(** X26. The callbacks and the result queue see every settlement, in
    every state of every run: the [k]-th call of [onProgress] reports
    [(k, total)]; [onError] is called once per failure, with the error
    [fn] gave for the item; the result queue, which nothing reads, holds
    one node per settled item, [completed] of them successes, and no
    consumer waits on it. *)
Theorem callbacks_complete (schedule : list event) :
  let st := work schedule in
  progress st = progressLog items (nCompleted st + nFailed st)
  /\ Z.of_nat (List.length (errors st)) = nFailed st
  /\ (forall e x, In (e, x) (errors st) -> fn x = Some e)
  /\ AsyncQueue.length (resultQueue st) = nCompleted st + nFailed st
  /\ Z.of_nat (List.length (filter success (AsyncQueue.nodes (resultQueue st))))
     = nCompleted st
  /\ AsyncQueue.pending (resultQueue st) = 0%nat.
Proof.
  intros st. destruct (work_sound schedule) as [[_ Hlog _ _] _].
  fold st in Hlog.
  destruct Hlog as [_ _ He Hfn Hp (_ & _ & Hr) (Hqz & _) Hqs].
  repeat split; auto.
  unfold AsyncQueue.pending. now rewrite Hr.
Qed.

(** X27. Every batch in flight, in every state of every run, holds at
    least one and at most [batchSize] items (exactly one without
    batching), all of them items of the input; without batching [fn] is
    never called on [undefined]. *)
Theorem batches_within_size (schedule : list event) (batch : list T) :
  In (Awaiting batch) (workers (work schedule)) ->
  (1 <= List.length batch <= take options)%nat
  /\ forall x, In x batch ->
       In x items /\ (enableBatching options = false -> isUndefined x = false).
Proof.
  destruct (work_sound schedule) as [[(sk & Hbal) _ _ _] _].
  apply (bal_batches Hbal).
Qed.

Lemma step_returned e st m :
  returned st = Some m ->
  returned (step e st) = Some m /\ step Tick st = st.
Proof.
  intros Hm. unfold Pool.step, Pool.scaler, tryReturn. rewrite Hm. rewrite Hm.
  split; [|reflexivity]. destruct e as [|w i]; rewrite ?Hm; auto.
  destruct (settle_frame w i st) as (Hr & _). rewrite Hr, Hm. now rewrite Hr.
Qed.

Lemma step_idle e st m :
  returned st = Some m -> workers st = [] -> step e st = st.
Proof.
  intros Hm Hw. destruct e as [|w i]; [now destruct (@step_returned Tick st m Hm)|].
  unfold Pool.step, Pool.settle, tryReturn. rewrite Hw.
  destruct w; cbn [nth_error]; now rewrite Hm.
Qed.

(** X28. Without a floor there is no pool: when the minimum concurrency
    is 0 or less (or there are no items), [work] starts no worker and
    resolves at once with [completed = failed = 0]; since the interval is
    then cleared, nothing is ever processed and no callback is called,
    whatever the maximum. *)
Theorem no_floor_no_work (schedule : list event) :
  minOf concurrency <= 0 \/ items = [] ->
  let st := work schedule in
  returned st
  = Some {| completed := 0; failed := 0; total := nTotal items;
            currentConcurrency := 0 |}
  /\ workers st = [] /\ pending st = rev items
  /\ nCompleted st = 0 /\ nFailed st = 0
  /\ errors st = [] /\ progress st = [].
Proof.
  intros Hnone st.
  assert (Hstart : returned start
                   = Some {| completed := 0; failed := 0; total := nTotal items;
                             currentConcurrency := 0 |}
                   /\ workers start = [] /\ pending start = rev items
                   /\ nCompleted start = 0 /\ nFailed start = 0
                   /\ errors start = [] /\ progress start = []).
  { unfold Pool.start.
    replace (Z.to_nat (Z.min (minOf concurrency)
                         (ceilDiv (List.length items) (batchSize options))))
      with 0%nat; [cbn; repeat split|].
    destruct Hnone as [Hmin| ->]; [lia|]. cbn [List.length].
    rewrite ceilDiv_zero. lia. }
  assert (Hsame : st = start).
  { unfold st, Pool.work. destruct Hstart as (Hm & Hw & _). revert Hm Hw.
    generalize start.
    induction schedule as [|e sched IH]; intros s Hm Hw; cbn [fold_left]; auto.
    rewrite (@step_idle e s _ Hm Hw). now apply IH. }
  rewrite Hsame. exact Hstart.
Qed.

(** X22. When the ceiling does not exceed the floor (a fixed
    concurrency in particular), the floor is at least one and no item is
    [undefined], [work] resolves only after every worker has returned,
    and with the exact counts: [completed] and [failed] are the numbers
    of items for which [fn] fulfils and rejects, [currentConcurrency] is
    0, nothing is pending and [onError] was called once per failure. *)
Theorem flat_pool_reports_all (schedule : list event) (m : WorkMetrics) :
  1 <= minOf concurrency ->
  maxOf concurrency <= minOf concurrency ->
  (forall x, In x items -> isUndefined x = false) ->
  let st := work schedule in
  returned st = Some m ->
  m = {| completed := okCount items; failed := badCount items;
         total := nTotal items; currentConcurrency := 0 |}
  /\ allFinished (workers st) = true
  /\ pending st = []
  /\ Z.of_nat (List.length (errors st)) = badCount items.
Proof.
  intros Hmin Hflat Hdef st Hm. subst st.
  pose proof (@work_settledDown T E fn isUndefined stringify concurrency items
                options Hmin Hflat Hdef schedule) as Hsd.
  destruct (sd_returned Hsd Hm) as [Hall _].
  destruct (@flat_pool_accounts T E fn isUndefined stringify concurrency items
              options Hmin Hflat Hdef schedule) as (Hret & Herr & Hpen).
  { unfold quiescent. now rewrite Hall, Hm. }
  cbv zeta in Hret, Herr, Hpen. rewrite Hm in Hret. injection Hret as ->.
  auto.
Qed.

End Runs.

(** Instances on the ten numbered items. *)

Lemma every_item_settles_once_witness :
  let st := work threeFail neverUndefined outcomeKey (Range 1 4) tenItems None
              (slowSchedule ++ slowRest) in
  pending st = [] /\ nCompleted st = 7 /\ nFailed st = 3.
Proof.
  intros st.
  destruct (@every_item_settles_once nat string threeFail neverUndefined
              outcomeKey (Range 1 4) tenItems None (slowSchedule ++ slowRest))
    as (_ & _ & Hrest); [cbn; lia|right; intros x _; reflexivity|].
  destruct Hrest as (Hp & _ & Hc & Hf & _); [reflexivity|].
  split; [exact Hp|]. split; [exact Hc|exact Hf].
Defined.

Lemma batches_within_size_witness :
  (1 <= List.length [1%nat] <= take None)%nat.
Proof.
  apply (@batches_within_size nat string threeFail neverUndefined outcomeKey
           (Range 1 4) tenItems None slowSchedule [1%nat]).
  vm_compute. tauto.
Defined.

Lemma no_floor_no_work_witness :
  let st := work threeFail neverUndefined outcomeKey (Range 0 4) tenItems None
              [Tick; Settle 0 0; Tick] in
  returned st
  = Some {| completed := 0; failed := 0; total := 10; currentConcurrency := 0 |}
  /\ workers st = [].
Proof.
  intros st.
  destruct (@no_floor_no_work nat string threeFail neverUndefined outcomeKey
              (Range 0 4) tenItems None [Tick; Settle 0 0; Tick])
    as (Hret & Hws & _); [left; cbn; lia|].
  split; [exact Hret|exact Hws].
Defined.

Lemma flat_pool_reports_all_witness :
  let st := work threeFail neverUndefined outcomeKey (Fixed 2) tenItems None
              (concat (repeat [Settle 0 0; Settle 1 0] 5)) in
  returned st
  = Some {| completed := 7; failed := 3; total := 10; currentConcurrency := 0 |}
  /\ pending st = [].
Proof.
  intros st. split; [reflexivity|].
  destruct (@flat_pool_reports_all nat string threeFail neverUndefined outcomeKey
              (Fixed 2) tenItems None
              (concat (repeat [Settle 0 0; Settle 1 0] 5))
              {| completed := 7; failed := 3; total := 10;
                 currentConcurrency := 0 |})
    as (_ & _ & Hp & _);
    [cbn; lia|cbn; lia|intros x _; reflexivity|reflexivity|exact Hp].
Defined.

End PoolLaws.

(** ** The entry-limited cache *)

Module LruCacheLaws.
Import LruCache.
Local Open Scope Z_scope.

Section Laws.
Context {K V : Type}.
Variable sameKey : K -> K -> bool.
Variable isNull : K -> bool.
Variable maxEntries : num.
Hypothesis sameKey_spec : forall a b, sameKey a b = true <-> a = b.

Local Abbreviation entries := (entries K V).
Local Abbreviation mapGet := (mapGet sameKey).
Local Abbreviation mapSet := (mapSet sameKey).
Local Abbreviation mapDelete := (mapDelete sameKey).
Local Abbreviation set := (set sameKey isNull maxEntries).
Local Abbreviation step := (step sameKey isNull maxEntries).
Local Abbreviation run := (run sameKey isNull maxEntries).

Implicit Types (m : entries) (k key : K) (e : LruCacheEntry V) (st : state K V).

Lemma mapSet_length_le key e m :
  (List.length (mapSet key e m) <= S (List.length m))%nat.
Proof.
  induction m as [|[k e'] m IH]; cbn; [lia|].
  destruct (sameKey key k); cbn; lia.
Qed.

Lemma mapSet_present key e e0 m :
  mapGet key m = Some e0 -> List.length (mapSet key e m) = List.length m.
Proof.
  induction m as [|[k e'] m IH]; cbn; [discriminate|].
  destruct (sameKey key k); cbn; auto.
Qed.

Lemma mapDelete_present key e0 m :
  mapGet key m = Some e0 -> S (List.length (mapDelete key m)) = List.length m.
Proof.
  induction m as [|[k e'] m IH]; cbn; [discriminate|].
  destruct (sameKey key k); cbn; auto.
Qed.

Lemma mapDelete_length_le key m :
  (List.length (mapDelete key m) <= List.length m)%nat.
Proof.
  induction m as [|[k e'] m IH]; cbn; [lia|].
  destruct (sameKey key k); cbn; lia.
Qed.

Lemma mapSet_in key e m k' e' :
  In (k', e') (mapSet key e m) -> k' = key \/ In (k', e') m.
Proof.
  induction m as [|[k e0] m IH]; cbn.
  - intros [[= <- <-]|[]]. now left.
  - destruct (sameKey key k); cbn.
    + intros [[= <- <-]|H]; auto.
    + intros [H|H]; auto. destruct (IH H); auto.
Qed.

Lemma mapDelete_in key m p : In p (mapDelete key m) -> In p m.
Proof.
  induction m as [|[k e0] m IH]; cbn; auto.
  destruct (sameKey key k); cbn; [auto|]. intros [H|H]; auto.
Qed.

Lemma mapGet_in key e m : mapGet key m = Some e -> In (key, e) m.
Proof.
  induction m as [|[k e0] m IH]; cbn; [discriminate|].
  destruct (sameKey key k) eqn:Hk; [|auto].
  apply sameKey_spec in Hk as ->. intros [= ->]. now left.
Qed.

Lemma in_mapGet key e m : In (key, e) m -> mapGet key m <> None.
Proof.
  induction m as [|[k e0] m IH]; cbn; [tauto|].
  intros [[= -> ->]|H].
  - replace (sameKey key key) with true; [discriminate|].
    symmetry. now apply sameKey_spec.
  - destruct (sameKey key k); [discriminate|auto].
Qed.

(** The scan returns its starting key or a key of the map, and finds a
    key whenever the map is not empty. *)
Lemma scan_in m (acc : option K) a k :
  scan m acc a = Some k -> acc = Some k \/ exists e, In (k, e) m.
Proof.
  revert acc a. induction m as [|[k0 e0] m IH]; intros acc a; cbn; [auto|].
  destruct (ltb_num (lastAccess e0) a); intros H; apply IH in H as [H|[e H]];
    eauto.
  injection H as <-. eauto.
Qed.

Lemma scan_from_some m k0 a : scan m (Some k0) a <> None.
Proof.
  revert k0 a. induction m as [|[k e] m IH]; intros k0 a; cbn; [discriminate|].
  destruct (ltb_num (lastAccess e) a); apply IH.
Qed.

Lemma scan_finds m : m <> [] -> exists k e, scan m None Infinity = Some k /\ In (k, e) m.
Proof.
  destruct m as [|[k0 e0] m]; [tauto|intros _]. cbn [scan ltb_num].
  destruct (scan m (Some k0) (Fin (lastAccess e0))) as [k|] eqn:Hs;
    [|now apply scan_from_some in Hs].
  destruct (scan_in _ _ _ Hs) as [[= <-]|[e He]].
  - exists k0, e0. split; [reflexivity|now left].
  - exists k, e. split; [reflexivity|now right].
Qed.

Lemma step_within (N : Z) (o : op K V) st :
  maxEntries = Fin N ->
  nullFree isNull [o] = true ->
  Z.of_nat (size st) <= Z.max N 1 ->
  (forall k e, In (k, e) (cache st) -> isNull k = false) ->
  Z.of_nat (size (step o st)) <= Z.max N 1
  /\ (forall k e, In (k, e) (cache (step o st)) -> isNull k = false).
Proof.
  intros Hmax Ho Hsize Hkeys. unfold size in *. destruct o; cbn [LruCache.step].
  - cbn in Ho. rewrite andb_true_r in Ho. apply negb_true_iff in Ho.
    unfold LruCache.set, has, mapHas, size. rewrite Hmax. cbn [geb_num].
    set (new := {| value := v; lastAccess := now |}).
    destruct (((N <=? Z.of_nat (List.length (cache st)))
               && negb match mapGet key (cache st) with
                       | Some _ => true | None => false end)%bool) eqn:Htest.
    + apply andb_true_iff in Htest as [Hfull _]. apply Z.leb_le in Hfull.
      unfold evictOne.
      destruct (cache st) as [|p m] eqn:Hc.
      * cbn. rewrite Hc. cbn. split; [lia|]. intros k e [[= <- <-]|[]]. exact Ho.
      * destruct (@scan_finds (p :: m)) as (k & e & -> & Hin); [discriminate|].
        rewrite (Hkeys k e Hin).
        unfold delete_. rewrite Hc.
        destruct (mapGet k (p :: m)) as [e1|] eqn:Hget;
          [|now apply in_mapGet in Hin].
        cbn [snd cache].
        pose proof (mapDelete_present _ _ Hget) as Hdel.
        pose proof (mapSet_length_le key new (mapDelete k (p :: m))) as Hset.
        split; [lia|].
        intros k' e' Hin'. apply mapSet_in in Hin' as [->|Hin']; [exact Ho|].
        apply mapDelete_in in Hin'. eauto.
    + cbn [cache]. split.
      * apply andb_false_iff in Htest as [Hroom|Hhas].
        -- apply Z.leb_gt in Hroom.
           pose proof (mapSet_length_le key new (cache st)). lia.
        -- destruct (mapGet key (cache st)) as [e0|] eqn:Hget; [|discriminate].
           rewrite (mapSet_present _ _ _ Hget). exact Hsize.
      * intros k' e' Hin'. apply mapSet_in in Hin' as [->|Hin']; [exact Ho|eauto].
  - unfold get. destruct (mapGet key (cache st)) as [e0|] eqn:Hget; cbn [snd cache];
      [|auto].
    rewrite (mapSet_present _ _ _ Hget). split; [exact Hsize|].
    intros k' e' Hin'. apply mapSet_in in Hin' as [->|Hin']; [|eauto].
    apply mapGet_in in Hget. eauto.
  - unfold delete, delete_. destruct (mapGet key (cache st)) as [e0|] eqn:Hget;
      cbn [snd cache]; [|auto].
    pose proof (mapDelete_length_le key (cache st)). split; [lia|].
    intros k' e' Hin'. apply mapDelete_in in Hin'. eauto.
  - cbn. split; [lia|]. intros k e [].
Qed.

(** X30. The entry limit of the cache of [bootstrap.ts]: from the empty
    cache, after any sequence of [set], [get], [delete] and [clear] calls
    in which no [set] uses the key [null], the cache holds at most
    [maxEntries] entries, and at most one when [maxEntries] is 0 or
    less. *)
Theorem entry_limit_respected (N : Z) (ops : list (op K V)) :
  maxEntries = Fin N ->
  nullFree isNull ops = true ->
  Z.of_nat (size (run ops empty)) <= Z.max N 1.
Proof.
  intros Hmax Hops. unfold LruCache.run.
  assert (H0 : Z.of_nat (size (@empty K V)) <= Z.max N 1
               /\ forall k e, In (k, e) (cache (@empty K V)) -> isNull k = false).
  { cbn. split; [lia|]. intros k e []. }
  revert H0 Hops. generalize (@empty K V).
  induction ops as [|o ops IH]; intros st [Hsize Hkeys] Hops; cbn [fold_left];
    [exact Hsize|].
  unfold nullFree in Hops. cbn [forallb] in Hops.
  apply andb_true_iff in Hops as [Ho Hops].
  apply IH; [|exact Hops]. apply step_within; auto.
  unfold nullFree. cbn [forallb]. now rewrite Ho.
Qed.

End Laws.

Lemma sameKeyS_spec a b : sameKeyS a b = true <-> a = b.
Proof.
  destruct a as [x|], b as [y|]; cbn; try (split; [discriminate|discriminate]).
  - rewrite String.eqb_eq. split; [now intros ->|now intros [= ->]].
  - tauto.
Qed.

Lemma entry_limit_respected_witness :
  let ops := [OpSet (Some "a"%string) 1 0; OpSet (Some "b"%string) 2 1;
              OpGet (Some "a"%string) 2; OpSet (Some "c"%string) 3 3;
              OpSet (Some "d"%string) 4 4] in
  Z.of_nat (size (run sameKeyS isNullS (Fin 2) ops empty)) <= Z.max 2 1.
Proof.
  intros ops.
  apply (@entry_limit_respected (option string) Z sameKeyS isNullS (Fin 2)
           sameKeyS_spec 2 ops); reflexivity.
Defined.

(** The key [null] is never evicted: once it is the least recently used
    entry, every [set] of a new key grows the cache past the limit. *)
Example null_key_escapes_eviction :
  let ops := [OpSet None 0 0; OpSet (Some "a"%string) 1 1;
              OpSet (Some "b"%string) 2 2] in
  size (run sameKeyS isNullS (Fin 1) ops empty) = 3%nat.
Proof. reflexivity. Qed.

End LruCacheLaws.
